(** * Wordle: the scoring engine, the hint aggregator, the game state machine
    and the persistence check of [src/game.js] (and of its older variant
    [src/unnamed/part_000]), embedded in Rocq.

    Conventions of the embedding.
    - A JavaScript string is a [string]; its characters are [ascii] codes.
      The words of the game are made of the letters A-Z.
    - [undefined] is [None]: [w[i]] is [String.get i w], a property that an
      object does not have reads as [None].
    - A plain JavaScript object used as a dictionary is a [gmap] keyed by the
      property name (a [string]).  The only names ever used are one-character
      names and the name ["undefined"]; [Object.prototype] has no property of
      those names, so a missing key reads as [undefined].
    - An array is a [list]; [a[i] = v] is written out by [js_set]. *)

From Stdlib Require Import ZArith Ascii String.
From stdpp Require Import gmap gmultiset strings list pretty.

(** ** Constants (game.js lines 3-4, 19) *)

Definition MAX_ROWS : nat := 6.
Definition WORD_LENGTH : nat := 5.

(** The evaluation strings ['empty'], ['absent'], ['present'], ['correct']. *)
Inductive LetterEval : Set := Empty | Absent | Present | Correct.

#[global] Instance LetterEval_eq_dec : EqDecision LetterEval.
Proof. solve_decision. Defined.

(** ** JavaScript numbers, as far as the letter counts need them *)

(** The counts are small integers; [NaN] arises from [undefined - 1]. *)
Inductive Num : Set := Int (z : Z) | NaN.

(** [v || 0] for a count read from an object: [undefined], [0] and [NaN] are
    falsy. *)
Definition or_zero (v : option Num) : Num :=
  match v with
  | Some (Int z) => if decide (z = 0%Z) then Int 0 else Int z
  | Some NaN | None => Int 0
  end.

(** [ToNumber(v)] for a count read from an object: [undefined] is [NaN]. *)
Definition to_number (v : option Num) : Num :=
  match v with Some n => n | None => NaN end.

Definition num_add1 (n : Num) : Num :=
  match n with Int z => Int (z + 1) | NaN => NaN end.

Definition num_sub1 (n : Num) : Num :=
  match n with Int z => Int (z - 1) | NaN => NaN end.

(** [v > 0]: false for [undefined] and for [NaN]. *)
Definition gt_zero (v : option Num) : bool :=
  match v with Some (Int z) => bool_decide (0 < z)%Z | _ => false end.

(** The property name under which a value read from a string index is looked
    up: a character is its one-character string, [undefined] is the name
    ["undefined"]. *)
Definition prop_key (v : option ascii) : string :=
  match v with Some c => String c EmptyString | None => "undefined" end.

(** [obj[k] -= 1]. *)
Definition decrement (k : string) (counts : gmap string Num) : gmap string Num :=
  <[k := num_sub1 (to_number (counts !! k))]> counts.

(** ** Scoring engine (game.js lines 186-217, part_000 lines 139-170) *)

(** [getLetterCounts]: [[...word].reduce((acc, letter) => { acc[letter] =
    (acc[letter] || 0) + 1; return acc; }, {})]. *)
Definition getLetterCounts (word : string) : gmap string Num :=
  foldl (λ acc letter,
           <[prop_key (Some letter) :=
               num_add1 (or_zero (acc !! prop_key (Some letter)))]> acc)
        ∅ (list_ascii_of_string word).

(** The state of the two loops of [scoreGuess]: the array [result] and the
    object [remainingCounts]. *)
Definition ScoreState : Type := list LetterEval * gmap string Num.

(** Body of the first loop, at index [i]. *)
Definition pass1_body (guess answer : string) (st : ScoreState) (i : nat)
  : ScoreState :=
  if decide (String.get i guess = String.get i answer)
  then (<[i := Correct]> st.1, decrement (prop_key (String.get i guess)) st.2)
  else st.

(** Body of the second loop, at index [i]. *)
Definition pass2_body (guess : string) (st : ScoreState) (i : nat)
  : ScoreState :=
  if decide (st.1 !! i = Some Correct) then st
  else
    let letter := String.get i guess in
    if gt_zero (st.2 !! prop_key letter)
    then (<[i := Present]> st.1, decrement (prop_key letter) st.2)
    else st.

(** [scoreGuess(guess, answer)].  Both loops run over [0 .. WORD_LENGTH-1];
    [result] has length [WORD_LENGTH], so every write [result[i] = ...] is in
    range. *)
Definition scoreGuess (guess answer : string) : list LetterEval :=
  let st0 : ScoreState := (replicate WORD_LENGTH Absent, getLetterCounts answer) in
  let st1 := foldl (pass1_body guess answer) st0 (seq 0 WORD_LENGTH) in
  let st2 := foldl (pass2_body guess) st1 (seq 0 WORD_LENGTH) in
  st2.1.

(** ** The two-pass scheme in the words of the specification

    "Build a multiset of letter -> remaining-count from the answer.  Pass 1:
    for each position i where guess[i] == answer[i], mark correct and
    decrement that letter's remaining count.  Pass 2: for each position not
    already correct, if the letter's remaining count > 0, mark present and
    decrement; otherwise mark absent."  Both passes go left to right. *)

(** Pass 1 returns, for every position, whether it was marked correct,
    together with the remaining counts. *)
Fixpoint spec_pass1 (guess answer : list ascii) (remaining : gmultiset ascii)
  : list bool * gmultiset ascii :=
  match guess, answer with
  | g :: guess', a :: answer' =>
      if decide (g = a)
      then let r := spec_pass1 guess' answer' (remaining ∖ {[+ g +]}) in
           (true :: r.1, r.2)
      else let r := spec_pass1 guess' answer' remaining in
           (false :: r.1, r.2)
  | _, _ => ([], remaining)
  end.

Fixpoint spec_pass2 (guess : list ascii) (marked : list bool)
    (remaining : gmultiset ascii) : list LetterEval :=
  match guess, marked with
  | g :: guess', true :: marked' => Correct :: spec_pass2 guess' marked' remaining
  | g :: guess', false :: marked' =>
      if decide (0 < multiplicity g remaining)
      then Present :: spec_pass2 guess' marked' (remaining ∖ {[+ g +]})
      else Absent :: spec_pass2 guess' marked' remaining
  | _, _ => []
  end.

Definition two_pass_score (guess answer : string) : list LetterEval :=
  let g := list_ascii_of_string guess in
  let a := list_ascii_of_string answer in
  let r := spec_pass1 g a (list_to_set_disj a) in
  spec_pass2 g r.1 r.2.

(** What a scored position may hold. *)
Definition scored (e : LetterEval) : Prop :=
  e = Correct ∨ e = Present ∨ e = Absent.

(** Counting, for the duplicate-letter properties. *)

(** [occurrences L w]: how many times the letter [L] occurs in [w]. *)
Fixpoint occurrences (L : ascii) (w : list ascii) : nat :=
  match w with
  | [] => 0
  | c :: w' => (if decide (c = L) then 1 else 0) + occurrences L w'
  end.

(** [count_marked P L guess result]: the number of positions that hold the
    letter [L] in [guess] and an evaluation satisfying [P] in [result]. *)
Fixpoint count_marked (P : LetterEval → bool) (L : ascii)
    (guess : list ascii) (result : list LetterEval) : nat :=
  match guess, result with
  | g :: guess', e :: result' =>
      (if decide (g = L) then (if P e then 1 else 0) else 0)
      + count_marked P L guess' result'
  | _, _ => 0
  end.

Definition is_hit (e : LetterEval) : bool :=
  match e with Present | Correct => true | Empty | Absent => false end.

Definition is_absent (e : LetterEval) : bool :=
  match e with Absent => true | _ => false end.

(** ** Keyboard hint aggregator (game.js lines 19, 219-228; part_000 lines 18,
    172-181) *)

(** [statePriority = { absent: 1, present: 2, correct: 3 }]; any other name
    reads as [undefined]. *)
Definition statePriority (e : LetterEval) : option nat :=
  match e with
  | Absent => Some 1
  | Present => Some 2
  | Correct => Some 3
  | Empty => None
  end.

(** [a > b] on two values read from [statePriority]: false as soon as one of
    them is [undefined]. *)
Definition priority_gt (a b : option nat) : bool :=
  match a, b with
  | Some x, Some y => bool_decide (y < x)
  | _, _ => false
  end.

(** [lo <= n <= hi] on character codes. *)
Definition in_range (lo hi n : nat) : bool :=
  (Nat.leb lo n && Nat.leb n hi)%bool.

(** [c.toLowerCase()] for a character of code below 256: the letters A-Z and
    the capital letters of Latin-1 (192-222 but 215) move up by 32. *)
Definition lower_ascii (c : ascii) : ascii :=
  let n := nat_of_ascii c in
  if in_range 65 90 n || in_range 192 222 n && negb (Nat.eqb n 215)
  then ascii_of_nat (n + 32) else c.

(** [c.toUpperCase()] for a character of code below 256: the letters a-z and
    the small letters of Latin-1 (224-254 but 247) move down by 32.  The
    upper-case forms of three characters lie outside the strings at hand
    (181 gives code 924, 223 gives two letters S, 255 gives code 376); they
    are left as they are here, and [upper_case_fits] below excludes them
    where the upper-case form of a word is stated.  The source applies
    [toUpperCase] to a key that matched [/^[a-z]$/i] and to the answer. *)
Definition upper_ascii (c : ascii) : ascii :=
  let n := nat_of_ascii c in
  if in_range 97 122 n || in_range 224 254 n && negb (Nat.eqb n 247)
  then ascii_of_nat (n - 32) else c.

(** The words whose upper-case form is a string of characters below 256, so
    that [toUpperCase] below gives it. *)
Definition upper_case_fits (word : string) : Prop :=
  Forall (λ c, nat_of_ascii c ∉ [181; 223; 255]) (list_ascii_of_string word).

Fixpoint map_string (f : ascii → ascii) (s : string) : string :=
  match s with
  | EmptyString => EmptyString
  | String c s' => String (f c) (map_string f s')
  end.

Definition toLowerCase : string → string := map_string lower_ascii.
Definition toUpperCase : string → string := map_string upper_ascii.

(** [[...word]]: the characters of a word, each as a one-character string. *)
Definition spread (word : string) : list string :=
  (λ c, String c EmptyString) <$> list_ascii_of_string word.

(** The callback of [guessLetters.forEach] at [(letter, index)].  When
    [scoredStates[index]] is [undefined] the test can only pass for a letter
    without a hint, which then gets the value [undefined]: it still reads as
    having no hint, and the map is left as it is.  The map holds the own
    properties of [state.keyStates]; the letters are the one-character
    strings that [[...guess]] yields, which name nothing that an object
    inherits from [Object.prototype]. *)
Definition update_hint (scoredStates : list LetterEval)
    (keyStates : gmap string LetterEval) (index : nat) (letter : string)
  : gmap string LetterEval :=
  match scoredStates !! index with
  | None => keyStates
  | Some newState =>
      let keyLetter := toLowerCase letter in
      match keyStates !! keyLetter with
      | None => <[keyLetter := newState]> keyStates
      | Some currentState =>
          if priority_gt (statePriority newState) (statePriority currentState)
          then <[keyLetter := newState]> keyStates
          else keyStates
      end
  end.

(** [forEach], from index [index] on. *)
Fixpoint forEach_hint (index : nat) (guessLetters : list string)
    (scoredStates : list LetterEval) (keyStates : gmap string LetterEval)
  : gmap string LetterEval :=
  match guessLetters with
  | [] => keyStates
  | letter :: rest =>
      forEach_hint (S index) rest scoredStates
        (update_hint scoredStates keyStates index letter)
  end.

(** [updateKeyboardStates(guessLetters, scoredStates)], acting on
    [state.keyStates]. *)
Definition updateKeyboardStates (guessLetters : list string)
    (scoredStates : list LetterEval) (keyStates : gmap string LetterEval)
  : gmap string LetterEval :=
  forEach_hint 0 guessLetters scoredStates keyStates.

(** The rank of a hint, for stating that hints only move up: no hint (and a
    value without a priority) ranks lowest. *)
Definition rank (hint : option LetterEval) : nat :=
  match hint with
  | Some e => default 0 (statePriority e)
  | None => 0
  end.

(** A run of the aggregator over several scored guesses. *)
Definition update_all (updates : list (list string * list LetterEval))
    (keyStates : gmap string LetterEval) : gmap string LetterEval :=
  foldl (λ ks u, updateKeyboardStates u.1 u.2 ks) keyStates updates.

(** ** Game state (game.js lines 43-54) *)

Inductive Status : Set := Active | Won | Lost.

#[global] Instance Status_eq_dec : EqDecision Status.
Proof. solve_decision. Defined.

(** The object [state].  The variant part_000 has no [developerMode]
    property; its functions neither read nor write the field. *)
Record GameState : Type := mkState {
  answer : string;
  guesses : list (list string);
  evaluations : list (list LetterEval);
  currentRow : nat;
  currentCol : nat;
  status : Status;
  keyStates : gmap string LetterEval;
  developerMode : bool
}.

(** What the handlers act on: the module-level variable [state] and the text
    of the status element.  Rendering, sounds, animations and the snapshot
    written by [render] read [state] and never write it; they are left out. *)
Record World : Type := mkWorld {
  state : GameState;
  statusText : string
}.

(** How a handler ends: it returns, or a [TypeError] escapes from it; in
    both cases the world is what the handler made of it until then. *)
Inductive Completion : Type :=
| Returns (w : World)
| Throws (w : World).

Definition world_of (c : Completion) : World :=
  match c with Returns w | Throws w => w end.

(** [a[i] = v] on an array: in range the element is overwritten; beyond the
    end the array grows up to index [i], and the indices skipped become
    holes.  A hole reads as [undefined]; it is rendered by [hole] (the empty
    string for a cell, which is how [join] prints it; the empty row for a
    row). *)
Definition js_set {A : Type} (hole : A) (i : nat) (v : A) (a : list A)
  : list A :=
  if decide (i < length a) then <[i := v]> a
  else a ++ replicate (i - length a) hole ++ [v].

(** [row.join('')]. *)
Definition join (row : list string) : string :=
  foldr String.append EmptyString row.

Definition createNewState (answerOverride : string) : GameState :=
  {| answer := answerOverride;
     guesses := replicate MAX_ROWS (replicate WORD_LENGTH EmptyString);
     evaluations := replicate MAX_ROWS (replicate WORD_LENGTH Empty);
     currentRow := 0;
     currentCol := 0;
     status := Active;
     keyStates := ∅;
     developerMode := false |}.

Definition setStatus (message : string) (w : World) : World :=
  {| state := state w; statusText := message |}.

(** Field updates, named after the assignments they stand for. *)
Definition set_guesses (g : list (list string)) (s : GameState) : GameState :=
  mkState (answer s) g (evaluations s) (currentRow s) (currentCol s)
    (status s) (keyStates s) (developerMode s).
Definition set_evaluations (e : list (list LetterEval)) (s : GameState)
  : GameState :=
  mkState (answer s) (guesses s) e (currentRow s) (currentCol s)
    (status s) (keyStates s) (developerMode s).
Definition set_currentRow (r : nat) (s : GameState) : GameState :=
  mkState (answer s) (guesses s) (evaluations s) r (currentCol s)
    (status s) (keyStates s) (developerMode s).
Definition set_currentCol (c : nat) (s : GameState) : GameState :=
  mkState (answer s) (guesses s) (evaluations s) (currentRow s) c
    (status s) (keyStates s) (developerMode s).
Definition set_status (st : Status) (s : GameState) : GameState :=
  mkState (answer s) (guesses s) (evaluations s) (currentRow s) (currentCol s)
    st (keyStates s) (developerMode s).
Definition set_keyStates (k : gmap string LetterEval) (s : GameState)
  : GameState :=
  mkState (answer s) (guesses s) (evaluations s) (currentRow s) (currentCol s)
    (status s) k (developerMode s).
Definition set_developerMode (d : bool) (s : GameState) : GameState :=
  mkState (answer s) (guesses s) (evaluations s) (currentRow s) (currentCol s)
    (status s) (keyStates s) d.

(** The two source files. [game.js] has the developer command; part_000 is
    the same game without it. *)
Inductive Source : Set := GameJs | Part000.

#[global] Instance Source_eq_dec : EqDecision Source.
Proof. solve_decision. Defined.

(** [toggleDeveloperMode] (game.js lines 272-281). *)
Definition toggleDeveloperMode (w : World) : World :=
  let s := state w in
  let s1 := set_developerMode (negb (developerMode s)) s in
  let s2 := set_guesses (js_set [] (currentRow s1)
                           (replicate WORD_LENGTH EmptyString) (guesses s1)) s1 in
  let s3 := set_evaluations (js_set [] (currentRow s2)
                               (replicate WORD_LENGTH Empty) (evaluations s2)) s2 in
  let s4 := set_currentCol 0 s3 in
  {| state := s4;
     statusText := if developerMode s4 then "Welcome developer."
                   else "Developer mode disabled." |}.

Section WordSource.
(** [isValidGuess] of [dictionary.js], which is not part of the sources
    at hand. *)
Variable isValidGuess : string → bool.

(** The message of a won game (game.js line 308, part_000 line 201): the
    two files spell its last part differently. *)
Definition won_message (v : Source) : string :=
  match v with
  | GameJs => "You got it! 🎉"
  | Part000 => "You got it! ðŸŽ‰"
  end.

(** [submitGuess] (game.js lines 283-330, part_000 lines 183-218).  The
    test for the word ASDEV is in game.js only. *)
Definition submitGuess (v : Source) (w : World) : Completion :=
  let s := state w in
  if decide (currentCol s < WORD_LENGTH)
  then Returns (setStatus "Not enough letters." w)
  else
    match guesses s !! currentRow s with
    | None => Throws w
    | Some row =>
        let guess := join row in
        if bool_decide (v = GameJs) && bool_decide (guess = "ASDEV")
        then Returns (toggleDeveloperMode w)
        else if negb (isValidGuess guess)
        then Returns (setStatus "Word is not in the list." w)
        else
          let scored := scoreGuess guess (answer s) in
          let s1 := set_evaluations
                      (js_set [] (currentRow s) scored (evaluations s)) s in
          let s2 := set_keyStates
                      (updateKeyboardStates (spread guess) scored
                         (keyStates s1)) s1 in
          if decide (guess = answer s2)
          then Returns {| state := set_status Won s2;
                          statusText := won_message v |}
          else
            let s3 := set_currentCol 0
                        (set_currentRow (currentRow s2 + 1) s2) in
            if decide (MAX_ROWS ≤ currentRow s3)
            then Returns {| state := set_status Lost s3;
                            statusText := "Game over. The word was "
                                          +:+ toUpperCase (answer s3)
                                          +:+ "." |}
            else Returns {| state := s3; statusText := "" |}
    end.

(** [/^[a-z]$/i.test(key)]: one character, a letter of A-Z or a-z. *)
Definition is_letter_key (key : string) : bool :=
  match key with
  | String c EmptyString =>
      let n := nat_of_ascii c in
      in_range 65 90 n || in_range 97 122 n
  | _ => false
  end.

(** [handleKeyInput] (game.js lines 153-184, part_000 lines 111-137). *)
Definition handleKeyInput (v : Source) (key : string) (w : World)
  : Completion :=
  let s := state w in
  if decide (status s ≠ Active) then Returns w
  else if is_letter_key key then
    if decide (currentCol s < WORD_LENGTH) then
      match guesses s !! currentRow s with
      | None => Throws w
      | Some row =>
          let row' := js_set EmptyString (currentCol s) (toUpperCase key) row in
          let s1 := set_guesses (<[currentRow s := row']> (guesses s)) s in
          Returns {| state := set_currentCol (currentCol s1 + 1) s1;
                     statusText := statusText w |}
      end
    else Returns w
  else if decide (toLowerCase key = "backspace") then
    if decide (0 < currentCol s) then
      let s1 := set_currentCol (currentCol s - 1) s in
      match guesses s1 !! currentRow s1 with
      | None => Throws {| state := s1; statusText := statusText w |}
      | Some row =>
          let row' := js_set EmptyString (currentCol s1) EmptyString row in
          Returns {| state := set_guesses
                                (<[currentRow s1 := row']> (guesses s1)) s1;
                     statusText := statusText w |}
      end
    else Returns w
  else if decide (toLowerCase key = "enter") then submitGuess v w
  else Returns w.

(** A sequence of key events, each handled to completion before the next;
    an error that escapes a handler leaves the state as it was then. *)
Definition run (v : Source) (keys : list string) (w : World) : World :=
  foldl (λ w key, world_of (handleKeyInput v key w)) w keys.
End WordSource.

(** The shape the data model gives the grid: six rows of guesses and of
    evaluations, and a current row inside the grid while the game is on. *)
Definition grid_shape (s : GameState) : Prop :=
  length (guesses s) = MAX_ROWS ∧ length (evaluations s) = MAX_ROWS
  ∧ (status s = Active → currentRow s < MAX_ROWS).

(** The word a submit would consider: the current row, joined. *)
Definition candidate (s : GameState) : option string :=
  join <$> guesses s !! currentRow s.

(** [startNewGame] (game.js lines 390-419), once a word has been chosen:
    a new state, which keeps the developer mode.  (part_000 lines 273-277:
    the new state, whose flag the variant never reads.) *)
Definition startNewGame (selectedAnswer : string) (message : string)
    (w : World) : World :=
  {| state := set_developerMode (developerMode (state w))
                (createNewState selectedAnswer);
     statusText := message |}.

(** The worlds a play can be in: that of a new game, and those that key
    events, new-game requests and changes of the status message (a new-game
    request that is cancelled) make of them.  A state restored from storage
    is one that an earlier play saved. *)
Inductive reachable (isValidGuess : string → bool) (v : Source)
  : World → Prop :=
| reach_created (word message : string) :
    reachable isValidGuess v
      {| state := createNewState word; statusText := message |}
| reach_key (key : string) (w : World) :
    reachable isValidGuess v w →
    reachable isValidGuess v (world_of (handleKeyInput isValidGuess v key w))
| reach_new_game (word message : string) (w : World) :
    reachable isValidGuess v w →
    reachable isValidGuess v (startNewGame word message w)
| reach_status (message : string) (w : World) :
    reachable isValidGuess v w →
    reachable isValidGuess v (setStatus message w).

(** A submit that the specification counts as a recoverable user error: the
    row is not full, or the joined row fails the validity check. *)
Definition user_error (isValidGuess : string → bool) (s : GameState) : Prop :=
  currentCol s < WORD_LENGTH
  ∨ ∃ word, candidate s = Some word ∧ isValidGuess word = false.

(** A small word source, for the examples. *)
Definition sample_isValidGuess (word : string) : bool :=
  bool_decide (word ∈ ["CRANE"; "TRACE"; "SPEED"; "ERASE"; "SLATE"]).

(** A word source that accepts every word. *)
Definition every_word (word : string) : bool := true.

(** The world after the keys a, s, d, e, v in a new game of answer CRANE. *)
Definition asdev_typed : World :=
  run sample_isValidGuess GameJs ["a"; "s"; "d"; "e"; "v"]
    {| state := createNewState "CRANE"; statusText := "" |}.

(** The world after s, l, a, t, e in a new game of answer CRANE. *)
Definition slate_typed : World :=
  run sample_isValidGuess GameJs ["s"; "l"; "a"; "t"; "e"]
    {| state := createNewState "CRANE"; statusText := "" |}.

(** The world after c, r, a, n, e, enter in a new game of answer CRANE. *)
Definition crane_won : World :=
  run sample_isValidGuess GameJs ["c"; "r"; "a"; "n"; "e"; "enter"]
    {| state := createNewState "CRANE"; statusText := "" |}.

(** ** Persistence (game.js lines 342-384 and 421-437; part_000 lines
    230-271 and 279-295) *)

(** What [getLocalDayKey] reads from a [Date]: [getFullYear()], [getMonth()]
    (0 to 11) and [getDate()] (1 to 31). *)
Record LocalDate : Type := mkDate {
  fullYear : Z;
  monthIndex : nat;
  dayOfMonth : nat
}.

Definition valid_date (d : LocalDate) : Prop :=
  monthIndex d < 12 ∧ 1 ≤ dayOfMonth d ≤ 31.

(** [s.padStart(2, '0')]. *)
Definition padStart2 (s : string) : string :=
  match String.length s with
  | 0 => "00"
  | 1 => "0" +:+ s
  | _ => s
  end.

(** [getLocalDayKey(date)]: the year in decimal, the month and the day on
    two digits. *)
Definition getLocalDayKey (date : LocalDate) : string :=
  let year := pretty (fullYear date) in
  let month := padStart2 (pretty (monthIndex date + 1)) in
  let day := padStart2 (pretty (dayOfMonth date)) in
  year +:+ "-" +:+ month +:+ "-" +:+ day.

Module Persistence.
Section Json.
(** The numbers of JSON are kept abstract: the code at hand only tests one
    for truthiness (false for zero). *)
Variable Number : Type.
Variable number_truthy : Number → bool.

(** The values [JSON.parse] can return.  An object is the list of its
    properties. *)
#[warnings="-register-all"] Inductive JsValue : Type :=
| JNull
| JBool (b : bool)
| JNumber (n : Number)
| JString (s : string)
| JArray (items : list JsValue)
| JObject (props : list (string * JsValue)).

(** [JSON.parse]; [None] when it throws a [SyntaxError]. *)
Variable JSON_parse : string → option JsValue.

(** Truthiness of a value read from a property ([None] is [undefined]). *)
Definition truthy (v : option JsValue) : bool :=
  match v with
  | None | Some JNull => false
  | Some (JBool b) => b
  | Some (JNumber n) => number_truthy n
  | Some (JString s) => negb (bool_decide (s = EmptyString))
  | Some (JArray _) | Some (JObject _) => true
  end.

Fixpoint assoc (name : string) (props : list (string * JsValue))
  : option JsValue :=
  match props with
  | [] => None
  | (k, v) :: rest => if decide (k = name) then Some v else assoc name rest
  end.

(** [v.name] for a value [v] other than [null] and one of the names read
    by [loadPersistedState]: an object has the property or not; a boolean,
    a number, a string or an array has none of these names. *)
Definition get_property (name : string) (v : JsValue) : option JsValue :=
  match v with
  | JObject props => assoc name props
  | _ => None
  end.

(** [v === s] for a string [s]. *)
Definition is_string (s : string) (v : option JsValue) : bool :=
  match v with
  | Some (JString t) => bool_decide (t = s)
  | _ => false
  end.

(** The object [loadPersistedState] returns.  The properties are copied
    from the payload unchecked.  (part_000 has no [developerMode].) *)
Record Persisted : Type := mkPersisted {
  answer : option JsValue;
  guesses : option JsValue;
  evaluations : option JsValue;
  currentRow : option JsValue;
  currentCol : option JsValue;
  status : option JsValue;
  keyStates : JsValue;
  developerMode : bool
}.

(** [loadPersistedState()], given the item stored under the storage key
    ([None] when there is none) and the date of the day. *)
Definition loadPersistedState (raw : option string) (now : LocalDate)
  : option Persisted :=
  match raw with
  | None | Some EmptyString => None
  | Some text =>
      match JSON_parse text with
      | None => None
      | Some JNull => None
      | Some parsed =>
          let todayKey := getLocalDayKey now in
          if negb (is_string todayKey (get_property "dayKey" parsed))
             || negb (truthy (get_property "answer" parsed))
          then None
          else Some {|
            answer := get_property "answer" parsed;
            guesses := get_property "guesses" parsed;
            evaluations := get_property "evaluations" parsed;
            currentRow := get_property "currentRow" parsed;
            currentCol := get_property "currentCol" parsed;
            status := get_property "status" parsed;
            keyStates :=
              (if truthy (get_property "keyStates" parsed)
               then default (JObject []) (get_property "keyStates" parsed)
               else JObject []);
            developerMode := truthy (get_property "developerMode" parsed)
          |}
      end
  end.

(** How [init] leaves the game: with the restored object as [state], or
    with the state created when the module was loaded. *)
Inductive Started : Type :=
| Restored (persisted : Persisted) (message : string)
| Fresh (w : World).

(** [init()], as far as the state goes; [created] is the state that
    [let state = createNewState()] made. *)
Definition init (raw : option string) (now : LocalDate)
    (created : GameState) : Started :=
  match loadPersistedState raw now with
  | Some persisted =>
      Restored persisted
        (if is_string "active" (status persisted)
         then "Restored your game." else "Restored completed game.")
  | None =>
      Fresh {| state := created;
               statusText := "Guess the Wordle in 6 tries." |}
  end.

(** The [dayKey] and the [answer] of a stored payload, as the specification
    speaks of them: what the parsed payload holds under these names, nothing
    when the payload does not parse or is not an object. *)
Definition payload_dayKey (text : string) : option JsValue :=
  JSON_parse text ≫= get_property "dayKey".
Definition payload_answer (text : string) : option JsValue :=
  JSON_parse text ≫= get_property "answer".
End Json.
End Persistence.

Arguments Persistence.JNull {Number}.
Arguments Persistence.JBool {Number} b.
Arguments Persistence.JNumber {Number} n.
Arguments Persistence.JString {Number} s.
Arguments Persistence.JArray {Number} items.
Arguments Persistence.JObject {Number} props.
Arguments Persistence.Fresh {Number} w.
Arguments Persistence.Restored {Number} persisted message.
Arguments Persistence.truthy {Number} number_truthy v.
Arguments Persistence.get_property {Number} name v.
Arguments Persistence.is_string {Number} s v.
Arguments Persistence.loadPersistedState {Number} number_truthy JSON_parse raw now.
Arguments Persistence.init {Number} number_truthy JSON_parse raw now created.
Arguments Persistence.payload_dayKey {Number} JSON_parse text.
Arguments Persistence.payload_answer {Number} JSON_parse text.

(** A stand-in for [JSON.parse], for the examples: it knows the text [null]
    and one payload, saved on 2025-03-09, and rejects every other text. *)
Definition quote : string := String (ascii_of_nat 34) EmptyString.

Definition sample_payload : string :=
  "{" +:+ quote +:+ "answer" +:+ quote +:+ ":" +:+ quote +:+ "CRANE" +:+ quote
  +:+ "," +:+ quote +:+ "dayKey" +:+ quote +:+ ":" +:+ quote +:+ "2025-03-09"
  +:+ quote +:+ "}".

Definition sample_parse (text : string) : option (Persistence.JsValue Z) :=
  if decide (text = "null") then Some Persistence.JNull
  else if decide (text = sample_payload)
  then Some (Persistence.JObject
               [("answer", Persistence.JString "CRANE");
                ("dayKey", Persistence.JString "2025-03-09")])
  else None.

Definition sample_truthy (z : Z) : bool := negb (Z.eqb z 0).

(** Reading back the two digits that [padStart2] writes for a month or a
    day. *)
Definition two_digits (s : string) : option nat :=
  match s with
  | String a (String b EmptyString) =>
      Some (10 * (nat_of_ascii a - 48) + (nat_of_ascii b - 48))
  | _ => None
  end.

(** The decimal digit of a number below 10, and numbers written on two and
    on four decimal digits. *)
Definition digit (n : nat) : ascii := ascii_of_nat (48 + n).

Definition two_digit (n : nat) : string :=
  String (digit (n / 10)) (String (digit (n mod 10)) EmptyString).

Definition four_digit (n : nat) : string :=
  String (digit (n / 1000))
    (String (digit (n / 100 mod 10)) (two_digit (n mod 100))).

(** ** Notions used in the proofs *)

(** [counts_rel letters rc m]: the object [rc] has exactly the letters of
    [letters] as keys, and holds at each the multiplicity in [m]. *)
Definition counts_rel (letters : list ascii) (rc : gmap string Num)
    (m : gmultiset ascii) : Prop :=
  ∀ c, (c ∈ letters → rc !! prop_key (Some c) = Some (Int (Z.of_nat (multiplicity c m))))
     ∧ (c ∉ letters → rc !! prop_key (Some c) = None ∧ multiplicity c m = 0).

(** The evaluation pass 1 leaves at a position, by its mark. *)
Definition mark_eval (b : bool) : LetterEval := if b then Correct else Absent.

(** [marked_by L gs ms b]: the positions of [L] whose pass-1 mark is [b]. *)
Fixpoint marked_by (L : ascii) (gs : list ascii) (ms : list bool) (b : bool)
  : nat :=
  match gs, ms with
  | g :: gs', b' :: ms' =>
      (if decide (g = L) then (if decide (b' = b) then 1 else 0) else 0)
      + marked_by L gs' ms' b
  | _, _ => 0
  end.

(** How the hint of one letter may move: not at all, from no hint to some
    hint, or to a hint of strictly higher rank. *)
Definition moves_up (before after : option LetterEval) : Prop :=
  after = before ∨ before = None ∨ (is_Some after ∧ rank before < rank after).

(** What one key event may do to the grid: it keeps the shape, never moves
    the current row back, and leaves the rows before the current one as they
    are. *)
Definition step_ok (s s' : GameState) : Prop :=
  grid_shape s' ∧ currentRow s ≤ currentRow s'
  ∧ ∀ r, r < currentRow s →
      guesses s' !! r = guesses s !! r
      ∧ evaluations s' !! r = evaluations s !! r.

(** ** Notions for the further properties *)

(** The pairs that one call of [updateKeyboardStates] goes through: the
    letter at each index, lowercased, with the evaluation at the same index,
    for the indices that both arrays have. *)
Definition hint_pairs (guessLetters : list string)
    (scoredStates : list LetterEval) : list (string * LetterEval) :=
  zip (toLowerCase <$> guessLetters) scoredStates.

(** What the callback of [updateKeyboardStates] does with one such pair. *)
Definition hint_step (keyStates : gmap string LetterEval)
    (p : string * LetterEval) : gmap string LetterEval :=
  match keyStates !! p.1 with
  | None => <[p.1 := p.2]> keyStates
  | Some currentState =>
      if priority_gt (statePriority p.2) (statePriority currentState)
      then <[p.1 := p.2]> keyStates
      else keyStates
  end.

(** The highest rank among the evaluations that the pairs give to key [k]
    (0 when they give none). *)
Fixpoint best_rank (k : string) (pairs : list (string * LetterEval)) : nat :=
  match pairs with
  | [] => 0
  | p :: rest =>
      if decide (p.1 = k) then rank (Some p.2) `max` best_rank k rest
      else best_rank k rest
  end.

(** The hint of a given rank. *)
Definition hint_of_rank (n : nat) : option LetterEval :=
  match n with
  | 0 => None
  | 1 => Some Absent
  | 2 => Some Present
  | _ => Some Correct
  end.

(** A pair is settled in a hint map when the callback would leave the map as
    it is: the key has a hint that the evaluation does not beat. *)
Definition settled (keyStates : gmap string LetterEval)
    (p : string * LetterEval) : Prop :=
  ∃ cur, keyStates !! p.1 = Some cur
         ∧ priority_gt (statePriority p.2) (statePriority cur) = false.

(** [onPhysicalKeydown] (game.js lines 332-339, part_000 lines 220-227), on
    [event.key]: a letter, [Enter] or [Backspace] is handed on in lower
    case, any other key is left to the browser. *)
Definition onPhysicalKeydown (isValidGuess : string → bool) (v : Source)
    (key : string) (w : World) : Completion :=
  if is_letter_key key || bool_decide (key = "Enter")
     || bool_decide (key = "Backspace")
  then handleKeyInput isValidGuess v (toLowerCase key) w
  else Returns w.

(** A cell that holds one letter of A-Z. *)
Definition upper_letter_cell (cell : string) : bool :=
  match cell with
  | String c EmptyString => in_range 65 90 (nat_of_ascii c)
  | _ => false
  end.

(** A row of five cells of which the first [n] hold a letter and the others
    are empty strings. *)
Definition typed_row (n : nat) (row : list string) : Prop :=
  length row = WORD_LENGTH
  ∧ ∀ i cell, row !! i = Some cell →
      if decide (i < n) then upper_letter_cell cell = true
      else cell = EmptyString.

(** How many rows have been scored: those before the current one, and the
    current one too once the game is won. *)
Definition evaluated (s : GameState) : nat :=
  match status s with
  | Won => currentRow s + 1
  | Active | Lost => currentRow s
  end.

(** The hints that the scored rows give, aggregated from no hints in the
    order of the rows. *)
Definition hints_of_rows (word : string) (rows : list (list string))
  : gmap string LetterEval :=
  update_all ((λ row, (spread (join row), scoreGuess (join row) word)) <$> rows)
    ∅.

(** The picture of a game in progress that the handlers keep. *)
Definition well_formed (isValidGuess : string → bool) (v : Source)
    (s : GameState) : Prop :=
  length (guesses s) = MAX_ROWS ∧ length (evaluations s) = MAX_ROWS
  ∧ currentCol s ≤ WORD_LENGTH
  ∧ (status s = Active → currentRow s < MAX_ROWS)
  ∧ (status s = Won → currentRow s < MAX_ROWS ∧ currentCol s = WORD_LENGTH)
  ∧ (status s = Lost → currentRow s = MAX_ROWS ∧ currentCol s = 0)
  ∧ (∀ r row, guesses s !! r = Some row →
       if decide (r < evaluated s)
       then typed_row WORD_LENGTH row
            ∧ isValidGuess (join row) = true
            ∧ (v = GameJs → join row ≠ "ASDEV")
            ∧ evaluations s !! r = Some (scoreGuess (join row) (answer s))
            ∧ (join row = answer s ↔ status s = Won ∧ r = currentRow s)
       else evaluations s !! r = Some (replicate WORD_LENGTH Empty)
            ∧ typed_row (if decide (r = currentRow s) then currentCol s else 0)
                row)
  ∧ keyStates s = hints_of_rows (answer s) (take (evaluated s) (guesses s)).

(** The keys that enter a word: its letters, then enter. *)
Definition keys_of_word (word : string) : list string :=
  spread word ++ ["enter"].


(** The letters of the evaluated rows with their evaluations, in the order
    they were scored. *)
Definition played_pairs (s : GameState) : list (string * LetterEval) :=
  mjoin ((λ row, hint_pairs (spread (join row))
                   (scoreGuess (join row) (answer s)))
         <$> take (evaluated s) (guesses s)).

(** A word all of whose characters are letter keys. *)
Definition letters_only (word : string) : Prop :=
  Forall (λ key, is_letter_key key = true) (spread word).

(** The world after s, l, a, t, e, enter, c, r in a new game of answer
    CRANE. *)
Definition slate_then_cr : World :=
  run sample_isValidGuess GameJs ["s"; "l"; "a"; "t"; "e"; "enter"; "c"; "r"]
    {| state := createNewState "CRANE"; statusText := "" |}.

(** The keys of several words, each followed by Enter. *)
Definition keys_of_words (words : list string) : list string :=
  mjoin (keys_of_word <$> words).

(** A word that can be played and is scored: five letters, accepted by the
    Word Source, and not the developer command of game.js. *)
Definition playable (isValidGuess : string → bool) (v : Source)
    (word : string) : Prop :=
  String.length word = WORD_LENGTH ∧ letters_only word
  ∧ isValidGuess (toUpperCase word) = true
  ∧ (v = GameJs → toUpperCase word ≠ "ASDEV").

(** ** Saving (game.js lines 349-355) *)

#[global] Instance LocalDate_eq_dec : EqDecision LocalDate.
Proof. solve_decision. Defined.

(** The strings that stand for an evaluation and for a status in the
    source. *)
Definition eval_name (e : LetterEval) : string :=
  match e with
  | Empty => "empty"
  | Absent => "absent"
  | Present => "present"
  | Correct => "correct"
  end.

Definition status_name (st : Status) : string :=
  match st with
  | Active => "active"
  | Won => "won"
  | Lost => "lost"
  end.

Section Saving.
Context {Number : Type}.

(** The JSON number of a row or column index. *)
Variable number_of_nat : nat → Number.

Definition json_guesses (rows : list (list string))
  : Persistence.JsValue Number :=
  Persistence.JArray
    ((λ row, Persistence.JArray (Persistence.JString <$> row)) <$> rows).

Definition json_evaluations (rows : list (list LetterEval))
  : Persistence.JsValue Number :=
  Persistence.JArray
    ((λ row, Persistence.JArray
               ((λ e, Persistence.JString (eval_name e)) <$> row)) <$> rows).

(** The object of hints; nothing that is read back depends on the order of
    its properties. *)
Definition json_keyStates (hints : gmap string LetterEval)
  : Persistence.JsValue Number :=
  Persistence.JObject
    ((λ p, (p.1, Persistence.JString (eval_name p.2))) <$> map_to_list hints).

(** The payload of [persistState], [{...state, dayKey: getLocalDayKey()}],
    as the value that [JSON.stringify] writes out: the properties of the
    state in the order [createNewState] gives them, then the day key. *)
Definition payload (s : GameState) (today : LocalDate)
  : Persistence.JsValue Number :=
  Persistence.JObject
    [("answer", Persistence.JString (answer s));
     ("guesses", json_guesses (guesses s));
     ("evaluations", json_evaluations (evaluations s));
     ("currentRow", Persistence.JNumber (number_of_nat (currentRow s)));
     ("currentCol", Persistence.JNumber (number_of_nat (currentCol s)));
     ("status", Persistence.JString (status_name (status s)));
     ("keyStates", json_keyStates (keyStates s));
     ("developerMode", Persistence.JBool (developerMode s));
     ("dayKey", Persistence.JString (getLocalDayKey today))].

(** The object [loadPersistedState] makes of that payload. *)
Definition restored (s : GameState) : Persistence.Persisted Number :=
  {| Persistence.answer := Some (Persistence.JString (answer s));
     Persistence.guesses := Some (json_guesses (guesses s));
     Persistence.evaluations := Some (json_evaluations (evaluations s));
     Persistence.currentRow :=
       Some (Persistence.JNumber (number_of_nat (currentRow s)));
     Persistence.currentCol :=
       Some (Persistence.JNumber (number_of_nat (currentCol s)));
     Persistence.status :=
       Some (Persistence.JString (status_name (status s)));
     Persistence.keyStates := json_keyStates (keyStates s);
     Persistence.developerMode := developerMode s |}.
End Saving.

(** A stand-in for [JSON.parse], for the example: it knows one text, which
    it reads as the payload of the won game of answer CRANE saved on
    2025-03-09, and rejects every other text. *)
Definition sample_saved_parse (text : string)
  : option (Persistence.JsValue Z) :=
  if decide (text = "saved game")
  then Some (payload Z.of_nat (state crane_won) (mkDate 2025 2 9))
  else None.

(** ** Rendering (game.js lines 100-127, part_000 lines 79-105) *)

(** [tile.dataset.state], as [render] sets it for a cell that holds
    [letter] and has the evaluation [evalState]. *)
Definition tile_state (letter : string) (evalState : LetterEval) : string :=
  if decide (evalState = Empty)
  then if decide (letter = EmptyString) then "empty" else "filled"
  else eval_name evalState.

(** [keyEl.dataset.state]: [keyState || '']. *)
Definition key_state (keyState : option LetterEval) : string :=
  match keyState with
  | Some e => eval_name e
  | None => EmptyString
  end.

(* ===================================================================== *)
(** * Proofs *)
(* ===================================================================== *)

Example scoreGuess_speed_erase :
  scoreGuess "SPEED" "ERASE" = [Present; Absent; Present; Present; Absent].
Proof. vm_compute. reflexivity. Qed.

(** ** Strings as character lists *)

Lemma get_lookup (s : string) (i : nat) :
  String.get i s = list_ascii_of_string s !! i.
Proof.
  revert i. induction s as [|c s IH]; intros [|i]; simpl; auto.
Qed.

Lemma length_list_ascii (s : string) :
  length (list_ascii_of_string s) = String.length s.
Proof. induction s; simpl; congruence. Qed.

Lemma prop_key_inj (c d : ascii) :
  prop_key (Some c) = prop_key (Some d) → c = d.
Proof. unfold prop_key. congruence. Qed.

(** ** The object of counts against the multiset of counts *)

Lemma counts_rel_decrement letters rc m c :
  counts_rel letters rc m → c ∈ letters → 0 < multiplicity c m →
  counts_rel letters (decrement (prop_key (Some c)) rc) (m ∖ {[+ c +]}).
Proof.
  intros Hrel Hc Hpos d. unfold decrement.
  destruct (Hrel d) as [Hin Hout], (Hrel c) as [Hcin _].
  rewrite multiplicity_difference, multiplicity_singleton.
  destruct (decide (d = c)) as [->|Hne].
  - rewrite lookup_insert_eq. split; [intros _ | tauto].
    rewrite Hcin by done. simpl. do 2 f_equal. lia.
  - rewrite lookup_insert_ne by (intros E; apply prop_key_inj in E; congruence).
    rewrite Nat.sub_0_r. tauto.
Qed.

Lemma getLetterCounts_fold (l pre : list ascii) (acc : gmap string Num) :
  counts_rel pre acc (list_to_set_disj pre) →
  counts_rel (pre ++ l)
    (foldl (λ acc letter,
              <[prop_key (Some letter) :=
                  num_add1 (or_zero (acc !! prop_key (Some letter)))]> acc)
           acc l)
    (list_to_set_disj (pre ++ l)).
Proof.
  revert pre acc. induction l as [|x l IH]; intros pre acc Hrel.
  - by rewrite app_nil_r.
  - cbn [foldl]. replace (pre ++ x :: l) with ((pre ++ [x]) ++ l)
      by (by rewrite <- app_assoc).
    apply IH. intros d. destruct (Hrel d) as [Hin Hout], (Hrel x) as [Hxin Hxout].
    rewrite list_to_set_disj_app, multiplicity_disj_union, list_to_set_disj_cons,
      list_to_set_disj_nil, multiplicity_disj_union, multiplicity_singleton,
      multiplicity_empty, elem_of_app, list_elem_of_singleton.
    destruct (decide (d = x)) as [->|Hne].
    + rewrite lookup_insert_eq. split; [intros _ | tauto].
      destruct (decide (x ∈ pre)) as [Hx|Hx].
      * rewrite Hxin by done. simpl. case_decide; simpl; do 2 f_equal; lia.
      * destruct (Hxout Hx) as [-> ->]. simpl. done.
    + rewrite lookup_insert_ne by (intros E; apply prop_key_inj in E; congruence).
      rewrite !Nat.add_0_r. split; [intros [?|?]; [auto | done] | intros ?; apply Hout; tauto].
Qed.

Lemma getLetterCounts_rel (answer : string) :
  counts_rel (list_ascii_of_string answer) (getLetterCounts answer)
    (list_to_set_disj (list_ascii_of_string answer)).
Proof.
  apply (getLetterCounts_fold (list_ascii_of_string answer) [] ∅).
  intros c. rewrite list_to_set_disj_nil, multiplicity_empty, lookup_empty.
  split; [by intros ?%elem_of_nil | done].
Qed.

(** ** The loops of [scoreGuess] against the two passes of the scheme *)

Lemma drop_cons_inv {A} (l l' : list A) (x : A) (k : nat) :
  drop k l = x :: l' → l !! k = Some x ∧ drop (S k) l = l'.
Proof.
  intros H. assert (l !! k = Some x) as Hk.
  { rewrite <- (Nat.add_0_r k), <- lookup_drop, H. done. }
  split; [done|]. rewrite (drop_S _ _ _ Hk) in H. congruence.
Qed.

Lemma sub_cons_inv (x : ascii) (l : list ascii) (m : gmultiset ascii) :
  list_to_set_disj (x :: l) ⊆ m →
  0 < multiplicity x m ∧ list_to_set_disj l ⊆ m
  ∧ list_to_set_disj l ⊆ m ∖ {[+ x +]}.
Proof. rewrite list_to_set_disj_cons. multiset_solver. Qed.

Section ScoreLoops.
Variables guess answer : string.
Let G := list_ascii_of_string guess.
Let A := list_ascii_of_string answer.

Lemma pass1_body_at (k : nat) (x y : ascii) (st : ScoreState) :
  G !! k = Some x → A !! k = Some y →
  pass1_body guess answer st k
  = if decide (x = y)
    then (<[k:=Correct]> st.1, decrement (prop_key (Some x)) st.2)
    else st.
Proof.
  intros HG HA. unfold pass1_body. rewrite !get_lookup. fold G A.
  rewrite HG, HA. destruct (decide (x = y)) as [->|Hne].
  - by rewrite decide_True.
  - rewrite decide_False; [done | congruence].
Qed.

Lemma pass1_loop (gs ans : list ascii) :
  ∀ (k : nat) (res : list LetterEval) (rc : gmap string Num)
    (m : gmultiset ascii),
    drop k G = gs → drop k A = ans → length gs = length ans →
    drop k res = replicate (length gs) Absent →
    counts_rel A rc m → list_to_set_disj ans ⊆ m →
    let r := foldl (pass1_body guess answer) (res, rc) (seq k (length gs)) in
    r.1 = take k res ++ (mark_eval <$> (spec_pass1 gs ans m).1)
    ∧ counts_rel A r.2 (spec_pass1 gs ans m).2.
Proof.
  revert ans. induction gs as [|x gs' IH]; intros ans k res rc m HG HA Hlen Hres Hrel Hsub.
  - destruct ans; [|done]. simpl. split; [|done].
    rewrite app_nil_r. rewrite <- (take_drop k res) at 1. simpl in Hres.
    by rewrite Hres, app_nil_r.
  - destruct ans as [|y ans']; [done|].
    apply drop_cons_inv in HG as [HGk HG], HA as [HAk HA].
    simpl in Hres. apply drop_cons_inv in Hres as [Hresk Hres].
    assert (k < length res) as Hklt by (apply lookup_lt_is_Some; eauto).
    cbn [length seq foldl spec_pass1].
    rewrite (pass1_body_at k x y) by done.
    apply sub_cons_inv in Hsub as (Hpos & Hsub & Hsub').
    destruct (decide (x = y)) as [<-|Hne]; cbn [fst snd].
    + edestruct (IH ans' (S k) (<[k:=Correct]> res)
                   (decrement (prop_key (Some x)) rc) (m ∖ {[+ x +]}))
        as [E1 E2]; try done.
      * simpl in Hlen. lia.
      * by rewrite drop_insert_lt by lia.
      * apply counts_rel_decrement; [done| |done].
        apply list_elem_of_lookup. eauto.
      * split; [|done]. rewrite E1.
        rewrite (take_S_r _ _ Correct) by (by apply list_lookup_insert_eq).
        rewrite take_insert_ge by lia. by rewrite <- app_assoc.
    + edestruct (IH ans' (S k) res rc m) as [E1 E2]; try done.
      * simpl in Hlen. lia.
      * split; [|done]. rewrite E1.
        rewrite (take_S_r _ _ Absent) by done. by rewrite <- app_assoc.
Qed.

Lemma pass2_loop (gs : list ascii) :
  ∀ (ms : list bool) (k : nat) (res : list LetterEval)
    (rc : gmap string Num) (m : gmultiset ascii),
    drop k G = gs → drop k res = mark_eval <$> ms → length ms = length gs →
    counts_rel A rc m →
    (foldl (pass2_body guess) (res, rc) (seq k (length gs))).1
    = take k res ++ spec_pass2 gs ms m.
Proof.
  induction gs as [|x gs' IH]; intros ms k res rc m HG Hres Hlen Hrel.
  - destruct ms; [|done]. simpl in *.
    rewrite app_nil_r. rewrite <- (take_drop k res) at 1.
    by rewrite Hres, app_nil_r.
  - destruct ms as [|b ms']; [done|].
    apply drop_cons_inv in HG as [HGk HG].
    rewrite fmap_cons in Hres. apply drop_cons_inv in Hres as [Hresk Hres].
    assert (k < length res) as Hklt by (apply lookup_lt_is_Some; eauto).
    cbn [length seq foldl]. unfold pass2_body at 2. cbn [fst snd].
    rewrite Hresk, get_lookup. fold G. rewrite HGk.
    destruct b; cbn [mark_eval spec_pass2].
    + rewrite decide_True by done.
      rewrite (IH ms' (S k) res rc m) by (simpl in Hlen; done || lia).
      rewrite (take_S_r _ _ Correct) by done. by rewrite <- app_assoc.
    + rewrite decide_False by done.
      destruct (Hrel x) as [Hin Hout].
      destruct (decide (0 < multiplicity x m)) as [Hpos|Hzero].
      * assert (x ∈ A) as HxA.
        { destruct (decide (x ∈ A)) as [|Hn]; [done|].
          destruct (Hout Hn) as [_ ?]. lia. }
        rewrite (Hin HxA). cbn [gt_zero].
        rewrite bool_decide_eq_true_2 by lia.
        rewrite (IH ms' (S k) (<[k:=Present]> res)
                   (decrement (prop_key (Some x)) rc) (m ∖ {[+ x +]})).
        -- rewrite (take_S_r _ _ Present) by (by apply list_lookup_insert_eq).
           rewrite take_insert_ge by lia. by rewrite <- app_assoc.
        -- done.
        -- by rewrite drop_insert_lt by lia.
        -- simpl in Hlen. lia.
        -- by apply counts_rel_decrement.
      * assert (gt_zero (rc !! prop_key (Some x)) = false) as ->.
        { destruct (decide (x ∈ A)) as [Hy|Hn].
          - rewrite (Hin Hy). cbn [gt_zero].
            apply bool_decide_eq_false_2. lia.
          - by destruct (Hout Hn) as [-> _]. }
        rewrite (IH ms' (S k) res rc m) by (simpl in Hlen; done || lia).
        rewrite (take_S_r _ _ Absent) by done. by rewrite <- app_assoc.
Qed.

Lemma spec_pass1_length (gs ans : list ascii) (m : gmultiset ascii) :
  length gs = length ans → length (spec_pass1 gs ans m).1 = length gs.
Proof.
  revert ans m. induction gs as [|x gs' IH]; intros [|y ans'] m Hlen;
    try done.
  simpl in *. case_decide; simpl; rewrite IH; lia.
Qed.

(** The code computes the scheme of the specification. *)
Lemma scoreGuess_two_pass :
  String.length guess = WORD_LENGTH → String.length answer = WORD_LENGTH →
  scoreGuess guess answer = two_pass_score guess answer.
Proof.
  intros Hg Ha. unfold scoreGuess, two_pass_score. fold G A.
  assert (length G = WORD_LENGTH) as HlG by (unfold G; by rewrite length_list_ascii).
  assert (length A = WORD_LENGTH) as HlA by (unfold A; by rewrite length_list_ascii).
  pose proof (pass1_loop G A 0 (replicate WORD_LENGTH Absent)
                (getLetterCounts answer) (list_to_set_disj A)) as H1.
  rewrite HlG in H1.
  destruct H1 as [E1 E2]; try done; [apply getLetterCounts_rel|].
  destruct (foldl (pass1_body guess answer) _ _) as [res1 rc1].
  cbn [fst snd] in *. rewrite take_0, app_nil_l in E1.
  pose proof (pass2_loop G (spec_pass1 G A (list_to_set_disj A)).1 0 res1 rc1
                (spec_pass1 G A (list_to_set_disj A)).2) as H2.
  rewrite HlG in H2. rewrite H2; try done.
  rewrite spec_pass1_length; congruence.
Qed.
End ScoreLoops.

(** ** Properties of the scheme *)

Section Scheme.
Implicit Types (gs ans : list ascii) (ms : list bool) (m : gmultiset ascii).
#[local] Arguments Nat.min : simpl never.

Lemma spec_pass2_length gs ms m :
  length ms = length gs → length (spec_pass2 gs ms m) = length gs.
Proof.
  revert ms m. induction gs as [|x gs' IH]; intros [|[] ms'] m Hlen;
    try done; simpl in *; [|case_decide; simpl]; rewrite IH; lia.
Qed.

Lemma spec_pass2_scored gs ms m : Forall scored (spec_pass2 gs ms m).
Proof.
  revert ms m. induction gs as [|x gs' IH]; intros [|[] ms'] m; simpl;
    try case_decide; try constructor; unfold scored; auto.
Qed.

(** Pass 1 marks exactly the positional matches. *)
Lemma spec_pass1_lookup gs ans m (i : nat) :
  length gs = length ans → i < length gs →
  (spec_pass1 gs ans m).1 !! i = Some (bool_decide (gs !! i = ans !! i)).
Proof.
  revert ans m i. induction gs as [|x gs' IH]; intros [|y ans'] m i Hlen Hi;
    simpl in *; try lia.
  destruct i as [|i]; simpl.
  - destruct (decide (x = y)) as [->|Hne]; simpl.
    + by rewrite bool_decide_eq_true_2.
    + rewrite bool_decide_eq_false_2; [done | congruence].
  - case_decide; simpl; apply IH; lia.
Qed.

(** Pass 2 keeps the marks of pass 1 and adds no [Correct]. *)
Lemma spec_pass2_correct gs ms m (i : nat) :
  length ms = length gs →
  spec_pass2 gs ms m !! i = Some Correct ↔ ms !! i = Some true.
Proof.
  revert ms m i. induction gs as [|x gs' IH]; intros [|b ms'] m i Hlen;
    simpl in *; try done.
  destruct b, i as [|i]; simpl; try case_decide; simpl;
    rewrite ?IH by lia; intuition congruence.
Qed.

(** A letter whose remaining count is zero is never marked present. *)
Lemma spec_pass2_exhausted gs ms m (L : ascii) (j : nat) :
  multiplicity L m = 0 → gs !! j = Some L →
  spec_pass2 gs ms m !! j ≠ Some Present.
Proof.
  revert ms m j. induction gs as [|x gs' IH]; intros [|b ms'] m j Hm Hj;
    simpl in *; try done.
  destruct b; [destruct j; [done | by apply IH]|].
  destruct (decide (0 < multiplicity x m)) as [Hpos|Hz].
  - destruct j as [|j]; simpl in *; [simplify_eq; lia|].
    apply IH; [|done]. rewrite multiplicity_difference. lia.
  - destruct j as [|j]; simpl in *; [done | by apply IH].
Qed.

(** Among the positions of a letter that pass 1 left unmarked, the present
    ones come first. *)
Lemma spec_pass2_earlier_first gs ms m (L : ascii) (i j : nat) :
  i < j → gs !! i = Some L → gs !! j = Some L → ms !! i = Some false →
  spec_pass2 gs ms m !! j = Some Present →
  spec_pass2 gs ms m !! i = Some Present.
Proof.
  revert ms m i j. induction gs as [|x gs' IH]; intros [|b ms'] m i j Hij Hi Hj Hmi Hp;
    simpl in *; try done.
  destruct j as [|j]; [lia|]. destruct i as [|i]; simpl in *.
  - simplify_eq. destruct (decide (0 < multiplicity L m)) as [|Hz]; [done|].
    simpl in Hp. exfalso. eapply spec_pass2_exhausted; [|exact Hj|exact Hp]. lia.
  - destruct b; [by eapply IH; [| | | |exact Hp]; try done; lia|].
    destruct (decide (0 < multiplicity x m)); simpl in *;
      (eapply IH; [| | | |exact Hp]; try done; lia).
Qed.

Lemma occurrences_multiplicity (L : ascii) (w : list ascii) :
  multiplicity L (list_to_set_disj w) = occurrences L w.
Proof.
  induction w as [|c w IH]; simpl.
  - by rewrite multiplicity_empty.
  - rewrite multiplicity_disj_union, multiplicity_singleton, IH.
    repeat case_decide; congruence.
Qed.

Lemma marked_by_total (L : ascii) gs ms :
  length ms = length gs →
  marked_by L gs ms true + marked_by L gs ms false = occurrences L gs.
Proof.
  revert ms. induction gs as [|x gs' IH]; intros [|b ms'] Hlen; simpl in *;
    try done.
  specialize (IH ms' ltac:(lia)). destruct b; repeat case_decide; try done; lia.
Qed.

(** Every count decremented by pass 1 was positive: the marked positions of
    [L] and what remains of [L] add up to what there was. *)
Lemma spec_pass1_conserves (L : ascii) gs ans m :
  length gs = length ans → list_to_set_disj ans ⊆ m →
  marked_by L gs (spec_pass1 gs ans m).1 true
  + multiplicity L (spec_pass1 gs ans m).2 = multiplicity L m.
Proof.
  revert ans m. induction gs as [|x gs' IH]; intros [|y ans'] m Hlen Hsub;
    simpl in *; try done.
  apply sub_cons_inv in Hsub as (Hpos & Hsub & Hsub').
  destruct (decide (x = y)) as [<-|Hne]; simpl.
  - specialize (IH ans' (m ∖ {[+ x +]}) ltac:(lia) Hsub').
    rewrite multiplicity_difference, multiplicity_singleton in IH.
    destruct (decide (x = L)) as [->|HxL].
    + rewrite decide_True in IH by done. lia.
    + rewrite decide_False in IH by done. lia.
  - specialize (IH ans' m ltac:(lia) Hsub). case_decide; lia.
Qed.

(** Pass 2 marks present as many unmarked positions of [L] as the remaining
    count allows. *)
Lemma spec_pass2_present (L : ascii) gs ms m :
  length ms = length gs →
  count_marked (λ e, bool_decide (e = Present)) L gs (spec_pass2 gs ms m)
  = marked_by L gs ms false `min` multiplicity L m.
Proof.
  revert ms m. induction gs as [|x gs' IH]; intros [|b ms'] m Hlen;
    simpl in *; try done.
  destruct b; simpl.
  - rewrite IH by lia. case_decide; simpl; lia.
  - destruct (decide (0 < multiplicity x m)) as [Hpos|Hz]; simpl.
    + rewrite IH by lia. rewrite multiplicity_difference, multiplicity_singleton.
      destruct (decide (x = L)) as [->|HxL].
      * rewrite decide_True by done. simpl. lia.
      * rewrite decide_False by congruence. simpl. lia.
    + rewrite IH by lia.
      destruct (decide (x = L)) as [->|HxL]; simpl; lia.
Qed.

Lemma spec_pass2_correct_count (L : ascii) gs ms m :
  length ms = length gs →
  count_marked (λ e, bool_decide (e = Correct)) L gs (spec_pass2 gs ms m)
  = marked_by L gs ms true.
Proof.
  revert ms m. induction gs as [|x gs' IH]; intros [|b ms'] m Hlen;
    simpl in *; try done.
  destruct b; simpl; [|case_decide; simpl]; rewrite IH by lia;
    case_decide; simpl; lia.
Qed.

Lemma count_marked_hit (L : ascii) gs (res : list LetterEval) :
  count_marked is_hit L gs res
  = count_marked (λ e, bool_decide (e = Correct)) L gs res
    + count_marked (λ e, bool_decide (e = Present)) L gs res.
Proof.
  revert res. induction gs as [|x gs' IH]; intros [|e res]; simpl; try done.
  rewrite IH. case_decide; [|lia]. destruct e; simpl; lia.
Qed.

Lemma count_marked_split (L : ascii) gs (res : list LetterEval) :
  length res = length gs → Forall scored res →
  count_marked is_hit L gs res + count_marked is_absent L gs res
  = occurrences L gs.
Proof.
  revert res. induction gs as [|x gs' IH]; intros [|e res] Hlen Hsc;
    simpl in *; try done.
  inversion Hsc as [|? ? He Hsc']; subst.
  specialize (IH res ltac:(lia) Hsc').
  case_decide; [|lia]. destruct He as [->|[->| ->]]; simpl; lia.
Qed.
End Scheme.

(** ** The scoring engine: what it guarantees *)

Section ScoreGuess.
Variables guess answer : string.
Hypothesis guess_length : String.length guess = WORD_LENGTH.
Hypothesis answer_length : String.length answer = WORD_LENGTH.

Let G := list_ascii_of_string guess.
Let A := list_ascii_of_string answer.
Let marks := (spec_pass1 G A (list_to_set_disj A)).1.
Let rest := (spec_pass1 G A (list_to_set_disj A)).2.

Local Lemma lengths : length G = WORD_LENGTH ∧ length A = WORD_LENGTH
                      ∧ length marks = WORD_LENGTH.
Proof.
  assert (length G = WORD_LENGTH) by (unfold G; by rewrite length_list_ascii).
  assert (length A = WORD_LENGTH) by (unfold A; by rewrite length_list_ascii).
  repeat split; try done. unfold marks. rewrite spec_pass1_length; congruence.
Qed.

Local Lemma scoreGuess_spec : scoreGuess guess answer = spec_pass2 G marks rest.
Proof. by rewrite scoreGuess_two_pass. Qed.

Lemma scoreGuess_length : length (scoreGuess guess answer) = WORD_LENGTH.
Proof.
  destruct lengths as (HG & HA & Hm).
  rewrite scoreGuess_spec, spec_pass2_length; congruence.
Qed.

Lemma scoreGuess_scored : Forall scored (scoreGuess guess answer).
Proof. rewrite scoreGuess_spec. apply spec_pass2_scored. Qed.

(** A position is marked correct exactly when the two words agree there. *)
Lemma scoreGuess_correct_iff (i : nat) :
  i < WORD_LENGTH →
  scoreGuess guess answer !! i = Some Correct
  ↔ String.get i guess = String.get i answer.
Proof.
  intros Hi. destruct lengths as (HG & HA & Hm).
  rewrite scoreGuess_spec, spec_pass2_correct by congruence.
  unfold marks. rewrite spec_pass1_lookup by congruence.
  rewrite !get_lookup. fold G A. split.
  - intros [= H%bool_decide_eq_true_1]. done.
  - intros H. by rewrite bool_decide_eq_true_2.
Qed.

(** The exact number of positions of a letter marked present or correct. *)
Lemma scoreGuess_hits (L : ascii) :
  count_marked is_hit L G (scoreGuess guess answer)
  = occurrences L G `min` occurrences L A.
Proof.
  destruct lengths as (HG & HA & Hm).
  rewrite scoreGuess_spec, count_marked_hit, spec_pass2_correct_count,
    spec_pass2_present by congruence.
  pose proof (marked_by_total L G marks ltac:(congruence)) as Ht.
  pose proof (spec_pass1_conserves L G A (list_to_set_disj A)
                ltac:(congruence) ltac:(done)) as Hc.
  fold marks rest in Hc. rewrite occurrences_multiplicity in Hc. lia.
Qed.
End ScoreGuess.

(** C1. For every pair of 5-letter strings (so for every pair of 5-letter
    uppercase words), [scoreGuess] returns a sequence of length 5 whose
    elements are correct, present or absent, and that sequence is the one the
    two-pass scheme of the specification computes: counts built from the
    answer, pass 1 marking and decrementing at the positional matches, pass 2
    scanning the other positions left to right and marking present, with a
    decrement, exactly when the remaining count is positive. *)
Theorem scoreGuess_computes_two_pass_scheme (guess answer : string) :
  String.length guess = WORD_LENGTH → String.length answer = WORD_LENGTH →
  length (scoreGuess guess answer) = WORD_LENGTH
  ∧ Forall scored (scoreGuess guess answer)
  ∧ scoreGuess guess answer = two_pass_score guess answer.
Proof.
  intros Hg Ha. split; [by apply scoreGuess_length|].
  split; [by apply scoreGuess_scored | by apply scoreGuess_two_pass].
Qed.

Lemma scoreGuess_computes_two_pass_scheme_witness :
  String.length "SPEED" = WORD_LENGTH ∧ String.length "ERASE" = WORD_LENGTH
  ∧ length (scoreGuess "SPEED" "ERASE") = WORD_LENGTH
  ∧ Forall scored (scoreGuess "SPEED" "ERASE")
  ∧ scoreGuess "SPEED" "ERASE" = two_pass_score "SPEED" "ERASE".
Proof.
  split; [reflexivity|]. split; [reflexivity|].
  apply (scoreGuess_computes_two_pass_scheme "SPEED" "ERASE"); reflexivity.
Defined.

(** C2. For 5-letter words and every letter [L]: the positions of [L] in the
    guess that are marked present or correct are at most as many as the
    occurrences of [L] in the answer; when [L] occurs twice in the guess and
    once in the answer, at most one of the two positions is marked present or
    correct and every other one is absent; a position where guess and answer
    agree is always marked correct (positional matches take the count
    first); and among the positions of [L] that are not positional matches,
    a later one is marked present only if every earlier one is. *)
Theorem scoreGuess_duplicate_letters (guess answer : string) (L : ascii) :
  String.length guess = WORD_LENGTH → String.length answer = WORD_LENGTH →
  let g := list_ascii_of_string guess in
  let a := list_ascii_of_string answer in
  let r := scoreGuess guess answer in
  count_marked is_hit L g r ≤ occurrences L a
  ∧ (occurrences L g = 2 → occurrences L a = 1 →
     count_marked is_hit L g r ≤ 1
     ∧ count_marked is_hit L g r + count_marked is_absent L g r = 2)
  ∧ (∀ i, i < WORD_LENGTH →
       String.get i guess = String.get i answer → r !! i = Some Correct)
  ∧ (∀ i j, i < j →
       String.get i guess = Some L → String.get j guess = Some L →
       String.get i guess ≠ String.get i answer →
       r !! j = Some Present → r !! i = Some Present).
Proof.
  intros Hg Ha g a r.
  assert (length g = WORD_LENGTH) as Hlg by (unfold g; by rewrite length_list_ascii).
  assert (length a = WORD_LENGTH) as Hla by (unfold a; by rewrite length_list_ascii).
  pose proof (scoreGuess_hits guess answer Hg Ha L) as Hhits. fold g a r in Hhits.
  assert (length r = length g) as Hlr
    by (rewrite Hlg; by apply scoreGuess_length).
  pose proof (count_marked_split L g r Hlr
                (scoreGuess_scored guess answer Hg Ha)) as Hsplit.
  split; [lia|]. split; [lia|]. split.
  - intros i Hi Heq. by apply scoreGuess_correct_iff.
  - intros i j Hij Hgi Hgj Hne Hp. subst r.
    assert (j < WORD_LENGTH) as Hj.
    { rewrite get_lookup in Hgj. apply lookup_lt_Some in Hgj.
      by rewrite length_list_ascii, Hg in Hgj. }
    rewrite scoreGuess_two_pass in * by done. unfold two_pass_score in *.
    fold g a in Hp |- *. rewrite get_lookup in Hgi, Hgj. fold g in Hgi, Hgj.
    eapply spec_pass2_earlier_first; [exact Hij|exact Hgi|exact Hgj| |exact Hp].
    rewrite spec_pass1_lookup by (congruence || lia).
    rewrite !get_lookup in Hne. fold g a in Hne.
    by rewrite bool_decide_eq_false_2.
Qed.

Lemma scoreGuess_duplicate_letters_witness :
  String.length "SPEED" = WORD_LENGTH ∧ String.length "CRANE" = WORD_LENGTH
  ∧ occurrences "E" (list_ascii_of_string "SPEED") = 2
  ∧ occurrences "E" (list_ascii_of_string "CRANE") = 1
  ∧ count_marked is_hit "E" (list_ascii_of_string "SPEED")
      (scoreGuess "SPEED" "CRANE") ≤ 1.
Proof.
  split; [reflexivity|]. split; [reflexivity|].
  split; [reflexivity|]. split; [reflexivity|].
  destruct (scoreGuess_duplicate_letters "SPEED" "CRANE" "E" eq_refl eq_refl)
    as (_ & H & _).
  apply H; reflexivity.
Defined.

(** C3, as the specification states it, fails: the third letter of TRACE is
    the third letter of CRANE, so pass 1 marks it correct, and the C that
    follows is then present. *)
Lemma scoreGuess_trace_crane_not_as_specified :
  scoreGuess "TRACE" "CRANE" ≠ [Absent; Correct; Present; Absent; Correct].
Proof. vm_compute. discriminate. Qed.

(** C3, amended. [scoreGuess("TRACE", "CRANE")] returns
    [absent, correct, correct, present, correct]. *)
Theorem scoreGuess_trace_crane :
  scoreGuess "TRACE" "CRANE" = [Absent; Correct; Correct; Present; Correct].
Proof. vm_compute. reflexivity. Qed.

Lemma list_ascii_of_string_inj (s t : string) :
  list_ascii_of_string s = list_ascii_of_string t → s = t.
Proof.
  intros H. rewrite <- (string_of_list_ascii_of_string s),
    <- (string_of_list_ascii_of_string t). by rewrite H.
Qed.

(** A letter that the answer does not contain has no entry in the object of
    counts, before and during the two loops. *)
Lemma getLetterCounts_missing (answer : string) (c : ascii) :
  c ∉ list_ascii_of_string answer →
  getLetterCounts answer !! prop_key (Some c) = None.
Proof.
  intros Hc. by destruct (getLetterCounts_rel answer c) as [_ [? _]].
Qed.

(** C10. For 5-letter words, [scoreGuess] returns five times correct exactly
    when the guess is the answer.  [scoreGuess] is a function: it returns a
    result for every pair of words, and no step of it can fail (reading a
    property that an object lacks gives [undefined]).  At a position whose
    letter does not occur in the answer the result is absent: the count of
    such a letter is [undefined], and [undefined > 0] is false, as [0 > 0]
    is. *)
Theorem scoreGuess_all_correct_iff (guess answer : string) :
  String.length guess = WORD_LENGTH → String.length answer = WORD_LENGTH →
  (scoreGuess guess answer = replicate WORD_LENGTH Correct ↔ guess = answer)
  ∧ (∃ r, scoreGuess guess answer = r ∧ length r = WORD_LENGTH)
  ∧ (∀ i c, String.get i guess = Some c →
       c ∉ list_ascii_of_string answer →
       getLetterCounts answer !! prop_key (Some c) = None
       ∧ gt_zero (getLetterCounts answer !! prop_key (Some c))
         = gt_zero (Some (Int 0))
       ∧ scoreGuess guess answer !! i = Some Absent).
Proof.
  intros Hg Ha.
  pose proof (scoreGuess_length guess answer Hg Ha) as Hlen.
  pose proof (scoreGuess_scored guess answer Hg Ha) as Hsc.
  split; [|split].
  - split.
    + intros Hall. apply list_ascii_of_string_inj, list_eq. intros i.
      destruct (decide (i < WORD_LENGTH)) as [Hi|Hi].
      * rewrite <- !get_lookup. apply scoreGuess_correct_iff; try done.
        rewrite Hall. by apply lookup_replicate_2.
      * rewrite !lookup_ge_None_2; [done | |];
          rewrite length_list_ascii; lia.
    + intros <-. apply list_eq. intros i.
      destruct (decide (i < WORD_LENGTH)) as [Hi|Hi].
      * rewrite lookup_replicate_2 by done.
        by apply scoreGuess_correct_iff.
      * rewrite !lookup_ge_None_2; [done | |];
          rewrite ?length_replicate; lia.
  - eauto.
  - intros i c Hi Hc.
    pose proof (getLetterCounts_missing answer c Hc) as Hmiss.
    split; [done|]. split; [by rewrite Hmiss|].
    assert (i < WORD_LENGTH) as Hlt.
    { rewrite get_lookup in Hi. apply lookup_lt_Some in Hi.
      by rewrite length_list_ascii, Hg in Hi. }
    destruct (lookup_lt_is_Some_2 (scoreGuess guess answer) i) as [e He];
      [lia|].
    rewrite He. f_equal.
    assert (scored e) as [->|[->| ->]]
      by (eapply Forall_lookup_1; [exact Hsc | exact He]); [| |done].
    + exfalso. apply scoreGuess_correct_iff in He; try done.
      rewrite Hi in He. symmetry in He. rewrite get_lookup in He.
      apply Hc. apply list_elem_of_lookup. eauto.
    + exfalso.
      pose proof (scoreGuess_hits guess answer Hg Ha c) as Hh.
      assert (occurrences c (list_ascii_of_string answer) = 0) as Hz.
      { rewrite <- occurrences_multiplicity.
        apply not_elem_of_multiplicity. by rewrite elem_of_list_to_set_disj. }
      rewrite Hz, Nat.min_0_r in Hh.
      rewrite get_lookup in Hi.
      revert Hh. clear -Hi He. revert i Hi He.
      generalize (scoreGuess guess answer) as r.
      induction (list_ascii_of_string guess) as [|x gs IH];
        intros r [|i] Hi He; try done; destruct r as [|e r]; try done;
        simpl in *.
      * simplify_eq. rewrite decide_True by done. simpl. lia.
      * intros Hh. eapply (IH r i); try done. lia.
Qed.

Lemma scoreGuess_all_correct_iff_witness :
  String.length "CRANE" = WORD_LENGTH
  ∧ (scoreGuess "CRANE" "CRANE" = replicate WORD_LENGTH Correct
     ↔ "CRANE" = "CRANE").
Proof.
  split; [reflexivity|].
  exact (proj1 (scoreGuess_all_correct_iff "CRANE" "CRANE" eq_refl eq_refl)).
Defined.

(** ** The hint aggregator *)

Lemma moves_up_trans (a b c : option LetterEval) :
  moves_up a b → moves_up b c → moves_up a c.
Proof.
  unfold moves_up. intros [->|[->|[Hb Hab]]] [->|[->|[Hc Hbc]]]; auto.
  - by destruct Hb.
  - right. right. split; [done | lia].
Qed.

Lemma priority_gt_rank (new cur : LetterEval) :
  priority_gt (statePriority new) (statePriority cur) = true →
  rank (Some cur) < rank (Some new).
Proof.
  destruct new, cur; intros H; vm_compute in H; try discriminate; simpl; lia.
Qed.

Lemma update_hint_moves_up (scoredStates : list LetterEval)
    (ks : gmap string LetterEval) (index : nat) (letter k : string) :
  moves_up (ks !! k) (update_hint scoredStates ks index letter !! k).
Proof.
  unfold update_hint. destruct (scoredStates !! index) as [new|]; [|by left].
  destruct (ks !! toLowerCase letter) as [cur|] eqn:Hcur.
  - destruct (priority_gt _ _) eqn:Hgt; [|by left].
    destruct (decide (toLowerCase letter = k)) as [<-|Hne].
    + rewrite lookup_insert_eq, Hcur. right. right.
      split; [done | by apply priority_gt_rank].
    + rewrite lookup_insert_ne by done. by left.
  - destruct (decide (toLowerCase letter = k)) as [<-|Hne].
    + rewrite Hcur. right. by left.
    + rewrite lookup_insert_ne by done. by left.
Qed.

Lemma forEach_hint_moves_up (guessLetters : list string)
    (scoredStates : list LetterEval) (k : string) :
  ∀ (index : nat) (ks : gmap string LetterEval),
    moves_up (ks !! k) (forEach_hint index guessLetters scoredStates ks !! k).
Proof.
  induction guessLetters as [|letter rest IH]; intros index ks; simpl.
  - by left.
  - eapply moves_up_trans; [apply update_hint_moves_up | apply IH].
Qed.

Lemma update_all_moves_up (updates : list (list string * list LetterEval))
    (k : string) :
  ∀ ks : gmap string LetterEval, moves_up (ks !! k) (update_all updates ks !! k).
Proof.
  unfold update_all.
  induction updates as [|u updates IH]; intros ks; simpl.
  - by left.
  - eapply moves_up_trans; [apply forEach_hint_moves_up | apply IH].
Qed.

(** C7. Through any sequence of updates of the hint aggregator, from any
    hint mapping, the rank of a letter's hint (none 0, absent 1, present 2,
    correct 3) never decreases; the hint is replaced only if the letter had
    none or the new one ranks strictly higher; a letter mapped to correct
    stays mapped to correct.  A single pair (letter, evaluation) replaces the
    hint whenever the letter has none or the evaluation has a strictly higher
    priority, and leaves the mapping as it is otherwise. *)
Theorem hints_never_move_back
    (updates : list (list string * list LetterEval))
    (hints : gmap string LetterEval) (k : string) :
  let after := update_all updates hints in
  rank (hints !! k) ≤ rank (after !! k)
  ∧ (after !! k ≠ hints !! k →
     hints !! k = None ∨ rank (hints !! k) < rank (after !! k))
  ∧ (hints !! k = Some Correct → after !! k = Some Correct)
  ∧ (∀ (letter : string) (new : LetterEval),
       match hints !! toLowerCase letter with
       | None => True
       | Some cur =>
           priority_gt (statePriority new) (statePriority cur) = true
       end →
       updateKeyboardStates [letter] [new] hints !! toLowerCase letter
       = Some new)
  ∧ (∀ (letter : string) (new cur : LetterEval),
       hints !! toLowerCase letter = Some cur →
       priority_gt (statePriority new) (statePriority cur) = false →
       updateKeyboardStates [letter] [new] hints = hints).
Proof.
  intros after. pose proof (update_all_moves_up updates k hints) as Hup.
  fold after in Hup. unfold moves_up in Hup.
  split; [|split; [|split; [|split]]].
  - destruct Hup as [->|[->|[_ ?]]]; simpl; lia.
  - intros Hne. destruct Hup as [?|[?|[_ ?]]]; [done | by left | by right].
  - intros Hc. rewrite Hc in Hup. destruct Hup as [?|[?|[_ Hlt]]]; try done.
    destruct (after !! k) as [[]|]; simpl in Hlt; lia.
  - intros letter new Hrule. unfold updateKeyboardStates. simpl.
    unfold update_hint. simpl.
    destruct (hints !! toLowerCase letter) as [cur|].
    + rewrite Hrule. apply lookup_insert_eq.
    + apply lookup_insert_eq.
  - intros letter new cur Hcur Hle. unfold updateKeyboardStates. simpl.
    unfold update_hint. simpl. by rewrite Hcur, Hle.
Qed.

(** ** The game state machine *)

Lemma js_set_in_range {A} (hole v : A) (i : nat) (a : list A) :
  i < length a → js_set hole i v a = <[i:=v]> a.
Proof. intros H. unfold js_set. by rewrite decide_True. Qed.

Lemma js_set_lookup {A} (hole v : A) (i : nat) (a : list A) :
  js_set hole i v a !! i = Some v.
Proof.
  unfold js_set. case_decide.
  - by apply list_lookup_insert_eq.
  - rewrite lookup_app_r by lia. rewrite lookup_app_r; rewrite length_replicate.
    + by rewrite Nat.sub_diag.
    + lia.
Qed.

Lemma step_ok_refl (s : GameState) : grid_shape s → step_ok s s.
Proof. intros H. split; [done|]. split; [lia | done]. Qed.

Lemma step_ok_trans (s1 s2 s3 : GameState) :
  step_ok s1 s2 → step_ok s2 s3 → step_ok s1 s3.
Proof.
  intros (H1 & Hle1 & Hr1) (H2 & Hle2 & Hr2). repeat split; try apply H2; try lia.
  - destruct (Hr2 r ltac:(lia)) as [-> _]. by apply Hr1.
  - destruct (Hr2 r ltac:(lia)) as [_ ->]. by apply Hr1.
Qed.

Section Machine.
Variable isValidGuess : string → bool.
Variable v : Source.

Lemma toggleDeveloperMode_step (w : World) :
  grid_shape (state w) → status (state w) = Active →
  step_ok (state w) (state (toggleDeveloperMode w)).
Proof.
  intros (Hg & He & Hrow) Hact. specialize (Hrow Hact).
  unfold toggleDeveloperMode, step_ok, grid_shape. simpl.
  rewrite !js_set_in_range by lia. rewrite !length_insert.
  repeat split; try done.
  all: by rewrite list_lookup_insert_ne by lia.
Qed.

Lemma submitGuess_step (w : World) :
  grid_shape (state w) → status (state w) = Active →
  step_ok (state w) (state (world_of (submitGuess isValidGuess v w))).
Proof.
  intros Hshape Hact. unfold submitGuess.
  case_decide; [by apply step_ok_refl|].
  destruct (guesses (state w) !! currentRow (state w)) as [row|];
    [|by apply step_ok_refl].
  destruct (_ && _); [by apply toggleDeveloperMode_step|].
  destruct (negb _); [by apply step_ok_refl|].
  destruct Hshape as (Hg & He & Hrow). specialize (Hrow Hact).
  cbn zeta. repeat case_decide; unfold step_ok, grid_shape; simpl in *;
    rewrite !js_set_in_range by lia; rewrite !length_insert;
    repeat split; try done; try lia;
    by rewrite list_lookup_insert_ne by lia.
Qed.

Lemma handleKeyInput_step (key : string) (w : World) :
  grid_shape (state w) →
  step_ok (state w) (state (world_of (handleKeyInput isValidGuess v key w))).
Proof.
  intros Hshape. unfold handleKeyInput.
  case_decide; [by apply step_ok_refl|].
  assert (status (state w) = Active) as Hact by (by destruct (status (state w))).
  destruct (is_letter_key key).
  { case_decide; [|by apply step_ok_refl].
    destruct (guesses (state w) !! currentRow (state w)) as [row|] eqn:Hrow;
      [|by apply step_ok_refl].
    destruct Hshape as (Hg & He & Hr). specialize (Hr Hact).
    unfold step_ok, grid_shape. simpl. rewrite length_insert.
    repeat split; try done. by rewrite list_lookup_insert_ne by lia. }
  case_decide.
  { case_decide; [|by apply step_ok_refl].
    destruct Hshape as (Hg & He & Hr). specialize (Hr Hact). simpl.
    destruct (guesses (state w) !! currentRow (state w)) as [row|] eqn:Hrow;
      unfold step_ok, grid_shape; simpl; rewrite ?length_insert;
      repeat split; try done. by rewrite list_lookup_insert_ne by lia. }
  case_decide; [by apply submitGuess_step | by apply step_ok_refl].
Qed.

Lemma run_step (keys : list string) (w : World) :
  grid_shape (state w) →
  step_ok (state w) (state (run isValidGuess v keys w)).
Proof.
  revert w. unfold run. induction keys as [|key keys IH]; intros w Hshape; simpl.
  - by apply step_ok_refl.
  - pose proof (handleKeyInput_step key w Hshape) as Hs.
    eapply step_ok_trans; [exact Hs|]. apply IH. apply Hs.
Qed.
End Machine.

Example crane_won_is_won :
  status (state crane_won) = Won
  ∧ evaluations (state crane_won) !! 0 = Some (replicate WORD_LENGTH Correct)
  ∧ guesses (state crane_won) !! 0 = Some ["C"; "R"; "A"; "N"; "E"].
Proof. vm_compute. done. Qed.

Example slate_typed_is_full :
  candidate (state slate_typed) = Some "SLATE"
  ∧ currentCol (state slate_typed) = WORD_LENGTH.
Proof. vm_compute. done. Qed.

Lemma reachable_grid_shape (isValidGuess : string → bool) (v : Source)
    (w : World) :
  reachable isValidGuess v w → grid_shape (state w).
Proof.
  induction 1 as [word message|key w _ IH|word message w _ _|message w _ IH].
  - repeat split. simpl. unfold MAX_ROWS. lia.
  - by apply handleKeyInput_step.
  - repeat split. simpl. unfold MAX_ROWS. lia.
  - exact IH.
Qed.

(** C4. Once the status is won or lost, no key event (a letter, backspace,
    enter, or any other key) changes anything: the handler returns at once,
    so [guesses], [evaluations], [currentRow], [currentCol] and [status]
    (and the rest of the state) are unchanged, after one event and after any
    sequence of events.  This holds of every state, reachable or not, in
    both source files. *)
Theorem terminal_state_ignores_keys (isValidGuess : string → bool)
    (v : Source) (w : World) (keys : list string) :
  status (state w) = Won ∨ status (state w) = Lost →
  (∀ key, handleKeyInput isValidGuess v key w = Returns w)
  ∧ run isValidGuess v keys w = w
  ∧ guesses (state (run isValidGuess v keys w)) = guesses (state w)
  ∧ evaluations (state (run isValidGuess v keys w)) = evaluations (state w)
  ∧ currentRow (state (run isValidGuess v keys w)) = currentRow (state w)
  ∧ currentCol (state (run isValidGuess v keys w)) = currentCol (state w)
  ∧ status (state (run isValidGuess v keys w)) = status (state w).
Proof.
  intros Hterm.
  assert (∀ key, handleKeyInput isValidGuess v key w = Returns w) as Hkey.
  { intros key. unfold handleKeyInput. rewrite decide_True; [done|].
    destruct Hterm as [-> | ->]; discriminate. }
  assert (run isValidGuess v keys w = w) as Hrun.
  { unfold run. induction keys as [|key keys IH]; simpl; [done|].
    by rewrite Hkey. }
  rewrite Hrun. done.
Qed.

Lemma terminal_state_ignores_keys_witness :
  status (state crane_won) = Won
  ∧ run sample_isValidGuess GameJs ["a"; "backspace"; "enter"] crane_won
    = crane_won.
Proof.
  split; [reflexivity|].
  apply (terminal_state_ignores_keys sample_isValidGuess GameJs crane_won
           ["a"; "backspace"; "enter"]).
  left. reflexivity.
Defined.

(** C5, as stated, fails in game.js: the row ASDEV is no dictionary word,
    so the submit is a user error in the sense of the specification, yet the
    test for the developer command comes before the validity check, and the
    submit toggles [developerMode] and clears the row. *)
Lemma user_error_changes_state_in_game_js :
  status (state asdev_typed) = Active
  ∧ candidate (state asdev_typed) = Some "ASDEV"
  ∧ sample_isValidGuess "ASDEV" = false
  ∧ user_error sample_isValidGuess (state asdev_typed)
  ∧ state (world_of (handleKeyInput sample_isValidGuess GameJs "enter"
                       asdev_typed))
    ≠ state asdev_typed
  ∧ developerMode (state (world_of (handleKeyInput sample_isValidGuess GameJs
                                      "enter" asdev_typed)))
    = true
  ∧ currentCol (state (world_of (handleKeyInput sample_isValidGuess GameJs
                                   "enter" asdev_typed)))
    = 0.
Proof.
  split; [reflexivity|]. split; [reflexivity|]. split; [reflexivity|].
  split; [right; exists "ASDEV"; split; reflexivity|].
  split; [|split; reflexivity].
  intros H. apply (f_equal developerMode) in H. vm_compute in H. discriminate.
Qed.

(** C5, amended. For every active state, a submit that finds fewer than 5
    letters in the row, or whose joined row fails the validity check and is
    not, in game.js, the developer command ASDEV, only sets the status
    message ("Not enough letters." or "Word is not in the list.") and leaves
    the whole state unchanged. *)
Theorem user_error_leaves_state (isValidGuess : string → bool) (v : Source)
    (w : World) :
  status (state w) = Active →
  (currentCol (state w) < WORD_LENGTH
   ∨ ∃ word, candidate (state w) = Some word ∧ isValidGuess word = false
             ∧ (v = GameJs → word ≠ "ASDEV")) →
  ∃ message,
    handleKeyInput isValidGuess v "enter" w
    = Returns {| state := state w; statusText := message |}
    ∧ (message = "Not enough letters." ∨ message = "Word is not in the list.").
Proof.
  intros Hact Hrej. unfold handleKeyInput. rewrite decide_False by (by rewrite Hact; auto).
  change (is_letter_key "enter") with false. cbn iota.
  rewrite decide_False by (vm_compute; discriminate).
  rewrite decide_True by reflexivity.
  unfold submitGuess.
  destruct (decide (currentCol (state w) < WORD_LENGTH)) as [Hcol|Hcol].
  { exists "Not enough letters.". split; [done | by left]. }
  destruct Hrej as [?|(word & Hcand & Hbad & Hdev)]; [done|].
  unfold candidate in Hcand.
  destruct (guesses (state w) !! currentRow (state w)) as [row|]; [|done].
  simpl in Hcand. injection Hcand as ->.
  assert (bool_decide (v = GameJs) && bool_decide (word = "ASDEV") = false)
    as ->.
  { destruct (decide (v = GameJs)) as [Hv|Hv].
    - rewrite (bool_decide_eq_false_2 (word = "ASDEV")) by auto.
      by rewrite andb_false_r.
    - by rewrite (bool_decide_eq_false_2 (v = GameJs)). }
  rewrite Hbad. simpl.
  exists "Word is not in the list.". split; [done | by right].
Qed.

Lemma user_error_leaves_state_witness :
  status (state slate_typed) = Active
  ∧ ∃ message,
      handleKeyInput (λ _, false) GameJs "enter" slate_typed
      = Returns {| state := state slate_typed; statusText := message |}
      ∧ (message = "Not enough letters."
         ∨ message = "Word is not in the list.").
Proof.
  split; [reflexivity|].
  apply (user_error_leaves_state (λ _, false) GameJs slate_typed);
    [reflexivity|].
  right. exists "SLATE". split; [reflexivity|]. split; [reflexivity|].
  intros _. discriminate.
Defined.

Lemma enter_submits (isValidGuess : string → bool) (v : Source) (w : World) :
  status (state w) = Active →
  handleKeyInput isValidGuess v "enter" w = submitGuess isValidGuess v w.
Proof.
  intros Hact. unfold handleKeyInput.
  rewrite decide_False by (by rewrite Hact; auto).
  change (is_letter_key "enter") with false. cbn iota.
  rewrite decide_False by (vm_compute; discriminate).
  by rewrite decide_True by reflexivity.
Qed.

(** C6, as stated, fails in game.js: the test for the developer command
    comes before the validity check, so with a word source that accepts the
    word ASDEV a full row ASDEV that is not the answer, on the first row, is
    a valid candidate whose submit leaves [currentRow] where it was (and
    clears the row). *)
Lemma valid_guess_does_not_advance_in_game_js :
  asdev_typed
  = run every_word GameJs ["a"; "s"; "d"; "e"; "v"]
      {| state := createNewState "CRANE"; statusText := EmptyString |}
  ∧ grid_shape (state asdev_typed)
  ∧ status (state asdev_typed) = Active
  ∧ currentCol (state asdev_typed) = WORD_LENGTH
  ∧ candidate (state asdev_typed) = Some "ASDEV"
  ∧ every_word "ASDEV" = true
  ∧ "ASDEV" ≠ answer (state asdev_typed)
  ∧ currentRow (state asdev_typed) < MAX_ROWS - 1
  ∧ ∃ w',
      handleKeyInput every_word GameJs "enter" asdev_typed = Returns w'
      ∧ currentRow (state w') = currentRow (state asdev_typed)
      ∧ currentRow (state w') ≠ currentRow (state asdev_typed) + 1
      ∧ guesses (state w') ≠ guesses (state asdev_typed).
Proof.
  split; [reflexivity|].
  split; [split; [reflexivity|]; split; [reflexivity|]; intros _;
          vm_compute; lia|].
  split; [reflexivity|]. split; [reflexivity|]. split; [reflexivity|].
  split; [reflexivity|]. split; [vm_compute; discriminate|].
  split; [vm_compute; lia|].
  eexists. split; [reflexivity|]. split; [reflexivity|].
  split; [vm_compute; lia | vm_compute; discriminate].
Qed.

(** C6, amended. In an active state of the shape of the data model, with a
    full current row that is not the last (currentRow < 5), a submit of a
    word that is valid, is not the answer and is not, in game.js, the
    developer command ASDEV returns with [currentRow] increased by exactly
    1, [currentCol] 0 and [status] active; the evaluation of the word is
    stored in the submitted row, no other row of [guesses] or [evaluations]
    is touched; and whatever keys follow, the letters and evaluations of the
    rows before the new [currentRow] stay as they are. *)
Theorem valid_guess_advances_row (isValidGuess : string → bool) (v : Source)
    (w : World) (word : string) (keys : list string) :
  (v = GameJs → word ≠ "ASDEV") →
  grid_shape (state w) →
  status (state w) = Active →
  currentCol (state w) = WORD_LENGTH →
  candidate (state w) = Some word →
  isValidGuess word = true →
  word ≠ answer (state w) →
  currentRow (state w) < MAX_ROWS - 1 →
  ∃ w',
    handleKeyInput isValidGuess v "enter" w = Returns w'
    ∧ currentRow (state w') = currentRow (state w) + 1
    ∧ currentCol (state w') = 0
    ∧ status (state w') = Active
    ∧ evaluations (state w') !! currentRow (state w)
      = Some (scoreGuess word (answer (state w)))
    ∧ (∀ r, r ≠ currentRow (state w) →
         evaluations (state w') !! r = evaluations (state w) !! r)
    ∧ guesses (state w') = guesses (state w)
    ∧ (∀ r, r < currentRow (state w') →
         guesses (state (run isValidGuess v keys w')) !! r
         = guesses (state w') !! r
         ∧ evaluations (state (run isValidGuess v keys w')) !! r
           = evaluations (state w') !! r).
Proof.
  intros Hdev Hshape Hact Hcol Hcand Hvalid Hne Hrow.
  assert (∃ w1,
            handleKeyInput isValidGuess v "enter" w = Returns w1
            ∧ state w1
              = set_currentCol 0
                  (set_currentRow (currentRow (state w) + 1)
                     (set_keyStates
                        (updateKeyboardStates (spread word)
                           (scoreGuess word (answer (state w)))
                           (keyStates (state w)))
                        (set_evaluations
                           (js_set [] (currentRow (state w))
                              (scoreGuess word (answer (state w)))
                              (evaluations (state w)))
                           (state w)))))
    as (w1 & Hret & Hst).
  { rewrite enter_submits by done. unfold submitGuess.
    rewrite Hcol, decide_False by lia.
    unfold candidate in Hcand.
    destruct (guesses (state w) !! currentRow (state w)) as [row|]; [|done].
    simpl in Hcand. injection Hcand as Hjoin. rewrite Hjoin.
    assert (bool_decide (v = GameJs) && bool_decide (word = "ASDEV") = false)
      as ->.
    { destruct (decide (v = GameJs)) as [Hv|Hv].
      - rewrite (bool_decide_eq_false_2 (word = "ASDEV")).
        + by rewrite andb_false_r.
        + by apply Hdev.
      - by rewrite (bool_decide_eq_false_2 (v = GameJs)). }
    rewrite Hvalid. cbn [negb]. cbn zeta.
    rewrite decide_False by done.
    rewrite decide_False by (simpl; unfold MAX_ROWS in *; lia).
    eexists. split; reflexivity. }
  pose proof (handleKeyInput_step isValidGuess v "enter" w Hshape) as Hstep.
  rewrite Hret in Hstep. cbn [world_of] in Hstep.
  exists w1. split; [exact Hret|].
  destruct Hshape as (Hg & He & _).
  destruct (run_step isValidGuess v keys w1 (proj1 Hstep))
    as (_ & _ & Hfrozen).
  split; [by rewrite Hst|]. split; [by rewrite Hst|].
  split; [by rewrite Hst|].
  split; [rewrite Hst; apply js_set_lookup|].
  split.
  { intros r Hr. rewrite Hst. simpl.
    rewrite js_set_in_range by (unfold MAX_ROWS in *; lia).
    by rewrite list_lookup_insert_ne. }
  split; [by rewrite Hst | exact Hfrozen].
Qed.

Lemma valid_guess_advances_row_witness :
  grid_shape (state slate_typed)
  ∧ candidate (state slate_typed) = Some "SLATE"
  ∧ "SLATE" ≠ "ASDEV"
  ∧ ∃ w',
      handleKeyInput sample_isValidGuess GameJs "enter" slate_typed
      = Returns w'
      ∧ currentRow (state w') = currentRow (state slate_typed) + 1.
Proof.
  assert (grid_shape (state slate_typed)) as Hshape.
  { split; [reflexivity|]. split; [reflexivity|]. intros _.
    vm_compute. lia. }
  assert ("SLATE" ≠ "ASDEV") as Hword by discriminate.
  split; [exact Hshape|]. split; [reflexivity|]. split; [exact Hword|].
  destruct (valid_guess_advances_row sample_isValidGuess GameJs slate_typed
              "SLATE" ["c"; "backspace"])
    as (w' & Hret & Hrow & _); try reflexivity; try exact Hshape.
  - intros _. exact Hword.
  - discriminate.
  - vm_compute. lia.
  - exists w'. split; [exact Hret | exact Hrow].
Defined.

(** C9. In game.js, in an active state of the shape of the data model whose
    current row is full and reads ASDEV, a submit returns whatever the word
    source says of the word (it is not asked), and does not consume an
    attempt: [developerMode] is toggled, the letters of the current row are
    reset to empty strings and its evaluations to empty, [currentCol] is 0;
    [currentRow], [status], the other rows, [keyStates] and [answer] are
    unchanged. *)
Theorem developer_command_toggles (isValidGuess : string → bool) (w : World) :
  grid_shape (state w) →
  status (state w) = Active →
  currentCol (state w) = WORD_LENGTH →
  candidate (state w) = Some "ASDEV" →
  ∃ w',
    (∀ anyGuessCheck : string → bool,
       handleKeyInput anyGuessCheck GameJs "enter" w = Returns w')
    ∧ handleKeyInput isValidGuess GameJs "enter" w = Returns w'
    ∧ developerMode (state w') = negb (developerMode (state w))
    ∧ guesses (state w') !! currentRow (state w)
      = Some (replicate WORD_LENGTH EmptyString)
    ∧ evaluations (state w') !! currentRow (state w)
      = Some (replicate WORD_LENGTH Empty)
    ∧ currentCol (state w') = 0
    ∧ currentRow (state w') = currentRow (state w)
    ∧ status (state w') = status (state w)
    ∧ (∀ r, r ≠ currentRow (state w) →
         evaluations (state w') !! r = evaluations (state w) !! r
         ∧ guesses (state w') !! r = guesses (state w) !! r)
    ∧ keyStates (state w') = keyStates (state w)
    ∧ answer (state w') = answer (state w).
Proof.
  intros (Hg & He & Hr) Hact Hcol Hcand. specialize (Hr Hact).
  exists (toggleDeveloperMode w).
  assert (∀ f : string → bool,
            handleKeyInput f GameJs "enter" w
            = Returns (toggleDeveloperMode w)) as Hany.
  { intros f. rewrite enter_submits by done. unfold submitGuess.
    rewrite Hcol, decide_False by lia.
    unfold candidate in Hcand.
    destruct (guesses (state w) !! currentRow (state w)) as [row|]; [|done].
    simpl in Hcand. injection Hcand as ->. done. }
  split; [exact Hany|]. split; [apply Hany|].
  unfold toggleDeveloperMode. simpl.
  rewrite !js_set_in_range by lia.
  rewrite !list_lookup_insert_eq by lia.
  repeat split; try done; by rewrite list_lookup_insert_ne.
Qed.

Lemma developer_command_toggles_witness :
  candidate (state asdev_typed) = Some "ASDEV"
  ∧ ∃ w',
      handleKeyInput sample_isValidGuess GameJs "enter" asdev_typed
      = Returns w'
      ∧ developerMode (state w') = negb (developerMode (state asdev_typed))
      ∧ currentRow (state w') = currentRow (state asdev_typed).
Proof.
  split; [reflexivity|].
  destruct (developer_command_toggles sample_isValidGuess asdev_typed)
    as (w' & _ & Hret & Hdev & _ & _ & _ & Hrow & _); try reflexivity.
  - split; [reflexivity|]. split; [reflexivity|]. intros _. vm_compute. lia.
  - exists w'. split; [exact Hret|]. split; [exact Hdev | exact Hrow].
Defined.

(** ** Persistence *)

Example getLocalDayKey_sample :
  getLocalDayKey (mkDate 2025 2 9) = "2025-03-09"
  ∧ getLocalDayKey (mkDate 2025 11 31) = "2025-12-31".
Proof. vm_compute. done. Qed.

Lemma list_ascii_app (s t : string) :
  list_ascii_of_string (s +:+ t)
  = list_ascii_of_string s ++ list_ascii_of_string t.
Proof. induction s as [|c s IH]; simpl; [done | by rewrite IH]. Qed.

Lemma string_length_app (s t : string) :
  String.length (s +:+ t) = String.length s + String.length t.
Proof. induction s as [|c s IH]; simpl; [done | by rewrite IH]. Qed.

Lemma string_cons_app (c : ascii) (s t : string) :
  String c s +:+ t = String c (s +:+ t).
Proof. reflexivity. Qed.

Lemma string_nil_app (t : string) : EmptyString +:+ t = t.
Proof. reflexivity. Qed.

Lemma string_app_inj_tail (s1 s2 t1 t2 : string) :
  String.length t1 = String.length t2 → s1 +:+ t1 = s2 +:+ t2 →
  s1 = s2 ∧ t1 = t2.
Proof.
  intros Hlen Heq. apply (f_equal list_ascii_of_string) in Heq.
  rewrite !list_ascii_app in Heq.
  apply app_inj_2 in Heq as [H1 H2]; [|by rewrite !length_list_ascii].
  split; by apply list_ascii_of_string_inj.
Qed.

Lemma two_digits_padStart2 (n : nat) :
  n ≤ 31 → two_digits (padStart2 (pretty n)) = Some n.
Proof.
  intros Hn. do 32 (destruct n as [|n]; [vm_compute; reflexivity|]). lia.
Qed.

Lemma padStart2_length (n : nat) :
  n ≤ 31 → String.length (padStart2 (pretty n)) = 2.
Proof.
  intros Hn. do 32 (destruct n as [|n]; [vm_compute; reflexivity|]). lia.
Qed.

(** Two valid dates with the same key are the same date. *)
Lemma getLocalDayKey_inj (d1 d2 : LocalDate) :
  valid_date d1 → valid_date d2 →
  getLocalDayKey d1 = getLocalDayKey d2 → d1 = d2.
Proof.
  destruct d1 as [y1 m1 a1], d2 as [y2 m2 a2].
  unfold valid_date, getLocalDayKey. simpl. intros [Hm1 Ha1] [Hm2 Ha2] Hkey.
  set (M1 := padStart2 (pretty (m1 + 1))) in *.
  set (M2 := padStart2 (pretty (m2 + 1))) in *.
  set (D1 := padStart2 (pretty a1)) in *.
  set (D2 := padStart2 (pretty a2)) in *.
  assert (String.length M1 = 2 ∧ String.length M2 = 2
          ∧ String.length D1 = 2 ∧ String.length D2 = 2)
    as (HM1 & HM2 & HD1 & HD2)
    by (unfold M1, M2, D1, D2; rewrite !padStart2_length by lia; done).
  apply (string_app_inj_tail (pretty y1) (pretty y2)
           ("-" +:+ M1 +:+ "-" +:+ D1) ("-" +:+ M2 +:+ "-" +:+ D2))
    in Hkey as [Hy Htail].
  2:{ rewrite !string_length_app. simpl. lia. }
  rewrite !string_cons_app, !string_nil_app in Htail.
  injection Htail as Htail.
  apply (string_app_inj_tail M1 M2 ("-" +:+ D1) ("-" +:+ D2))
    in Htail as [Hm Hd].
  2:{ rewrite !string_length_app. simpl. lia. }
  rewrite !string_cons_app, !string_nil_app in Hd. injection Hd as Hd.
  apply (inj pretty) in Hy.
  apply (f_equal two_digits) in Hm, Hd. unfold M1, M2, D1, D2 in Hm, Hd.
  rewrite !two_digits_padStart2 in Hm, Hd by lia.
  injection Hm as Hm. injection Hd as Hd.
  f_equal; [done | lia | done].
Qed.

Section Loading.
Context {Number : Type}.
Variable number_truthy : Number → bool.
Variable JSON_parse : string → option (Persistence.JsValue Number).

(** [JSON.parse('')] throws. *)
Hypothesis parse_empty : JSON_parse EmptyString = None.

Lemma is_string_false (s : string) (v : option (Persistence.JsValue Number)) :
  Persistence.is_string s v = false ↔ v ≠ Some (Persistence.JString s).
Proof.
  destruct v as [[]|]; simpl; try (split; [discriminate | done]).
  rewrite bool_decide_eq_false. split; [congruence|].
  intros H ->. by apply H.
Qed.

Lemma load_discards_iff (text : string) (now : LocalDate) :
  Persistence.loadPersistedState number_truthy JSON_parse (Some text) now
  = None
  ↔ JSON_parse text = None
    ∨ Persistence.payload_dayKey JSON_parse text
      ≠ Some (Persistence.JString (getLocalDayKey now))
    ∨ Persistence.truthy number_truthy
        (Persistence.payload_answer JSON_parse text) = false.
Proof.
  unfold Persistence.loadPersistedState, Persistence.payload_dayKey,
    Persistence.payload_answer.
  destruct text as [|c text]; [split; [by left | done]|].
  destruct (JSON_parse (String c text)) as [parsed|]; [|split; [by left | done]].
  cbn [mbind option_bind]. rewrite <- is_string_false.
  destruct parsed; cbn -[getLocalDayKey];
    try destruct (Persistence.is_string _ _);
    try destruct (Persistence.truthy _ _); cbn [negb orb];
    (split; [intros H; first [discriminate H | by right; left | by right; right]
            | intros [H|[H|H]]; first [done | discriminate H]]).
Qed.

Lemma load_none_starts_fresh (raw : option string) (now : LocalDate)
    (created : GameState) :
  Persistence.loadPersistedState number_truthy JSON_parse raw now = None →
  Persistence.init number_truthy JSON_parse raw now created
  = Persistence.Fresh {| state := created;
                         statusText := "Guess the Wordle in 6 tries." |}.
Proof. intros H. unfold Persistence.init. by rewrite H. Qed.

(** C8. Loading discards a stored payload (it returns null, and [init] then
    keeps the freshly created state) exactly when the payload fails to parse,
    or its [dayKey] is not the key of the day (a payload without a [dayKey],
    such as [null], included), or its [answer] is missing or empty (falsy).
    In particular a payload whose [dayKey] is the key of another calendar
    day, so of any prior day, is never restored. *)
Theorem load_discards_exactly_stale_or_broken (text : string)
    (now saved : LocalDate) (created : GameState) :
  (Persistence.loadPersistedState number_truthy JSON_parse (Some text) now
   = None
   ↔ JSON_parse text = None
     ∨ Persistence.payload_dayKey JSON_parse text
       ≠ Some (Persistence.JString (getLocalDayKey now))
     ∨ Persistence.truthy number_truthy
         (Persistence.payload_answer JSON_parse text) = false)
  ∧ (Persistence.loadPersistedState number_truthy JSON_parse (Some text) now
     = None →
     Persistence.init number_truthy JSON_parse (Some text) now created
     = Persistence.Fresh {| state := created;
                            statusText := "Guess the Wordle in 6 tries." |})
  ∧ (valid_date saved → valid_date now → saved ≠ now →
     Persistence.payload_dayKey JSON_parse text
     = Some (Persistence.JString (getLocalDayKey saved)) →
     Persistence.loadPersistedState number_truthy JSON_parse (Some text) now
     = None).
Proof.
  split; [apply load_discards_iff|]. split; [apply load_none_starts_fresh|].
  intros Hsaved Hnow Hne Hkey. apply load_discards_iff. right. left.
  rewrite Hkey. intros [= Heq]. apply Hne.
  by apply getLocalDayKey_inj.
Qed.
End Loading.

Lemma load_discards_exactly_stale_or_broken_witness :
  sample_parse EmptyString = None
  ∧ valid_date (mkDate 2025 2 9) ∧ valid_date (mkDate 2025 2 10)
  ∧ Persistence.payload_dayKey sample_parse sample_payload
    = Some (Persistence.JString (getLocalDayKey (mkDate 2025 2 9)))
  ∧ Persistence.loadPersistedState sample_truthy sample_parse
      (Some sample_payload) (mkDate 2025 2 10) = None.
Proof.
  assert (valid_date (mkDate 2025 2 9)) as H9
    by (unfold valid_date; simpl; lia).
  assert (valid_date (mkDate 2025 2 10)) as H10
    by (unfold valid_date; simpl; lia).
  split; [reflexivity|]. split; [exact H9|]. split; [exact H10|].
  split; [reflexivity|].
  destruct (load_discards_exactly_stale_or_broken sample_truthy sample_parse
              eq_refl sample_payload (mkDate 2025 2 10) (mkDate 2025 2 9)
              (createNewState "SLATE")) as (_ & _ & Hstale).
  apply Hstale; [exact H9 | exact H10 | discriminate | reflexivity].
Defined.

Example load_restores_same_day :
  is_Some (Persistence.loadPersistedState sample_truthy sample_parse
             (Some sample_payload) (mkDate 2025 2 9)).
Proof. vm_compute. eauto. Qed.

(* ===================================================================== *)
(** * Further properties of the code *)
(* ===================================================================== *)

(** ** The scoring engine on arbitrary strings *)

(** The keys of the object of counts are the letters of the word. *)
Lemma getLetterCounts_keys (word k : string) (n : Num) :
  getLetterCounts word !! k = Some n →
  ∃ c, k = prop_key (Some c) ∧ c ∈ list_ascii_of_string word.
Proof.
  unfold getLetterCounts.
  assert (∀ (l pre : list ascii) (acc : gmap string Num),
            (∀ k n, acc !! k = Some n → ∃ c, k = prop_key (Some c) ∧ c ∈ pre) →
            ∀ k n,
              foldl (λ acc letter,
                       <[prop_key (Some letter) :=
                           num_add1 (or_zero (acc !! prop_key (Some letter)))]>
                         acc) acc l !! k = Some n →
              ∃ c, k = prop_key (Some c) ∧ c ∈ pre ++ l) as Hfold.
  { induction l as [|x l IH]; intros pre acc Hacc k' n' Hk.
    - rewrite app_nil_r. by eapply Hacc.
    - cbn [foldl] in Hk. apply (IH (pre ++ [x])) in Hk.
      + destruct Hk as (c & -> & Hc). exists c. split; [done|].
        by rewrite <- app_assoc in Hc.
      + intros k2 n2 Hk2.
        destruct (decide (prop_key (Some x) = k2)) as [<-|Hne].
        * exists x. split; [done|]. apply elem_of_app. right. by left.
        * rewrite lookup_insert_ne in Hk2 by done.
          destruct (Hacc _ _ Hk2) as (c & -> & Hc). exists c.
          split; [done|]. apply elem_of_app. by left. }
  intros Hk. apply (Hfold _ [] ∅ ltac:(intros ? ? H; by rewrite lookup_empty in H)) in Hk.
  done.
Qed.

(** The state of the two loops after [n] rounds of the first one. *)
Lemma pass1_rounds (guess answer : string) (rc0 : gmap string Num) (n : nat) :
  n ≤ WORD_LENGTH →
  let r := foldl (pass1_body guess answer)
             (replicate WORD_LENGTH Absent, rc0) (seq 0 n) in
  length r.1 = WORD_LENGTH
  ∧ (∀ i, i < WORD_LENGTH →
       r.1 !! i = Some (if decide (i < n ∧ String.get i guess = String.get i answer)
                        then Correct else Absent))
  ∧ (rc0 !! "undefined" = None →
     r.2 !! "undefined" = None ∨ r.2 !! "undefined" = Some NaN).
Proof.
  induction n as [|n IH]; intros Hn.
  - cbn [seq foldl fst snd]. split; [by rewrite length_replicate|].
    split; [|by left].
    intros i Hi. rewrite lookup_replicate_2 by done.
    by rewrite decide_False by lia.
  - rewrite seq_S, foldl_app. cbn [foldl plus]. cbv zeta in IH.
    destruct (IH ltac:(lia)) as (Hlen & Hres & Hund).
    destruct (foldl _ _ (seq 0 n)) as [res rc]. cbn [fst snd] in *.
    unfold pass1_body. cbn [fst snd].
    destruct (decide (String.get n guess = String.get n answer)) as [Heq|Hne];
      cbn [fst snd].
    + split; [by rewrite length_insert|]. split.
      * intros i Hi. destruct (decide (i = n)) as [->|Hin].
        -- rewrite list_lookup_insert_eq by lia.
           by rewrite decide_True by (split; [lia | done]).
        -- rewrite list_lookup_insert_ne by done. rewrite Hres by done.
           destruct (decide (i < n ∧ _)) as [[? ?]|Hno].
           ++ by rewrite decide_True by (split; [lia | done]).
           ++ rewrite decide_False; [done|]. intros [? ?]. apply Hno.
              split; [lia | done].
      * intros H0. specialize (Hund H0). unfold decrement.
        destruct (decide (prop_key (String.get n guess) = "undefined"))
          as [->|Hk].
        -- rewrite lookup_insert_eq. right.
           by destruct Hund as [-> | ->].
        -- by rewrite lookup_insert_ne.
    + split; [done|]. split; [|done].
      intros i Hi. rewrite Hres by done.
      destruct (decide (i < n ∧ _)) as [[? ?]|Hno].
      * by rewrite decide_True by (split; [lia | done]).
      * rewrite decide_False; [done|]. intros [? ?].
        destruct (decide (i = n)) as [->|?]; [done|].
        apply Hno. split; [lia | done].
Qed.

(** The state of the two loops after [n] rounds of the second one, started
    on a result of correct and absent marks. *)
Lemma pass2_rounds (guess : string) (res1 : list LetterEval)
    (rc1 : gmap string Num) (n : nat) :
  length res1 = WORD_LENGTH →
  Forall (λ e, e = Correct ∨ e = Absent) res1 →
  let r := foldl (pass2_body guess) (res1, rc1) (seq 0 n) in
  length r.1 = WORD_LENGTH
  ∧ Forall scored r.1
  ∧ (∀ i, r.1 !! i = Some Correct ↔ res1 !! i = Some Correct)
  ∧ (∀ i, n ≤ i → r.1 !! i = res1 !! i)
  ∧ (rc1 !! "undefined" = None ∨ rc1 !! "undefined" = Some NaN →
     (r.2 !! "undefined" = None ∨ r.2 !! "undefined" = Some NaN)
     ∧ ∀ i, i < n → String.get i guess = None →
            res1 !! i = Some Absent → r.1 !! i = Some Absent).
Proof.
  intros Hlen Hmarks. induction n as [|n IH].
  - cbn [seq foldl fst snd]. split; [done|]. split.
    { eapply Forall_impl; [exact Hmarks|]. unfold scored. intros ? [->| ->]; auto. }
    split; [done|]. split; [done|]. intros Hu. split; [done|]. intros; lia.
  - rewrite seq_S, foldl_app. cbn [foldl plus]. cbv zeta in IH.
    destruct IH as (Hl & Hsc & Hc & Hrest & Hund).
    destruct (foldl _ _ (seq 0 n)) as [res rc]. cbn [fst snd] in *.
    unfold pass2_body. cbn [fst snd].
    destruct (decide (res !! n = Some Correct)) as [Hcn|Hcn]; cbn [fst snd].
    { split; [done|]. split; [done|]. split; [done|].
      split; [intros i Hi; apply Hrest; lia|].
      intros Hu. destruct (Hund Hu) as [Hu' Habs]. split; [done|].
      intros i Hi Hg Hr. destruct (decide (i = n)) as [->|?].
      - apply Hc in Hcn. congruence.
      - apply Habs; [lia | done | done]. }
    destruct (gt_zero (rc !! prop_key (String.get n guess))) eqn:Hgt;
      cbn [fst snd].
    + split; [by rewrite length_insert|]. split.
      { apply Forall_insert; [done|]. unfold scored. auto. }
      split.
      { intros i. destruct (decide (i = n)) as [->|Hin].
        - destruct (decide (n < length res)) as [Hlt|Hge].
          + rewrite list_lookup_insert_eq by done. rewrite <- Hc.
            split; [discriminate | done].
          + rewrite list_insert_ge by lia. apply Hc.
        - rewrite list_lookup_insert_ne by done. apply Hc. }
      split.
      { intros i Hi. rewrite list_lookup_insert_ne by lia. apply Hrest. lia. }
      intros Hu. destruct (Hund Hu) as [Hu' Habs].
      assert (prop_key (String.get n guess) ≠ "undefined") as Hk.
      { intros Hk. rewrite Hk in Hgt. by destruct Hu' as [E|E]; rewrite E in Hgt. }
      split.
      { unfold decrement. by rewrite lookup_insert_ne. }
      intros i Hi Hg Hr. destruct (decide (i = n)) as [->|?].
      * rewrite Hg in Hk. done.
      * rewrite list_lookup_insert_ne by done. apply Habs; [lia | done | done].
    + split; [done|]. split; [done|]. split; [done|].
      split; [intros i Hi; apply Hrest; lia|].
      intros Hu. destruct (Hund Hu) as [Hu' Habs]. split; [done|].
      intros i Hi Hg Hr. destruct (decide (i = n)) as [->|?].
      * rewrite Hrest by lia. done.
      * apply Habs; [lia | done | done].
Qed.

Lemma getLetterCounts_no_undefined (word : string) :
  getLetterCounts word !! "undefined" = None.
Proof.
  destruct (getLetterCounts word !! "undefined") as [n|] eqn:E; [|done].
  apply getLetterCounts_keys in E as (c & Hc & _). discriminate Hc.
Qed.

(** What both loops leave, for any two strings. *)
Lemma scoreGuess_general (guess answer : string) :
  length (scoreGuess guess answer) = WORD_LENGTH
  ∧ Forall scored (scoreGuess guess answer)
  ∧ (∀ i, i < WORD_LENGTH →
       (scoreGuess guess answer !! i = Some Correct
        ↔ String.get i guess = String.get i answer)
       ∧ (String.get i guess = None → String.get i answer ≠ None →
          scoreGuess guess answer !! i = Some Absent)).
Proof.
  unfold scoreGuess.
  pose proof (pass1_rounds guess answer (getLetterCounts answer) WORD_LENGTH
                ltac:(done)) as H1. cbv zeta in H1.
  destruct H1 as (Hl1 & Hres1 & Hund1).
  specialize (Hund1 (getLetterCounts_no_undefined answer)).
  destruct (foldl (pass1_body guess answer) _ _) as [res1 rc1].
  cbn [fst snd] in *.
  assert (Forall (λ e, e = Correct ∨ e = Absent) res1) as Hmarks.
  { apply Forall_lookup. intros i e He.
    assert (i < WORD_LENGTH) as Hi by (rewrite <- Hl1; by eapply lookup_lt_Some).
    rewrite (Hres1 i Hi) in He. injection He as <-. case_decide; auto. }
  pose proof (pass2_rounds guess res1 rc1 WORD_LENGTH Hl1 Hmarks) as H2.
  cbv zeta in H2. destruct H2 as (Hl2 & Hsc & Hc & _ & Hund2).
  destruct (Hund2 Hund1) as [_ Habs].
  split; [done|]. split; [done|]. intros i Hi. split.
  - rewrite Hc, (Hres1 i Hi). case_decide as Hd.
    + split; [intros _; apply Hd | done].
    + split; [discriminate|]. intros Heq. exfalso. apply Hd. by split.
  - intros Hg Ha. apply Habs; [done | done |].
    rewrite (Hres1 i Hi). rewrite decide_False; [done|].
    intros [_ Heq]. rewrite Hg in Heq. by apply Ha.
Qed.

(** X1. Read at a single character, the object that [getLetterCounts]
    returns gives the number of times the character occurs in the word, and
    [undefined] for a character that the word lacks.  The empty word gives
    the object without properties of its own. *)
Theorem getLetterCounts_counts_occurrences (word : string) :
  (∀ c : ascii,
     getLetterCounts word !! String c EmptyString
     = if decide (c ∈ list_ascii_of_string word)
       then Some (Int (Z.of_nat (occurrences c (list_ascii_of_string word))))
       else None)
  ∧ getLetterCounts EmptyString = ∅.
Proof.
  split; [|done].
  intros c. destruct (getLetterCounts_rel word c) as [Hin Hout].
  change (String c EmptyString) with (prop_key (Some c)).
  case_decide as Hc.
  - by rewrite (Hin Hc), occurrences_multiplicity.
  - by destruct (Hout Hc) as [-> _].
Qed.

(** X2. Whatever the two strings and their lengths, [scoreGuess] returns
    five evaluations, each correct, present or absent, and position [i] is
    correct exactly when [guess[i] === answer[i]], two missing characters
    counting as equal.  So a string scored against itself is five times
    correct, whatever its length. *)
Theorem scoreGuess_on_any_strings (guess answer : string) :
  length (scoreGuess guess answer) = WORD_LENGTH
  ∧ Forall scored (scoreGuess guess answer)
  ∧ (∀ i, i < WORD_LENGTH →
       (scoreGuess guess answer !! i = Some Correct
        ↔ String.get i guess = String.get i answer))
  ∧ scoreGuess guess guess = replicate WORD_LENGTH Correct.
Proof.
  destruct (scoreGuess_general guess answer) as (Hl & Hsc & Hpos).
  split; [done|]. split; [done|]. split; [intros i Hi; by apply Hpos|].
  destruct (scoreGuess_general guess guess) as (Hl' & _ & Hpos').
  apply list_eq. intros i.
  destruct (decide (i < WORD_LENGTH)) as [Hi|Hi].
  - rewrite lookup_replicate_2 by done. by apply Hpos'.
  - rewrite !lookup_ge_None_2; [done | |]; rewrite ?length_replicate; lia.
Qed.

(** X3. Where the guess has no character (a guess shorter than five), the
    position is correct if the answer has none there either, and absent
    otherwise: [undefined] is never counted as a letter of the answer. *)
Theorem scoreGuess_beyond_guess_end (guess answer : string) (i : nat) :
  i < WORD_LENGTH → String.length guess ≤ i →
  scoreGuess guess answer !! i
  = Some (if decide (String.length answer ≤ i) then Correct else Absent).
Proof.
  intros Hi Hg.
  assert (∀ s, String.length s ≤ i ↔ String.get i s = None) as Hnone.
  { intros s. rewrite get_lookup, lookup_ge_None, length_list_ascii. done. }
  destruct (scoreGuess_general guess answer) as (_ & _ & Hpos).
  destruct (Hpos i Hi) as [Hc Ha]. apply Hnone in Hg.
  case_decide as Hd.
  - apply Hc. apply Hnone in Hd. congruence.
  - apply Ha; [done|]. by rewrite <- Hnone.
Qed.

Lemma scoreGuess_beyond_guess_end_witness :
  3 < WORD_LENGTH ∧ String.length "CAT" ≤ 3
  ∧ scoreGuess "CAT" "CATS" !! 3 = Some Absent
  ∧ scoreGuess "CAT" "CAT" !! 3 = Some Correct.
Proof.
  split; [unfold WORD_LENGTH; lia|]. split; [simpl; lia|]. split.
  - apply (scoreGuess_beyond_guess_end "CAT" "CATS" 3);
      [unfold WORD_LENGTH; lia | simpl; lia].
  - apply (scoreGuess_beyond_guess_end "CAT" "CAT" 3);
      [unfold WORD_LENGTH; lia | simpl; lia].
Defined.

(** ** Counting marks *)

Lemma occurrences_zero (c : ascii) (w : list ascii) :
  c ∉ w ↔ occurrences c w = 0.
Proof.
  rewrite <- occurrences_multiplicity, <- not_elem_of_multiplicity.
  by rewrite elem_of_list_to_set_disj.
Qed.

Lemma count_marked_none (P : LetterEval → bool) (c : ascii)
    (g : list ascii) (r : list LetterEval) :
  c ∉ g → count_marked P c g r = 0.
Proof.
  revert r. induction g as [|x g IH]; intros [|e r] Hc; simpl; try done.
  apply not_elem_of_cons in Hc as [Hne Hc].
  rewrite decide_False by done. by rewrite IH.
Qed.

Lemma count_marked_single (P : LetterEval → bool) (c : ascii)
    (g : list ascii) (r : list LetterEval) (i : nat) (e : LetterEval) :
  NoDup g → g !! i = Some c → r !! i = Some e →
  count_marked P c g r = if P e then 1 else 0.
Proof.
  revert r i. induction g as [|x g IH]; intros [|e' r] [|i] Hnd Hg Hr;
    simpl in *; try done; apply NoDup_cons in Hnd as [Hx Hnd].
  - simplify_eq. rewrite decide_True by done.
    rewrite count_marked_none by done. lia.
  - assert (c ∈ g) as Hc by (apply list_elem_of_lookup; eauto).
    rewrite decide_False by (intros ->; done).
    by rewrite (IH r i).
Qed.

Lemma occurrences_single (c : ascii) (g : list ascii) :
  NoDup g → c ∈ g → occurrences c g = 1.
Proof.
  induction g as [|x g IH]; intros Hnd Hc; [by apply elem_of_nil in Hc|].
  apply NoDup_cons in Hnd as [Hx Hnd]. simpl.
  destruct (decide (x = c)) as [->|Hne].
  - apply occurrences_zero in Hx. lia.
  - apply elem_of_cons in Hc as [->|Hc]; [done|]. rewrite IH by done. lia.
Qed.

(** X4. For 5-letter words, the positions of a letter that are marked
    present or correct are exactly as many as the letter's occurrences allow:
    the smaller of its count in the guess and its count in the answer.  No
    occurrence that the answer can still pay for is left absent. *)
Theorem scoreGuess_marks_exactly_min (guess answer : string) (L : ascii) :
  String.length guess = WORD_LENGTH → String.length answer = WORD_LENGTH →
  count_marked is_hit L (list_ascii_of_string guess) (scoreGuess guess answer)
  = occurrences L (list_ascii_of_string guess)
    `min` occurrences L (list_ascii_of_string answer).
Proof. intros Hg Ha. by apply scoreGuess_hits. Qed.

Lemma scoreGuess_marks_exactly_min_witness :
  String.length "SPEED" = WORD_LENGTH ∧ String.length "ERASE" = WORD_LENGTH
  ∧ count_marked is_hit "E" (list_ascii_of_string "SPEED")
      (scoreGuess "SPEED" "ERASE") = 2.
Proof.
  split; [reflexivity|]. split; [reflexivity|].
  exact (scoreGuess_marks_exactly_min "SPEED" "ERASE" "E" eq_refl eq_refl).
Defined.

(** X5. When no letter is repeated in a 5-letter guess, scoring against a
    5-letter answer is positional equality and membership: a position is
    correct if the answer has the same letter there, present if the answer
    has the letter elsewhere, absent if the answer lacks it. *)
Theorem scoreGuess_without_repeats (guess answer : string) (i : nat)
    (c : ascii) :
  String.length guess = WORD_LENGTH → String.length answer = WORD_LENGTH →
  NoDup (list_ascii_of_string guess) →
  String.get i guess = Some c →
  scoreGuess guess answer !! i
  = Some (if decide (String.get i answer = Some c) then Correct
          else if decide (c ∈ list_ascii_of_string answer) then Present
          else Absent).
Proof.
  intros Hg Ha Hnd Hi.
  assert (i < WORD_LENGTH) as Hlt.
  { rewrite get_lookup in Hi. apply lookup_lt_Some in Hi.
    by rewrite length_list_ascii, Hg in Hi. }
  destruct (scoreGuess_general guess answer) as (Hlen & Hsc & Hpos).
  destruct (Hpos i Hlt) as [Hc _].
  destruct (decide (String.get i answer = Some c)) as [Heq|Hne].
  { apply Hc. congruence. }
  destruct (lookup_lt_is_Some_2 (scoreGuess guess answer) i) as [e He]; [lia|].
  pose proof (scoreGuess_hits guess answer Hg Ha c) as Hh.
  rewrite get_lookup in Hi.
  rewrite (count_marked_single is_hit c _ _ i e Hnd Hi He) in Hh.
  rewrite (occurrences_single c _ Hnd) in Hh
    by (apply list_elem_of_lookup; eauto).
  rewrite He. f_equal.
  assert (e ≠ Correct) as Hnc.
  { intros ->. apply Hc in He. rewrite get_lookup, Hi in He. by apply Hne. }
  assert (scored e) as Hse by (eapply Forall_lookup_1; [exact Hsc | exact He]).
  destruct (decide (c ∈ list_ascii_of_string answer)) as [Hin|Hout].
  - assert (occurrences c (list_ascii_of_string answer) ≠ 0) as Hp
      by (by rewrite <- occurrences_zero; intros ?).
    destruct Hse as [->|[->| ->]]; cbn [is_hit] in Hh; try done; lia.
  - apply occurrences_zero in Hout. rewrite Hout in Hh.
    destruct Hse as [->|[->| ->]]; cbn [is_hit] in Hh; try done; lia.
Qed.

Lemma scoreGuess_without_repeats_witness :
  String.length "TRACE" = WORD_LENGTH ∧ String.length "CRANE" = WORD_LENGTH
  ∧ NoDup (list_ascii_of_string "TRACE")
  ∧ scoreGuess "TRACE" "CRANE" !! 3 = Some Present.
Proof.
  assert (NoDup (list_ascii_of_string "TRACE")) as Hnd
    by compute_done.
  split; [reflexivity|]. split; [reflexivity|]. split; [exact Hnd|].
  exact (scoreGuess_without_repeats "TRACE" "CRANE" 3 "C" eq_refl eq_refl Hnd
           eq_refl).
Defined.

(** ** The hint aggregator, further *)

Lemma forEach_hint_fold (guessLetters : list string)
    (scoredStates : list LetterEval) :
  ∀ (index : nat) (ks : gmap string LetterEval),
    forEach_hint index guessLetters scoredStates ks
    = foldl hint_step ks (hint_pairs guessLetters (drop index scoredStates)).
Proof.
  unfold hint_pairs.
  induction guessLetters as [|letter rest IH]; intros index ks; [done|].
  cbn [forEach_hint]. rewrite IH. unfold update_hint.
  destruct (scoredStates !! index) as [new|] eqn:Hnew.
  - rewrite (drop_S _ _ _ Hnew). cbn [fmap list_fmap zip zip_with foldl].
    f_equal.
  - apply lookup_ge_None in Hnew.
    rewrite !drop_ge by lia. cbn [fmap list_fmap].
    by destruct (toLowerCase <$> rest).
Qed.

Lemma updateKeyboardStates_fold (guessLetters : list string)
    (scoredStates : list LetterEval) (ks : gmap string LetterEval) :
  updateKeyboardStates guessLetters scoredStates ks
  = foldl hint_step ks (hint_pairs guessLetters scoredStates).
Proof. unfold updateKeyboardStates. by rewrite forEach_hint_fold, drop_0. Qed.

Lemma hint_step_other (ks : gmap string LetterEval) (p : string * LetterEval)
    (k : string) :
  p.1 ≠ k → hint_step ks p !! k = ks !! k.
Proof.
  intros Hne. unfold hint_step. destruct (ks !! p.1) as [cur|].
  - destruct (priority_gt _ _); [by rewrite lookup_insert_ne | done].
  - by rewrite lookup_insert_ne.
Qed.

Lemma hint_steps_other (pairs : list (string * LetterEval)) (k : string) :
  k ∉ pairs.*1 →
  ∀ ks : gmap string LetterEval, foldl hint_step ks pairs !! k = ks !! k.
Proof.
  induction pairs as [|p pairs IH]; intros Hk ks; [done|].
  rewrite fmap_cons in Hk. apply not_elem_of_cons in Hk as [Hne Hk].
  cbn [foldl]. rewrite IH by done. by apply hint_step_other.
Qed.

Lemma hint_pairs_keys (guessLetters : list string)
    (scoredStates : list LetterEval) (k : string) :
  k ∈ (hint_pairs guessLetters scoredStates).*1 →
  k ∈ toLowerCase <$> guessLetters.
Proof.
  unfold hint_pairs. intros Hk.
  apply list_elem_of_fmap in Hk as ([k' e] & -> & Hin).
  apply elem_of_zip_l in Hin. done.
Qed.

(** X6. [updateKeyboardStates] leaves alone the hint of every key other
    than the lowercased letters of the guess, and removes no hint: a key
    with a hint before the call has one after it. *)
Theorem updateKeyboardStates_frame (guessLetters : list string)
    (scoredStates : list LetterEval) (hints : gmap string LetterEval)
    (k : string) :
  (k ∉ toLowerCase <$> guessLetters →
   updateKeyboardStates guessLetters scoredStates hints !! k = hints !! k)
  ∧ (is_Some (hints !! k) →
     is_Some (updateKeyboardStates guessLetters scoredStates hints !! k)).
Proof.
  split.
  - intros Hk. rewrite updateKeyboardStates_fold.
    apply hint_steps_other. intros Hin. apply Hk.
    by eapply hint_pairs_keys.
  - intros [e He].
    pose proof (forEach_hint_moves_up guessLetters scoredStates k 0 hints)
      as Hup.
    unfold updateKeyboardStates, moves_up in *. rewrite He in Hup.
    destruct Hup as [->|[?|[? _]]]; eauto. done.
Qed.

Lemma hint_of_rank_rank (o : option LetterEval) :
  o ≠ Some Empty → hint_of_rank (rank o) = o.
Proof. by destruct o as [[]|]. Qed.

Lemma hint_pairs_scored (guessLetters : list string)
    (scoredStates : list LetterEval) :
  Forall scored scoredStates →
  Forall (λ p, scored p.2) (hint_pairs guessLetters scoredStates).
Proof.
  unfold hint_pairs. intros Hsc. apply Forall_forall. intros [k e] Hin.
  apply elem_of_zip_r in Hin. simpl. by eapply Forall_forall in Hsc.
Qed.

Lemma hint_step_rank (ks : gmap string LetterEval) (p : string * LetterEval)
    (k : string) :
  scored p.2 → ks !! k ≠ Some Empty →
  hint_step ks p !! k ≠ Some Empty
  ∧ rank (hint_step ks p !! k)
    = if decide (p.1 = k) then rank (ks !! k) `max` rank (Some p.2)
      else rank (ks !! k).
Proof.
  intros Hsc Hk. destruct (decide (p.1 = k)) as [<-|Hne].
  - unfold hint_step. destruct p as [k new]. cbn [fst snd] in *.
    destruct (ks !! k) as [cur|] eqn:Hcur.
    + destruct (priority_gt _ _) eqn:Hgt.
      * rewrite lookup_insert_eq.
        apply priority_gt_rank in Hgt.
        split; [destruct Hsc as [->|[->| ->]]; done | lia].
      * rewrite Hcur. split; [done|].
        destruct cur, Hsc as [->|[->| ->]]; try done;
          vm_compute in Hgt; try discriminate; simpl; lia.
    + rewrite lookup_insert_eq.
      split; [destruct Hsc as [->|[->| ->]]; done | simpl; lia].
  - by rewrite hint_step_other.
Qed.

Lemma hint_steps_rank (pairs : list (string * LetterEval)) (k : string) :
  Forall (λ p, scored p.2) pairs →
  ∀ ks : gmap string LetterEval,
    ks !! k ≠ Some Empty →
    foldl hint_step ks pairs !! k ≠ Some Empty
    ∧ rank (foldl hint_step ks pairs !! k)
      = rank (ks !! k) `max` best_rank k pairs.
Proof.
  induction 1 as [|p pairs Hp _ IH]; intros ks Hk.
  - simpl. split; [done | lia].
  - cbn [foldl best_rank].
    destruct (hint_step_rank ks p k Hp Hk) as [Hk' Hr].
    destruct (IH _ Hk') as [Hk'' Hr']. split; [done|].
    rewrite Hr', Hr. case_decide; lia.
Qed.

(** X7. After [updateKeyboardStates] with letters of one character each, as
    [[...guess]] yields them, and evaluations that are correct, present or
    absent, the hint of a one-character key is the best of what it was and
    of the evaluations the guess gave to that letter (none below absent
    below present below correct).  A hint ['empty'], which no call writes,
    is excluded. *)
Theorem updateKeyboardStates_keeps_best (guessLetters : list string)
    (scoredStates : list LetterEval) (hints : gmap string LetterEval)
    (k : string) :
  Forall (λ letter, String.length letter = 1) guessLetters →
  String.length k = 1 →
  Forall scored scoredStates → hints !! k ≠ Some Empty →
  updateKeyboardStates guessLetters scoredStates hints !! k
  = hint_of_rank (rank (hints !! k)
                  `max` best_rank k (hint_pairs guessLetters scoredStates)).
Proof.
  intros _ _ Hsc Hk. rewrite updateKeyboardStates_fold.
  destruct (hint_steps_rank _ k (hint_pairs_scored guessLetters _ Hsc)
              hints Hk) as [Hne Hr].
  rewrite <- Hr. by rewrite hint_of_rank_rank.
Qed.

Lemma updateKeyboardStates_keeps_best_witness :
  Forall (λ letter, String.length letter = 1) ["E"; "E"; "X"]
  ∧ Forall scored [Present; Correct; Absent]
  ∧ updateKeyboardStates ["E"; "E"; "X"] [Present; Correct; Absent]
      {["e" := Absent]} !! "e" = Some Correct.
Proof.
  assert (Forall (λ letter, String.length letter = 1) ["E"; "E"; "X"])
    as Hone by (repeat constructor).
  assert (Forall scored [Present; Correct; Absent]) as Hsc
    by (repeat constructor; unfold scored; auto).
  split; [exact Hone|]. split; [exact Hsc|].
  rewrite (updateKeyboardStates_keeps_best ["E"; "E"; "X"]
             [Present; Correct; Absent] {["e" := Absent]} "e" Hone eq_refl
             Hsc).
  - reflexivity.
  - rewrite lookup_singleton_eq. discriminate.
Defined.

Lemma priority_gt_irrefl (e : LetterEval) :
  priority_gt (statePriority e) (statePriority e) = false.
Proof. by destruct e. Qed.

Lemma settled_fixed (ks : gmap string LetterEval) (p : string * LetterEval) :
  settled ks p → hint_step ks p = ks.
Proof. intros (cur & Hcur & Hgt). unfold hint_step. by rewrite Hcur, Hgt. Qed.

Lemma hint_step_settles (ks : gmap string LetterEval)
    (p : string * LetterEval) :
  settled (hint_step ks p) p.
Proof.
  unfold settled, hint_step. destruct (ks !! p.1) as [cur|] eqn:Hcur.
  - destruct (priority_gt _ _) eqn:Hgt.
    + exists p.2. rewrite lookup_insert_eq. by rewrite priority_gt_irrefl.
    + by exists cur.
  - exists p.2. rewrite lookup_insert_eq. by rewrite priority_gt_irrefl.
Qed.

Lemma settled_stays (ks : gmap string LetterEval) (p q : string * LetterEval) :
  settled ks p → settled (hint_step ks q) p.
Proof.
  intros (cur & Hcur & Hgt). unfold settled.
  destruct (decide (q.1 = p.1)) as [Heq|Hne].
  - unfold hint_step. rewrite Heq, Hcur.
    destruct (priority_gt (statePriority q.2) _) eqn:Hq.
    + exists q.2. rewrite lookup_insert_eq. split; [done|].
      destruct p.2, q.2, cur; vm_compute in Hgt, Hq |- *; congruence.
    + by exists cur.
  - exists cur. by rewrite hint_step_other.
Qed.

Lemma hint_steps_settle (pairs : list (string * LetterEval)) :
  ∀ ks : gmap string LetterEval,
    (∀ p, p ∈ pairs ∨ settled ks p → settled (foldl hint_step ks pairs) p).
Proof.
  induction pairs as [|q pairs IH]; intros ks p Hp.
  - destruct Hp as [Hp|Hp]; [by apply elem_of_nil in Hp | done].
  - cbn [foldl]. apply IH. destruct Hp as [Hp|Hp].
    + apply elem_of_cons in Hp as [->|Hp]; [|by left].
      right. apply hint_step_settles.
    + right. by apply settled_stays.
Qed.

Lemma settled_all_fixed (pairs : list (string * LetterEval))
    (ks : gmap string LetterEval) :
  (∀ p, p ∈ pairs → settled ks p) → foldl hint_step ks pairs = ks.
Proof.
  induction pairs as [|q pairs IH]; intros Hall; [done|].
  cbn [foldl]. rewrite settled_fixed by (apply Hall; by left).
  apply IH. intros p Hp. apply Hall. by right.
Qed.

(** X8. [updateKeyboardStates] is idempotent: the same letters and
    evaluations applied a second time change nothing, whatever the hints and
    the evaluations are. *)
Theorem updateKeyboardStates_idempotent (guessLetters : list string)
    (scoredStates : list LetterEval) (hints : gmap string LetterEval) :
  updateKeyboardStates guessLetters scoredStates
    (updateKeyboardStates guessLetters scoredStates hints)
  = updateKeyboardStates guessLetters scoredStates hints.
Proof.
  rewrite !updateKeyboardStates_fold. apply settled_all_fixed.
  intros p Hp. apply hint_steps_settle. by left.
Qed.

Lemma hint_steps_empty (pairs : list (string * LetterEval)) (k : string) :
  ∀ ks : gmap string LetterEval,
    ks !! k = Some Empty → foldl hint_step ks pairs !! k = Some Empty.
Proof.
  induction pairs as [|p pairs IH]; intros ks Hk; [done|].
  cbn [foldl]. apply IH.
  destruct (decide (p.1 = k)) as [<-|Hne]; [|by rewrite hint_step_other].
  unfold hint_step. rewrite Hk.
  by destruct (statePriority p.2).
Qed.

(** X9. Two calls of [updateKeyboardStates] whose evaluations are correct,
    present or absent can be made in either order: the hints end up the
    same. *)
Theorem updateKeyboardStates_commute (letters1 letters2 : list string)
    (scored1 scored2 : list LetterEval) (hints : gmap string LetterEval) :
  Forall scored scored1 → Forall scored scored2 →
  updateKeyboardStates letters2 scored2
    (updateKeyboardStates letters1 scored1 hints)
  = updateKeyboardStates letters1 scored1
      (updateKeyboardStates letters2 scored2 hints).
Proof.
  intros H1 H2. rewrite !updateKeyboardStates_fold. apply map_eq. intros k.
  pose proof (hint_pairs_scored letters1 _ H1) as Hp1.
  pose proof (hint_pairs_scored letters2 _ H2) as Hp2.
  destruct (decide (hints !! k = Some Empty)) as [He|Hne].
  - by rewrite !hint_steps_empty by (by apply hint_steps_empty).
  - destruct (hint_steps_rank _ k Hp1 hints Hne) as [Hn1 Hr1].
    destruct (hint_steps_rank _ k Hp2 hints Hne) as [Hn2 Hr2].
    destruct (hint_steps_rank _ k Hp2 _ Hn1) as [Hn12 Hr12].
    destruct (hint_steps_rank _ k Hp1 _ Hn2) as [Hn21 Hr21].
    rewrite <- (hint_of_rank_rank _ Hn12), <- (hint_of_rank_rank _ Hn21).
    f_equal. lia.
Qed.

Lemma updateKeyboardStates_commute_witness :
  Forall scored [Present] ∧ Forall scored [Correct]
  ∧ updateKeyboardStates ["A"] [Correct]
      (updateKeyboardStates ["A"] [Present] ∅)
    = updateKeyboardStates ["A"] [Present]
        (updateKeyboardStates ["A"] [Correct] ∅).
Proof.
  assert (Forall scored [Present]) as H1
    by (repeat constructor; unfold scored; auto).
  assert (Forall scored [Correct]) as H2
    by (repeat constructor; unfold scored; auto).
  split; [exact H1|]. split; [exact H2|].
  exact (updateKeyboardStates_commute ["A"] ["A"] [Present] [Correct] ∅ H1 H2).
Defined.

(** ** Keys *)

Lemma lower_ascii_idem (c : ascii) : lower_ascii (lower_ascii c) = lower_ascii c.
Proof. destruct c as [[] [] [] [] [] [] [] []]; reflexivity. Qed.

Lemma toLowerCase_idem (s : string) : toLowerCase (toLowerCase s) = toLowerCase s.
Proof.
  unfold toLowerCase. induction s as [|c s IH]; simpl; [done|].
  by rewrite lower_ascii_idem, IH.
Qed.

Lemma is_letter_key_lower (key : string) :
  is_letter_key (toLowerCase key) = is_letter_key key.
Proof.
  destruct key as [|c [|d key]]; try done.
  destruct c as [[] [] [] [] [] [] [] []]; reflexivity.
Qed.

Lemma toUpperCase_lower (key : string) :
  is_letter_key key = true →
  toUpperCase (toLowerCase key) = toUpperCase key.
Proof.
  destruct key as [|c [|d key]]; try done.
  destruct c as [[] [] [] [] [] [] [] []]; intros H; try discriminate H;
    reflexivity.
Qed.

Lemma handleKeyInput_lower (isValidGuess : string → bool) (v : Source)
    (key : string) (w : World) :
  handleKeyInput isValidGuess v (toLowerCase key) w
  = handleKeyInput isValidGuess v key w.
Proof.
  unfold handleKeyInput. rewrite is_letter_key_lower, toLowerCase_idem.
  destruct (is_letter_key key) eqn:Hl; [|done].
  by rewrite toUpperCase_lower.
Qed.

(** X10. [handleKeyInput] does not depend on the case of its key: a key and
    its lowercase form are handled alike (a letter is stored in upper case,
    [Backspace] and [Enter] are compared in lower case).  A physical key is
    either ignored, when it is not a letter, [Enter] or [Backspace], or
    handled as the on-screen key of the same name. *)
Theorem keys_are_case_insensitive (isValidGuess : string → bool) (v : Source)
    (key : string) (w : World) :
  handleKeyInput isValidGuess v (toLowerCase key) w
  = handleKeyInput isValidGuess v key w
  ∧ onPhysicalKeydown isValidGuess v key w
    = (if is_letter_key key || bool_decide (key = "Enter")
          || bool_decide (key = "Backspace")
       then handleKeyInput isValidGuess v key w
       else Returns w)
  ∧ onPhysicalKeydown isValidGuess v "Enter" w
    = handleKeyInput isValidGuess v "enter" w
  ∧ onPhysicalKeydown isValidGuess v "Backspace" w
    = handleKeyInput isValidGuess v "backspace" w
  ∧ onPhysicalKeydown isValidGuess v "Shift" w = Returns w.
Proof.
  split; [apply handleKeyInput_lower|]. split; [|done].
  unfold onPhysicalKeydown. by rewrite handleKeyInput_lower.
Qed.

(** ** The picture that the handlers keep *)

Lemma typed_row_blank : typed_row 0 (replicate WORD_LENGTH EmptyString).
Proof.
  split; [by rewrite length_replicate|]. intros i cell Hi.
  apply lookup_replicate in Hi as [-> _]. by rewrite decide_False by lia.
Qed.

Lemma typed_row_set (n m : nat) (cell : string) (row : list string) :
  typed_row n row → m < WORD_LENGTH →
  (∀ i, i ≠ m → (i < n ↔ i < (if decide (cell = EmptyString) then m else S m))) →
  (cell = EmptyString ∨ upper_letter_cell cell = true) →
  typed_row (if decide (cell = EmptyString) then m else S m)
    (js_set EmptyString m cell row).
Proof.
  intros [Hlen Hcells] Hm Hiff Hcell.
  rewrite js_set_in_range by lia. split; [by rewrite length_insert|].
  intros i c Hi. destruct (decide (i = m)) as [->|Hne].
  - rewrite list_lookup_insert_eq in Hi by lia. injection Hi as <-.
    destruct (decide (cell = EmptyString)) as [->|Hc].
    + by rewrite decide_False by lia.
    + rewrite decide_True by lia. by destruct Hcell.
  - rewrite list_lookup_insert_ne in Hi by done.
    specialize (Hcells i c Hi). specialize (Hiff i Hne).
    destruct (decide (i < n)) as [Hin|Hin].
    + by rewrite decide_True by (by apply Hiff).
    + rewrite decide_False; [done|]. intros ?. by apply Hin, Hiff.
Qed.

Lemma upper_letter_cell_key (key : string) :
  is_letter_key key = true → upper_letter_cell (toUpperCase key) = true.
Proof.
  destruct key as [|c [|d key]]; try done.
  destruct c as [[] [] [] [] [] [] [] []]; intros H; try discriminate H;
    reflexivity.
Qed.

Lemma upper_letter_cell_not_empty (cell : string) :
  upper_letter_cell cell = true → cell ≠ EmptyString.
Proof. by destruct cell. Qed.

(** A full row spells a word of five letters, and spreads back into its
    cells. *)
Lemma typed_row_full (row : list string) :
  typed_row WORD_LENGTH row →
  String.length (join row) = WORD_LENGTH ∧ spread (join row) = row.
Proof.
  intros [Hlen Hcells].
  assert (Forall (λ cell, upper_letter_cell cell = true) row) as Hall.
  { apply Forall_lookup. intros i cell Hi. specialize (Hcells i cell Hi).
    apply lookup_lt_Some in Hi. by rewrite decide_True in Hcells by lia. }
  clear Hcells.
  enough (String.length (join row) = length row ∧ spread (join row) = row)
    as [H1 H2] by (by rewrite H1, Hlen).
  clear Hlen.
  induction Hall as [|cell row Hcell _ [IH1 IH2]]; [done|].
  destruct cell as [|c [|d cell]]; try done.
  unfold spread in *. simpl in *. rewrite string_nil_app.
  split; [by rewrite IH1|]. f_equal. exact IH2.
Qed.

Lemma hints_of_rows_snoc (word : string) (rows : list (list string))
    (row : list string) :
  hints_of_rows word (rows ++ [row])
  = updateKeyboardStates (spread (join row)) (scoreGuess (join row) word)
      (hints_of_rows word rows).
Proof. unfold hints_of_rows, update_all. by rewrite fmap_app, foldl_app. Qed.

Section Picture.
Variable isValidGuess : string → bool.
Variable v : Source.

Lemma well_formed_created (word : string) :
  well_formed isValidGuess v (createNewState word).
Proof.
  unfold well_formed, createNewState, evaluated.
  cbn [answer guesses evaluations currentRow currentCol status keyStates].
  rewrite !length_replicate.
  split; [done|]. split; [done|]. split; [lia|].
  split; [unfold MAX_ROWS; lia|]. split; [done|]. split; [done|].
  split; [|done].
  intros r row Hr. apply lookup_replicate in Hr as [-> Hr].
  rewrite decide_False by lia. rewrite lookup_replicate_2 by done.
  split; [done|]. case_decide; apply typed_row_blank.
Qed.

Lemma well_formed_developerMode (d : bool) (s : GameState) :
  well_formed isValidGuess v s →
  well_formed isValidGuess v (set_developerMode d s).
Proof. done. Qed.

(** Rewriting the current row of an active game. *)
Lemma well_formed_edit_row (s : GameState) (row' : list string) (col' : nat) :
  well_formed isValidGuess v s → status s = Active →
  col' ≤ WORD_LENGTH → typed_row col' row' →
  well_formed isValidGuess v
    (set_currentCol col' (set_guesses (<[currentRow s := row']> (guesses s)) s)).
Proof.
  intros (Hg & He & Hcol & Hact & Hwon & Hlost & Hrows & Hks) Hst Hcol' Hrow'.
  specialize (Hact Hst).
  unfold well_formed, evaluated in *.
  cbn [set_currentCol set_guesses answer guesses evaluations currentRow
       currentCol status keyStates].
  rewrite Hst in *. rewrite length_insert.
  split; [done|]. split; [done|]. split; [done|].
  split; [done|]. split; [done|]. split; [done|]. split.
  - intros r row Hr. destruct (decide (r = currentRow s)) as [->|Hne].
    + rewrite list_lookup_insert_eq in Hr by lia. injection Hr as <-.
      rewrite decide_False by lia. try rewrite decide_True by done.
      destruct (lookup_lt_is_Some_2 (guesses s) (currentRow s)) as [row0 H0];
        [lia|].
      specialize (Hrows _ _ H0). rewrite decide_False in Hrows by lia.
      by destruct Hrows as [-> _].
    + rewrite list_lookup_insert_ne in Hr by done.
      specialize (Hrows _ _ Hr).
      destruct (decide (r < currentRow s)); [done|].
      by rewrite decide_False in * by done.
  - by rewrite take_insert_ge by lia.
Qed.
(** Scoring the full current row of an active game, with each of the three
    outcomes of [submitGuess]. *)
Lemma well_formed_scored (s : GameState) (row : list string) (st' : Status)
    (cr' col' : nat) :
  well_formed isValidGuess v s → status s = Active →
  currentCol s = WORD_LENGTH → guesses s !! currentRow s = Some row →
  isValidGuess (join row) = true → (v = GameJs → join row ≠ "ASDEV") →
  (st' = Won ∧ cr' = currentRow s ∧ col' = WORD_LENGTH ∧ join row = answer s)
  ∨ (join row ≠ answer s ∧ cr' = currentRow s + 1 ∧ col' = 0
     ∧ if decide (MAX_ROWS ≤ cr') then st' = Lost else st' = Active) →
  well_formed isValidGuess v
    (mkState (answer s) (guesses s)
       (<[currentRow s := scoreGuess (join row) (answer s)]> (evaluations s))
       cr' col' st'
       (updateKeyboardStates (spread (join row))
          (scoreGuess (join row) (answer s)) (keyStates s))
       (developerMode s)).
Proof.
  intros (Hg & He & Hcol & Hact & Hwon & Hlost & Hrows & Hks) Hst Hfull Hrow
    Hvalid Hdev Hcase.
  specialize (Hact Hst). clear Hwon Hlost.
  unfold well_formed, evaluated in *.
  cbn [answer guesses evaluations currentRow currentCol status keyStates].
  rewrite Hst in *. rewrite length_insert.
  assert (match st' with Won => cr' + 1 | Active | Lost => cr' end
          = currentRow s + 1) as ->.
  { destruct Hcase as [(-> & -> & _)|(_ & -> & _ & Hst')]; [done|].
    case_decide; by subst st'. }
  assert (cr' ≤ MAX_ROWS ∧ currentRow s ≤ cr' ∧ col' ≤ WORD_LENGTH) as Hcr'.
  { destruct Hcase as [(_ & -> & -> & _)|(_ & -> & -> & _)]; lia. }
  split; [done|]. split; [done|]. split; [lia|]. split.
  { intros ->. destruct Hcase as [(? & _)|(_ & -> & _ & Hst')]; [done|].
    case_decide; [done|lia]. }
  split.
  { intros ->. destruct Hcase as [(_ & -> & -> & _)|(_ & -> & _ & Hst')];
      [done|]. by case_decide. }
  split.
  { intros ->. destruct Hcase as [(? & _)|(_ & -> & -> & Hst')]; [done|].
    case_decide; [lia|done]. }
  split.
  - intros r row2 Hr. pose proof (Hrows _ _ Hr) as Hold.
    destruct (decide (r < currentRow s + 1)) as [Hlt|Hge].
    + destruct (decide (r = currentRow s)) as [->|Hne].
      * rewrite decide_False in Hold by lia.
        assert (row2 = row) as -> by congruence.
        rewrite Hfull in Hold. destruct Hold as [_ Htyped].
        rewrite list_lookup_insert_eq by lia.
        split; [done|]. split; [done|]. split; [done|]. split; [done|].
        destruct Hcase as [(-> & -> & _ & Heq)|(Hneq & -> & _ & Hst')].
        -- done.
        -- split; [done|]. intros [_ ?]. lia.
      * rewrite decide_True in Hold by lia.
        destruct Hold as (? & ? & ? & ? & Hiff).
        rewrite list_lookup_insert_ne by done.
        split; [done|]. split; [done|]. split; [done|]. split; [done|].
        split; [intros Heq; by apply Hiff in Heq as [? _]|].
        intros [_ ->]. lia.
    + rewrite decide_False in Hold by lia.
      rewrite decide_False in Hold by lia. destruct Hold as [? Htyped].
      rewrite list_lookup_insert_ne by lia. split; [done|].
      destruct Hcase as [(_ & -> & _)|(_ & _ & -> & _)].
      * by rewrite decide_False by lia.
      * by case_decide.
  - rewrite Nat.add_1_r. rewrite (take_S_r _ _ _ Hrow).
    by rewrite hints_of_rows_snoc, Hks.
Qed.

(** One key event keeps the picture, and is handled without an error. *)
Lemma well_formed_key (key : string) (w : World) :
  well_formed isValidGuess v (state w) →
  ∃ w', handleKeyInput isValidGuess v key w = Returns w'
        ∧ well_formed isValidGuess v (state w').
Proof.
  intros Hwf. pose proof Hwf as (Hg & He & Hcol & Hact & _ & _ & Hrows & _).
  unfold handleKeyInput. cbn zeta.
  case_decide as Hst; [by eexists|].
  specialize (Hact Hst).
  destruct (lookup_lt_is_Some_2 (guesses (state w)) (currentRow (state w)))
    as [row Hrow]; [lia|].
  pose proof (Hrows _ _ Hrow) as Hcur. unfold evaluated in Hcur.
  rewrite Hst in Hcur. rewrite decide_False in Hcur by lia.
  rewrite decide_True in Hcur by done. destruct Hcur as [Heval Htyped].
  destruct (is_letter_key key) eqn:Hletter.
  { case_decide as Hroom; [|by eexists]. rewrite Hrow.
    eexists; split; [done|]. cbn [state].
    apply (well_formed_edit_row (state w)); [done|done|
      cbn [set_guesses currentCol]; lia|].
    cbn [set_guesses currentCol].
    pose proof (upper_letter_cell_key key Hletter) as Hup.
    pose proof (typed_row_set (currentCol (state w)) (currentCol (state w))
                  (toUpperCase key) row Htyped Hroom) as Hset.
    rewrite decide_False in Hset by (by apply upper_letter_cell_not_empty).
    rewrite Nat.add_1_r. apply Hset; [lia|by right]. }
  case_decide as Hback.
  { case_decide as Hpos; [|by eexists].
    cbn [set_currentCol currentRow guesses currentCol]. rewrite Hrow.
    eexists; split; [done|]. cbn [state].
    apply (well_formed_edit_row (state w)); cbn [set_currentCol currentCol];
      [done|done|lia|].
    pose proof (typed_row_set (currentCol (state w))
                  (currentCol (state w) - 1) EmptyString row Htyped) as Hset.
    rewrite decide_True in Hset by done.
    apply Hset; [lia|lia|by left]. }
  case_decide as Henter; [|by eexists].
  unfold submitGuess. cbn zeta.
  case_decide as Hshort; [by eexists|]. rewrite Hrow.
  assert (currentCol (state w) = WORD_LENGTH) as Hfull by lia.
  destruct (bool_decide (v = GameJs) && bool_decide (join row = "ASDEV"))
    eqn:Hdev.
  { eexists; split; [done|]. unfold toggleDeveloperMode. cbn [state].
    cbn [set_developerMode set_guesses set_evaluations currentRow guesses
         evaluations].
    rewrite !js_set_in_range by lia.
    rewrite (list_insert_id (evaluations (state w))) by done.
    apply (well_formed_edit_row
             (set_developerMode (negb (developerMode (state w))) (state w)));
      [done|done|lia|apply typed_row_blank]. }
  destruct (isValidGuess (join row)) eqn:Hvalid; [|by eexists].
  cbn [negb]. cbn [set_evaluations set_keyStates answer keyStates currentRow
                   evaluations].
  rewrite js_set_in_range by lia.
  assert (v = GameJs → join row ≠ "ASDEV") as Hnodev.
  { intros -> Heq. rewrite Heq in Hdev. done. }
  destruct (decide (join row = answer (state w))) as [Hwin|Hwin].
  { eexists; split; [done|]. cbn [state].
    apply (well_formed_scored (state w) row Won (currentRow (state w))
             (currentCol (state w))); try done.
    by left. }
  cbn [set_currentCol set_currentRow currentRow].
  destruct (decide (MAX_ROWS ≤ currentRow (state w) + 1)) as [Hend|Hend].
  - eexists; split; [done|]. cbn [state].
    apply (well_formed_scored (state w) row Lost (currentRow (state w) + 1) 0);
      try done.
    right. split; [done|]. split; [done|]. split; [done|].
    by rewrite decide_True by done.
  - eexists; split; [done|]. cbn [state].
    apply (well_formed_scored (state w) row (status (state w))
             (currentRow (state w) + 1) 0); try done.
    right. split; [done|]. split; [done|]. split; [done|].
    by rewrite decide_False by done.
Qed.

Lemma well_formed_run (keys : list string) (w : World) :
  well_formed isValidGuess v (state w) →
  well_formed isValidGuess v (state (run isValidGuess v keys w)).
Proof.
  revert w. induction keys as [|key keys IH]; intros w Hwf; [done|].
  destruct (well_formed_key key w Hwf) as (w' & Hw' & Hwf').
  unfold run. cbn [foldl]. rewrite Hw'. by apply IH.
Qed.

Lemma reachable_well_formed (w : World) :
  reachable isValidGuess v w → well_formed isValidGuess v (state w).
Proof.
  induction 1.
  all: try (by apply well_formed_created).
  all: try done.
  - by destruct (well_formed_key key w IHreachable) as (w' & -> & Hwf').
Qed.
End Picture.

Lemma scoreGuess_self (word : string) :
  scoreGuess word word = replicate WORD_LENGTH Correct.
Proof.
  destruct (scoreGuess_general word word) as (Hl & _ & Hpos).
  apply list_eq. intros i.
  destruct (decide (i < WORD_LENGTH)) as [Hi|Hi].
  - rewrite lookup_replicate_2 by done. by apply Hpos.
  - rewrite !lookup_ge_None_2; [done | |]; rewrite ?length_replicate; lia.
Qed.

Lemma update_all_fold (updates : list (list string * list LetterEval)) :
  ∀ ks : gmap string LetterEval,
    update_all updates ks
    = foldl hint_step ks (mjoin ((λ u, hint_pairs u.1 u.2) <$> updates)).
Proof.
  unfold update_all.
  induction updates as [|u updates IH]; intros ks; [done|].
  cbn [foldl fmap list_fmap mjoin list_join].
  by rewrite IH, foldl_app, updateKeyboardStates_fold.
Qed.

Section Play.
Variable isValidGuess : string → bool.
Variable v : Source.

Lemma reachable_run (keys : list string) (w : World) :
  reachable isValidGuess v w → reachable isValidGuess v (run isValidGuess v keys w).
Proof.
  revert w. induction keys as [|key keys IH]; intros w Hw; [done|].
  unfold run. cbn [foldl]. apply IH. by constructor.
Qed.

(** X11. No key event raises an error in a world the game can be in:
    [handleKeyInput] and [submitGuess] index [state.guesses[currentRow]]
    only while that row exists, and the world after the event is again one
    the game can be in. *)
Theorem reachable_keys_never_throw (key : string) (w : World) :
  reachable isValidGuess v w →
  ∃ w', handleKeyInput isValidGuess v key w = Returns w'
        ∧ reachable isValidGuess v w'.
Proof.
  intros Hw.
  destruct (well_formed_key isValidGuess v key w
              (reachable_well_formed isValidGuess v w Hw)) as (w' & Hw' & _).
  exists w'. split; [done|].
  replace w' with (world_of (handleKeyInput isValidGuess v key w))
    by (by rewrite Hw').
  by constructor.
Qed.

(** X12. The cursor of a game: there are always six rows of guesses and of
    evaluations, the column is at most 5 and the row at most 6; the row is 6
    exactly when the game is lost, and then the column is 0; a won game
    stands at the end of its winning row. *)
Theorem reachable_cursor_bounds (w : World) :
  reachable isValidGuess v w →
  length (guesses (state w)) = MAX_ROWS
  ∧ length (evaluations (state w)) = MAX_ROWS
  ∧ currentCol (state w) ≤ WORD_LENGTH
  ∧ currentRow (state w) ≤ MAX_ROWS
  ∧ (status (state w) = Lost ↔ currentRow (state w) = MAX_ROWS)
  ∧ (status (state w) = Lost → currentCol (state w) = 0)
  ∧ (status (state w) = Won → currentCol (state w) = WORD_LENGTH).
Proof.
  intros Hw.
  destruct (reachable_well_formed isValidGuess v w Hw)
    as (Hg & He & Hcol & Hact & Hwon & Hlost & _ & _).
  split; [done|]. split; [done|]. split; [done|].
  destruct (status (state w)) eqn:Hst.
  - specialize (Hact eq_refl). split; [lia|]. split; [|done].
    split; [done|lia].
  - destruct (Hwon eq_refl) as [? ?]. split; [lia|]. split; [|done].
    split; [done|lia].
  - destruct (Hlost eq_refl) as [? ?]. split; [lia|]. done.
Qed.

(** X13. The cells of the grid: every row has five cells; a cell holds one
    uppercase letter if its row has been evaluated or it lies before the
    cursor in the current row, and is empty otherwise; and a row that has
    not been evaluated has the evaluation [empty] five times. *)
Theorem reachable_grid_cells (w : World) (r : nat) (row : list string) :
  reachable isValidGuess v w →
  guesses (state w) !! r = Some row →
  length row = WORD_LENGTH
  ∧ (∀ i cell, row !! i = Some cell →
       if decide (r < evaluated (state w)
                  ∨ (r = currentRow (state w) ∧ i < currentCol (state w)))
       then upper_letter_cell cell = true else cell = EmptyString)
  ∧ (evaluated (state w) ≤ r →
     evaluations (state w) !! r = Some (replicate WORD_LENGTH Empty)).
Proof.
  intros Hw Hrow.
  destruct (reachable_well_formed isValidGuess v w Hw)
    as (_ & _ & _ & _ & _ & _ & Hrows & _).
  specialize (Hrows r row Hrow).
  destruct (decide (r < evaluated (state w))) as [Hlt|Hge].
  - destruct Hrows as ([Hlen Hcells] & _). split; [done|]. split; [|lia].
    intros i cell Hi. rewrite decide_True by (by left).
    specialize (Hcells i cell Hi). apply lookup_lt_Some in Hi.
    by rewrite decide_True in Hcells by lia.
  - destruct Hrows as (Hev & [Hlen Hcells]). split; [done|]. split; [|done].
    intros i cell Hi. specialize (Hcells i cell Hi).
    destruct (decide (r = currentRow (state w))) as [Heq|Hne].
    + destruct (decide (i < currentCol (state w))).
      * by rewrite decide_True by (by right).
      * rewrite decide_False; [done|]. intros [?|[_ ?]]; done.
    + rewrite decide_False in Hcells by lia.
      rewrite decide_False; [done|]. intros [?|[? _]]; done.
Qed.

(** X14. Every evaluated row of a game holds a word of five letters that
    the Word Source accepted (and that, in game.js, is not the developer
    command), and its evaluation is the one [scoreGuess] gives for that word
    against the answer. *)
Theorem reachable_rows_are_scored_guesses (w : World) (r : nat) :
  reachable isValidGuess v w → r < evaluated (state w) →
  ∃ row, guesses (state w) !! r = Some row
         ∧ String.length (join row) = WORD_LENGTH
         ∧ spread (join row) = row
         ∧ isValidGuess (join row) = true
         ∧ (v = GameJs → join row ≠ "ASDEV")
         ∧ evaluations (state w) !! r
           = Some (scoreGuess (join row) (answer (state w))).
Proof.
  intros Hw Hr.
  pose proof (reachable_well_formed isValidGuess v w Hw) as Hwf.
  pose proof Hwf as (Hg & _ & _ & Hact & Hwon & Hlost & Hrows & _).
  assert (r < MAX_ROWS) as Hr6.
  { unfold evaluated in Hr. destruct (status (state w)).
    - specialize (Hact eq_refl). lia.
    - destruct (Hwon eq_refl). lia.
    - destruct (Hlost eq_refl). lia. }
  destruct (lookup_lt_is_Some_2 (guesses (state w)) r) as [row Hrow]; [lia|].
  specialize (Hrows r row Hrow). rewrite decide_True in Hrows by done.
  destruct Hrows as (Htyped & Hvalid & Hdev & Hev & _).
  destruct (typed_row_full row Htyped) as [Hlen Hspread].
  by exists row.
Qed.

(** X15. A game is won exactly when one of its evaluated rows spells the
    answer; that row is then the current row, and its evaluation is
    [correct] five times. *)
Theorem reachable_won_iff_answer_row (w : World) :
  reachable isValidGuess v w →
  (status (state w) = Won
   ↔ ∃ r row, r < evaluated (state w) ∧ guesses (state w) !! r = Some row
              ∧ join row = answer (state w))
  ∧ (∀ r row, r < evaluated (state w) → guesses (state w) !! r = Some row →
              join row = answer (state w) →
              r = currentRow (state w)
              ∧ evaluations (state w) !! r
                = Some (replicate WORD_LENGTH Correct)).
Proof.
  intros Hw.
  pose proof (reachable_well_formed isValidGuess v w Hw) as Hwf.
  pose proof Hwf as (Hg & _ & _ & _ & Hwon & _ & Hrows & _).
  split; [split|].
  - intros Hst. destruct (Hwon Hst) as [Hcr _].
    destruct (lookup_lt_is_Some_2 (guesses (state w)) (currentRow (state w)))
      as [row Hrow]; [lia|].
    exists (currentRow (state w)), row.
    assert (currentRow (state w) < evaluated (state w)) as Hlt
      by (unfold evaluated; rewrite Hst; lia).
    split; [done|]. split; [done|].
    specialize (Hrows _ _ Hrow). rewrite decide_True in Hrows by done.
    destruct Hrows as (_ & _ & _ & _ & Hiff). by apply Hiff.
  - intros (r & row & Hr & Hrow & Heq).
    specialize (Hrows _ _ Hrow). rewrite decide_True in Hrows by done.
    destruct Hrows as (_ & _ & _ & _ & Hiff). by apply Hiff in Heq as [? _].
  - intros r row Hr Hrow Heq.
    specialize (Hrows _ _ Hrow). rewrite decide_True in Hrows by done.
    destruct Hrows as (_ & _ & _ & Hev & Hiff).
    apply Hiff in Heq as Hcur. destruct Hcur as [_ ->]. split; [done|].
    by rewrite Hev, Heq, scoreGuess_self.
Qed.

Lemma reachable_keyboard_rank (w : World) (k : string) :
  reachable isValidGuess v w →
  keyStates (state w) !! k
  = hint_of_rank (best_rank k (played_pairs (state w))).
Proof.
  intros Hw.
  destruct (reachable_well_formed isValidGuess v w Hw)
    as (_ & _ & _ & _ & _ & _ & _ & Hks).
  rewrite Hks. unfold hints_of_rows, played_pairs.
  rewrite update_all_fold. rewrite <- list_fmap_compose.
  unfold compose. cbn [fst snd].
  set (pairs := mjoin _).
  assert (Forall (λ p, scored p.2) pairs) as Hsc.
  { unfold pairs. apply Forall_forall. intros p Hp.
    apply list_elem_of_join in Hp as (ps & Hp & Hps).
    apply list_elem_of_fmap in Hps as (row & -> & _).
    eapply (Forall_forall (λ p, scored p.2)); [|exact Hp].
    apply hint_pairs_scored.
    by destruct (scoreGuess_general (join row) (answer (state w)))
      as (_ & ? & _). }
  destruct (hint_steps_rank pairs k Hsc ∅) as [Hne Hrank];
    [by rewrite lookup_empty|].
  rewrite lookup_empty in Hrank. cbn [rank] in Hrank.
  rewrite Nat.max_0_l in Hrank. rewrite <- Hrank.
  by rewrite hint_of_rank_rank.
Qed.

(** X16. The keyboard shows, for every key, the best evaluation that the
    key's letter received in the rows evaluated so far (correct over present
    over absent), and no hint for a letter that was never played. *)
Theorem reachable_keyboard_is_best_evaluation (w : World) (k : string) :
  reachable isValidGuess v w →
  keyStates (state w) !! k
  = hint_of_rank (best_rank k (played_pairs (state w))).
Proof. apply reachable_keyboard_rank. Qed.
End Play.

Lemma reachable_keys_never_throw_witness :
  reachable sample_isValidGuess GameJs slate_typed
  ∧ ∃ w', handleKeyInput sample_isValidGuess GameJs "enter" slate_typed
          = Returns w'
          ∧ reachable sample_isValidGuess GameJs w'.
Proof.
  assert (reachable sample_isValidGuess GameJs slate_typed) as Hw
    by apply reachable_run, reach_created.
  split; [exact Hw|].
  exact (reachable_keys_never_throw sample_isValidGuess GameJs "enter"
           slate_typed Hw).
Defined.

Lemma reachable_cursor_bounds_witness :
  reachable sample_isValidGuess GameJs crane_won
  ∧ currentCol (state crane_won) ≤ WORD_LENGTH
  ∧ (status (state crane_won) = Won →
     currentCol (state crane_won) = WORD_LENGTH).
Proof.
  assert (reachable sample_isValidGuess GameJs crane_won) as Hw
    by apply reachable_run, reach_created.
  split; [exact Hw|].
  destruct (reachable_cursor_bounds sample_isValidGuess GameJs crane_won Hw)
    as (_ & _ & Hcol & _ & _ & _ & Hwon).
  split; [exact Hcol | exact Hwon].
Defined.

Lemma reachable_grid_cells_witness :
  reachable sample_isValidGuess GameJs slate_then_cr
  ∧ guesses (state slate_then_cr) !! 1
    = Some ["C"; "R"; EmptyString; EmptyString; EmptyString]
  ∧ length ["C"; "R"; EmptyString; EmptyString; EmptyString] = WORD_LENGTH
  ∧ (evaluated (state slate_then_cr) ≤ 1 →
     evaluations (state slate_then_cr) !! 1
     = Some (replicate WORD_LENGTH Empty)).
Proof.
  assert (reachable sample_isValidGuess GameJs slate_then_cr) as Hw
    by apply reachable_run, reach_created.
  split; [exact Hw|]. split; [reflexivity|].
  destruct (reachable_grid_cells sample_isValidGuess GameJs slate_then_cr 1
              ["C"; "R"; EmptyString; EmptyString; EmptyString] Hw eq_refl)
    as (Hlen & _ & Hev).
  split; [exact Hlen | exact Hev].
Defined.

Lemma reachable_rows_are_scored_guesses_witness :
  reachable sample_isValidGuess GameJs slate_then_cr
  ∧ 0 < evaluated (state slate_then_cr)
  ∧ ∃ row, guesses (state slate_then_cr) !! 0 = Some row
           ∧ sample_isValidGuess (join row) = true
           ∧ evaluations (state slate_then_cr) !! 0
             = Some (scoreGuess (join row) (answer (state slate_then_cr))).
Proof.
  assert (reachable sample_isValidGuess GameJs slate_then_cr) as Hw
    by apply reachable_run, reach_created.
  assert (0 < evaluated (state slate_then_cr)) as Hr by (vm_compute; lia).
  split; [exact Hw|]. split; [exact Hr|].
  destruct (reachable_rows_are_scored_guesses sample_isValidGuess GameJs
              slate_then_cr 0 Hw Hr)
    as (row & Hrow & _ & _ & Hvalid & _ & Hev).
  exists row. split; [exact Hrow|]. split; [exact Hvalid | exact Hev].
Defined.

Lemma reachable_won_iff_answer_row_witness :
  reachable sample_isValidGuess GameJs crane_won
  ∧ (status (state crane_won) = Won
     ↔ ∃ r row, r < evaluated (state crane_won)
                ∧ guesses (state crane_won) !! r = Some row
                ∧ join row = answer (state crane_won)).
Proof.
  assert (reachable sample_isValidGuess GameJs crane_won) as Hw
    by apply reachable_run, reach_created.
  split; [exact Hw|].
  exact (proj1 (reachable_won_iff_answer_row sample_isValidGuess GameJs
                  crane_won Hw)).
Defined.

Lemma reachable_keyboard_is_best_evaluation_witness :
  reachable sample_isValidGuess GameJs slate_then_cr
  ∧ keyStates (state slate_then_cr) !! "a"
    = hint_of_rank (best_rank "a" (played_pairs (state slate_then_cr))).
Proof.
  assert (reachable sample_isValidGuess GameJs slate_then_cr) as Hw
    by apply reachable_run, reach_created.
  split; [exact Hw|].
  exact (reachable_keyboard_is_best_evaluation sample_isValidGuess GameJs
           slate_then_cr "a" Hw).
Defined.

(** ** Typing *)

Lemma state_eta (s : GameState) :
  mkState (answer s) (guesses s) (evaluations s) (currentRow s) (currentCol s)
    (status s) (keyStates s) (developerMode s) = s.
Proof. by destruct s. Qed.

Lemma world_eta (w : World) :
  {| state := state w; statusText := statusText w |} = w.
Proof. by destruct w. Qed.

Lemma spread_toUpperCase (word : string) :
  spread (toUpperCase word) = toUpperCase <$> spread word.
Proof.
  unfold spread. induction word as [|c word IH]; [done|].
  cbn. f_equal. exact IH.
Qed.

Lemma join_spread (word : string) : join (spread word) = word.
Proof.
  unfold spread, join. induction word as [|c word IH]; [done|].
  cbn. rewrite string_cons_app, string_nil_app. f_equal. exact IH.
Qed.

Lemma spread_length (word : string) :
  length (spread word) = String.length word.
Proof. unfold spread. by rewrite length_fmap, length_list_ascii. Qed.

Section Typing.
Variable isValidGuess : string → bool.
Variable v : Source.

Lemma run_cons (key : string) (keys : list string) (w : World) :
  run isValidGuess v (key :: keys) w
  = run isValidGuess v keys (world_of (handleKeyInput isValidGuess v key w)).
Proof. reflexivity. Qed.

Lemma run_app (keys1 keys2 : list string) (w : World) :
  run isValidGuess v (keys1 ++ keys2) w
  = run isValidGuess v keys2 (run isValidGuess v keys1 w).
Proof. unfold run. by rewrite foldl_app. Qed.

Lemma letter_key_handled (key : string) (w : World) (row : list string) :
  status (state w) = Active → is_letter_key key = true →
  currentCol (state w) < WORD_LENGTH →
  guesses (state w) !! currentRow (state w) = Some row →
  length row = WORD_LENGTH →
  handleKeyInput isValidGuess v key w
  = Returns {| state :=
                 set_currentCol (currentCol (state w) + 1)
                   (set_guesses
                      (<[currentRow (state w) :=
                           <[currentCol (state w) := toUpperCase key]> row]>
                         (guesses (state w))) (state w));
               statusText := statusText w |}.
Proof.
  intros Hst Hkey Hcol Hrow Hlen. unfold handleKeyInput. cbn zeta.
  rewrite decide_False by (by rewrite Hst; auto).
  rewrite Hkey. rewrite decide_True by lia. rewrite Hrow.
  by rewrite js_set_in_range by lia.
Qed.

(** Letters typed into the current row of an active game. *)
Lemma type_letters (letters : list string) :
  ∀ (w : World) (row : list string),
    status (state w) = Active →
    guesses (state w) !! currentRow (state w) = Some row →
    length row = WORD_LENGTH →
    Forall (λ key, is_letter_key key = true) letters →
    currentCol (state w) + length letters ≤ WORD_LENGTH →
    run isValidGuess v letters w
    = {| state :=
           set_currentCol (currentCol (state w) + length letters)
             (set_guesses
                (<[currentRow (state w) :=
                     take (currentCol (state w)) row
                     ++ (toUpperCase <$> letters)
                     ++ drop (currentCol (state w) + length letters) row]>
                   (guesses (state w)))
                (state w));
         statusText := statusText w |}.
Proof.
  induction letters as [|key letters IH]; intros w row Hst Hrow Hlen Hall Hfit.
  - cbn [run foldl length fmap list_fmap app]. rewrite Nat.add_0_r.
    rewrite take_drop, list_insert_id by done.
    destruct w as [s msg]. cbn [state statusText]. f_equal. by destruct s.
  - apply Forall_cons in Hall as [Hkey Hall]. cbn [length] in Hfit.
    rewrite run_cons.
    rewrite (letter_key_handled key w row) by (done || lia).
    cbn [world_of].
    apply lookup_lt_Some in Hrow as Hcr.
    rewrite (IH _ (<[currentCol (state w) := toUpperCase key]> row)).
    + cbn [state statusText]. unfold set_currentCol, set_guesses.
      cbn [currentCol currentRow guesses answer evaluations status keyStates
           developerMode].
      f_equal. f_equal; [|cbn [length]; lia].
      rewrite list_insert_insert_eq. f_equal.
      replace (currentCol (state w) + 1) with (S (currentCol (state w)))
        by lia.
      rewrite (take_S_r _ _ (toUpperCase key))
        by (apply list_lookup_insert_eq; lia).
      rewrite take_insert_ge by lia.
      rewrite drop_insert_lt by lia.
      cbn [fmap list_fmap length]. rewrite <- app_assoc. cbn [app].
      do 4 f_equal. lia.
    + exact Hst.
    + cbn [state set_currentCol set_guesses guesses currentRow].
      by rewrite list_lookup_insert_eq.
    + by rewrite length_insert.
    + exact Hall.
    + cbn [state set_currentCol set_guesses currentCol]. lia.
Qed.
End Typing.

Lemma keys_of_words_cons (word : string) (words : list string) :
  keys_of_words (word :: words) = keys_of_word word ++ keys_of_words words.
Proof. reflexivity. Qed.

Section Words.
Variable isValidGuess : string → bool.
Variable v : Source.

Lemma backspace_handled (w : World) (row : list string) :
  status (state w) = Active → 0 < currentCol (state w) →
  currentCol (state w) ≤ WORD_LENGTH →
  guesses (state w) !! currentRow (state w) = Some row →
  length row = WORD_LENGTH →
  handleKeyInput isValidGuess v "backspace" w
  = Returns {| state :=
                 set_guesses
                   (<[currentRow (state w) :=
                        <[currentCol (state w) - 1 := EmptyString]> row]>
                      (guesses (state w)))
                   (set_currentCol (currentCol (state w) - 1) (state w));
               statusText := statusText w |}.
Proof.
  intros Hst Hpos Hcol Hrow Hlen. unfold handleKeyInput. cbn zeta.
  rewrite decide_False by (by rewrite Hst; auto).
  change (is_letter_key "backspace") with false. cbn iota.
  rewrite decide_True by reflexivity. rewrite decide_True by done.
  cbn [set_currentCol currentRow guesses currentCol]. rewrite Hrow.
  by rewrite js_set_in_range by lia.
Qed.

(** X17. A letter typed into an active game and then deleted leaves the
    game exactly as it was: the grid, the cursor and the message. *)
Theorem letter_then_backspace (key : string) (w : World) :
  reachable isValidGuess v w → status (state w) = Active →
  is_letter_key key = true → currentCol (state w) < WORD_LENGTH →
  run isValidGuess v [key; "backspace"] w = w.
Proof.
  intros Hw Hst Hkey Hcol.
  destruct (reachable_well_formed isValidGuess v w Hw)
    as (Hg & _ & _ & Hact & _ & _ & Hrows & _).
  specialize (Hact Hst).
  destruct (lookup_lt_is_Some_2 (guesses (state w)) (currentRow (state w)))
    as [row Hrow]; [lia|].
  specialize (Hrows _ _ Hrow). unfold evaluated in Hrows. rewrite Hst in Hrows.
  rewrite decide_False in Hrows by lia.
  rewrite decide_True in Hrows by done.
  destruct Hrows as (_ & Hlen & Hcells).
  destruct (lookup_lt_is_Some_2 row (currentCol (state w))) as [cell Hcell];
    [lia|].
  specialize (Hcells _ _ Hcell).
  rewrite decide_False in Hcells by lia. subst cell.
  rewrite !(run_cons isValidGuess v).
  rewrite (letter_key_handled isValidGuess v key w row) by done.
  cbn [world_of].
  rewrite (backspace_handled _
             (<[currentCol (state w) := toUpperCase key]> row)).
  - cbn [run foldl world_of state statusText].
    unfold set_currentCol, set_guesses.
    cbn [currentCol currentRow guesses answer evaluations status keyStates
         developerMode].
    replace (currentCol (state w) + 1 - 1) with (currentCol (state w)) by lia.
    rewrite !list_insert_insert_eq.
    rewrite (list_insert_id row) by done.
    rewrite list_insert_id by done.
    by rewrite state_eta, world_eta.
  - exact Hst.
  - cbn [state set_currentCol currentCol]. lia.
  - cbn [state set_currentCol currentCol]. lia.
  - cbn [state set_currentCol set_guesses currentRow guesses].
    apply list_lookup_insert_eq. lia.
  - by rewrite length_insert.
Qed.

(** A submit of a full row that is not the developer command. *)
Lemma submit_full (w : World) (row : list string) :
  currentCol (state w) = WORD_LENGTH →
  guesses (state w) !! currentRow (state w) = Some row →
  currentRow (state w) < length (evaluations (state w)) →
  (v = GameJs → join row ≠ "ASDEV") →
  submitGuess isValidGuess v w
  = let s := state w in
    let guess := join row in
    if isValidGuess guess
    then
      let scored := scoreGuess guess (answer s) in
      let ev := <[currentRow s := scored]> (evaluations s) in
      let ks := updateKeyboardStates (spread guess) scored (keyStates s) in
      if decide (guess = answer s)
      then Returns {| state := mkState (answer s) (guesses s) ev
                                 (currentRow s) (currentCol s) Won ks
                                 (developerMode s);
                      statusText := won_message v |}
      else if decide (MAX_ROWS ≤ currentRow s + 1)
      then Returns {| state := mkState (answer s) (guesses s) ev
                                 (currentRow s + 1) 0 Lost ks
                                 (developerMode s);
                      statusText := "Game over. The word was "
                                    +:+ toUpperCase (answer s) +:+ "." |}
      else Returns {| state := mkState (answer s) (guesses s) ev
                                 (currentRow s + 1) 0 (status s) ks
                                 (developerMode s);
                      statusText := EmptyString |}
    else Returns (setStatus "Word is not in the list." w).
Proof.
  intros Hcol Hrow Hev Hdev. unfold submitGuess. cbn zeta.
  destruct (decide (currentCol (state w) < WORD_LENGTH)) as [?|_]; [lia|].
  rewrite Hrow.
  assert (bool_decide (v = GameJs) && bool_decide (join row = "ASDEV")
          = false) as ->.
  { destruct (bool_decide (v = GameJs)) eqn:Hv; [|done].
    apply bool_decide_eq_true_1 in Hv. cbn [andb].
    by apply bool_decide_eq_false_2, Hdev. }
  destruct (isValidGuess (join row)); cbn [negb]; [|done].
  unfold set_evaluations at 1 2 3 4. cbn [currentRow evaluations].
  by rewrite js_set_in_range by done.
Qed.

(** The world after the five letters of a word have been typed into the
    empty current row. *)
Lemma type_word (word : string) (w : World) :
  reachable isValidGuess v w → status (state w) = Active →
  currentCol (state w) = 0 →
  String.length word = WORD_LENGTH → letters_only word →
  currentRow (state w) < length (guesses (state w))
  ∧ run isValidGuess v (spread word) w
    = {| state :=
           set_currentCol WORD_LENGTH
             (set_guesses
                (<[currentRow (state w) := spread (toUpperCase word)]>
                   (guesses (state w))) (state w));
         statusText := statusText w |}.
Proof.
  intros Hw Hst Hcol Hlen Hletters.
  destruct (reachable_well_formed isValidGuess v w Hw)
    as (Hg & _ & _ & Hact & _ & _ & Hrows & _).
  specialize (Hact Hst). split; [lia|].
  destruct (lookup_lt_is_Some_2 (guesses (state w)) (currentRow (state w)))
    as [row Hrow]; [lia|].
  specialize (Hrows _ _ Hrow). unfold evaluated in Hrows. rewrite Hst in Hrows.
  rewrite decide_False in Hrows by lia. destruct Hrows as (_ & Hrowlen & _).
  rewrite (type_letters isValidGuess v (spread word) w row Hst Hrow Hrowlen
             Hletters)
    by (rewrite spread_length; lia).
  rewrite Hcol, spread_length, Hlen. cbn [Nat.add take app].
  rewrite drop_ge by lia. by rewrite app_nil_r, spread_toUpperCase.
Qed.

Lemma typed_word_world (word : string) (w : World) :
  reachable isValidGuess v w → status (state w) = Active →
  currentCol (state w) = 0 →
  String.length word = WORD_LENGTH → letters_only word →
  (v = GameJs → toUpperCase word ≠ "ASDEV") →
  let s := state w in
  let guess := toUpperCase word in
  let w' := run isValidGuess v (keys_of_word word) w in
  guesses (state w') = <[currentRow s := spread guess]> (guesses s)
  ∧ answer (state w') = answer s
  ∧ developerMode (state w') = developerMode s
  ∧ if isValidGuess guess
    then evaluations (state w')
         = <[currentRow s := scoreGuess guess (answer s)]> (evaluations s)
         ∧ keyStates (state w')
           = updateKeyboardStates (spread guess)
               (scoreGuess guess (answer s)) (keyStates s)
         ∧ if decide (guess = answer s)
           then status (state w') = Won
                ∧ currentRow (state w') = currentRow s
                ∧ currentCol (state w') = WORD_LENGTH
                ∧ statusText w' = won_message v
           else currentRow (state w') = currentRow s + 1
                ∧ currentCol (state w') = 0
                ∧ if decide (MAX_ROWS ≤ currentRow s + 1)
                  then status (state w') = Lost
                       ∧ (upper_case_fits (answer s) →
                          statusText w'
                          = "Game over. The word was "
                            +:+ toUpperCase (answer s) +:+ ".")
                  else status (state w') = Active
                       ∧ statusText w' = EmptyString
    else evaluations (state w') = evaluations s
         ∧ keyStates (state w') = keyStates s
         ∧ status (state w') = Active
         ∧ currentRow (state w') = currentRow s
         ∧ currentCol (state w') = WORD_LENGTH
         ∧ statusText w' = "Word is not in the list.".
Proof.
  intros Hw Hst Hcol Hlen Hletters Hdev. cbv zeta.
  destruct (type_word word w Hw Hst Hcol Hlen Hletters) as [Hcr Htyped].
  pose proof (reachable_well_formed isValidGuess v w Hw) as (_ & He & _).
  pose proof (reachable_well_formed isValidGuess v w Hw)
    as (Hg & _ & _ & Hact & _).
  specialize (Hact Hst).
  unfold keys_of_word. rewrite (run_app isValidGuess v), Htyped.
  rewrite (run_cons isValidGuess v). cbn [run foldl].
  rewrite enter_submits by exact Hst.
  rewrite (submit_full _ (spread (toUpperCase word))).
  2:{ reflexivity. }
  2:{ cbn [state set_currentCol set_guesses guesses currentRow].
      by apply list_lookup_insert_eq. }
  2:{ cbn [state set_currentCol set_guesses evaluations currentRow]. lia. }
  2:{ by rewrite join_spread. }
  cbv zeta. rewrite join_spread.
  cbn [state set_currentCol set_guesses guesses answer developerMode
       evaluations keyStates status currentRow currentCol].
  destruct (isValidGuess (toUpperCase word)) eqn:Hvalid.
  2:{ cbn [world_of setStatus state statusText set_currentCol set_guesses
           guesses answer developerMode evaluations keyStates status
           currentRow currentCol]. done. }
  destruct (decide (toUpperCase word = answer (state w))) as [Hwin|Hwin].
  { cbn [world_of state statusText guesses answer developerMode evaluations
         keyStates status currentRow currentCol]. done. }
  destruct (decide (MAX_ROWS ≤ currentRow (state w) + 1)) as [Hend|Hend].
  - cbn [world_of state statusText guesses answer developerMode evaluations
         keyStates status currentRow currentCol]. done.
  - cbn [world_of state statusText guesses answer developerMode evaluations
         keyStates status currentRow currentCol]. done.
Qed.

(** X18. Typing the five letters of a word (in game.js, not those of the
    developer command) into the empty current row of an active game and
    pressing Enter submits the word in upper case.  If the Word Source
    rejects it, the row stays typed and the message says so.  Otherwise the
    row is evaluated by [scoreGuess] against the answer and the keyboard is
    updated; the game is won if the word is the answer, with the message of
    the source file at hand, and else the cursor moves to the start of the
    next row, the game being lost when that was the sixth row, with the
    answer in upper case in its message (stated where that upper-case form
    is a string of characters below 256). *)
Theorem typed_word_is_submitted (word : string) (w : World) :
  reachable isValidGuess v w → status (state w) = Active →
  currentCol (state w) = 0 →
  String.length word = WORD_LENGTH → letters_only word →
  (v = GameJs → toUpperCase word ≠ "ASDEV") →
  let s := state w in
  let guess := toUpperCase word in
  let w' := run isValidGuess v (keys_of_word word) w in
  guesses (state w') = <[currentRow s := spread guess]> (guesses s)
  ∧ answer (state w') = answer s
  ∧ developerMode (state w') = developerMode s
  ∧ if isValidGuess guess
    then evaluations (state w')
         = <[currentRow s := scoreGuess guess (answer s)]> (evaluations s)
         ∧ keyStates (state w')
           = updateKeyboardStates (spread guess)
               (scoreGuess guess (answer s)) (keyStates s)
         ∧ if decide (guess = answer s)
           then status (state w') = Won
                ∧ currentRow (state w') = currentRow s
                ∧ currentCol (state w') = WORD_LENGTH
                ∧ statusText w' = won_message v
           else currentRow (state w') = currentRow s + 1
                ∧ currentCol (state w') = 0
                ∧ if decide (MAX_ROWS ≤ currentRow s + 1)
                  then status (state w') = Lost
                       ∧ (upper_case_fits (answer s) →
                          statusText w'
                          = "Game over. The word was "
                            +:+ toUpperCase (answer s) +:+ ".")
                  else status (state w') = Active
                       ∧ statusText w' = EmptyString
    else evaluations (state w') = evaluations s
         ∧ keyStates (state w') = keyStates s
         ∧ status (state w') = Active
         ∧ currentRow (state w') = currentRow s
         ∧ currentCol (state w') = WORD_LENGTH
         ∧ statusText w' = "Word is not in the list.".
Proof. apply typed_word_world. Qed.

Lemma play_wrong_word (word : string) (w : World) :
  reachable isValidGuess v w → status (state w) = Active →
  currentCol (state w) = 0 → playable isValidGuess v word →
  toUpperCase word ≠ answer (state w) →
  reachable isValidGuess v (run isValidGuess v (keys_of_word word) w)
  ∧ answer (state (run isValidGuess v (keys_of_word word) w))
    = answer (state w)
  ∧ currentRow (state (run isValidGuess v (keys_of_word word) w))
    = currentRow (state w) + 1
  ∧ currentCol (state (run isValidGuess v (keys_of_word word) w)) = 0
  ∧ if decide (MAX_ROWS ≤ currentRow (state w) + 1)
    then status (state (run isValidGuess v (keys_of_word word) w)) = Lost
         ∧ (upper_case_fits (answer (state w)) →
            statusText (run isValidGuess v (keys_of_word word) w)
            = "Game over. The word was "
              +:+ toUpperCase (answer (state w)) +:+ ".")
    else status (state (run isValidGuess v (keys_of_word word) w)) = Active.
Proof.
  intros Hw Hst Hcol (Hlen & Hletters & Hvalid & Hdev) Hwrong.
  split; [by apply reachable_run|].
  pose proof (typed_word_world word w Hw Hst Hcol Hlen Hletters Hdev) as H.
  cbv zeta in H. rewrite Hvalid in H.
  destruct H as (_ & Ha & _ & _ & _ & H).
  rewrite decide_False in H by done. destruct H as (Hr & Hc & H).
  split; [done|]. split; [done|]. split; [done|].
  destruct (decide (MAX_ROWS ≤ currentRow (state w) + 1)); [done|].
  by destruct H.
Qed.

(** X19. Words of five letters that the Word Source accepts, other than the
    answer and, in game.js, than the developer command ASDEV, typed one
    after the other into an active game whose current row is empty, use up
    one row each: the game stays active while rows are left, and is lost
    once the sixth row has been used, with the answer in upper case in the
    message (stated where that upper-case form is a string of characters
    below 256). *)
Theorem wrong_words_use_up_rows (words : list string) (w : World) :
  reachable isValidGuess v w → status (state w) = Active →
  currentCol (state w) = 0 →
  Forall (λ word, playable isValidGuess v word
                  ∧ toUpperCase word ≠ answer (state w)) words →
  currentRow (state w) + length words ≤ MAX_ROWS →
  let w' := run isValidGuess v (keys_of_words words) w in
  currentRow (state w') = currentRow (state w) + length words
  ∧ currentCol (state w') = 0
  ∧ if decide (currentRow (state w) + length words = MAX_ROWS)
    then status (state w') = Lost
         ∧ (upper_case_fits (answer (state w)) →
            statusText w'
            = "Game over. The word was "
              +:+ toUpperCase (answer (state w)) +:+ ".")
    else status (state w') = Active.
Proof.
  cbv zeta. revert w.
  induction words as [|word words IH]; intros w Hw Hst Hcol Hall Hfit.
  - change (keys_of_words []) with (@nil string). cbn [run foldl length].
    rewrite Nat.add_0_r. split; [done|]. split; [done|].
    destruct (reachable_well_formed isValidGuess v w Hw)
      as (_ & _ & _ & Hact & _).
    specialize (Hact Hst). by rewrite decide_False by lia.
  - apply Forall_cons in Hall as [[Hplay Hwrong] Hall].
    cbn [length] in *.
    rewrite keys_of_words_cons, (run_app isValidGuess v).
    destruct (play_wrong_word word w Hw Hst Hcol Hplay Hwrong)
      as (Hw1 & Ha1 & Hr1 & Hc1 & Hs1).
    set (w1 := run isValidGuess v (keys_of_word word) w) in *.
    destruct (decide (MAX_ROWS ≤ currentRow (state w) + 1)) as [Hend|Hend].
    + destruct Hs1 as [Hlost Hmsg].
      assert (words = []) as -> by (destruct words; [done|cbn [length] in *; lia]).
      change (keys_of_words []) with (@nil string). cbn [run foldl length].
      split; [lia|]. split; [done|]. by rewrite decide_True by lia.
    + destruct (IH w1) as (Hr & Hc & Hs); try done.
      * by rewrite Ha1.
      * lia.
      * split; [lia|]. split; [done|]. rewrite Hr1, Ha1 in Hs.
        destruct (decide (currentRow (state w) + 1 + length words = MAX_ROWS)).
        -- by rewrite decide_True by lia.
        -- by rewrite decide_False by lia.
Qed.
End Words.

Lemma letter_then_backspace_witness :
  reachable sample_isValidGuess GameJs slate_then_cr
  ∧ status (state slate_then_cr) = Active
  ∧ is_letter_key "a" = true
  ∧ currentCol (state slate_then_cr) < WORD_LENGTH
  ∧ run sample_isValidGuess GameJs ["a"; "backspace"] slate_then_cr
    = slate_then_cr.
Proof.
  assert (reachable sample_isValidGuess GameJs slate_then_cr) as Hw
    by apply reachable_run, reach_created.
  assert (currentCol (state slate_then_cr) < WORD_LENGTH) as Hcol
    by (vm_compute; lia).
  split; [exact Hw|]. split; [reflexivity|]. split; [reflexivity|].
  split; [exact Hcol|].
  exact (letter_then_backspace sample_isValidGuess GameJs "a" slate_then_cr
           Hw eq_refl eq_refl Hcol).
Defined.

Lemma typed_word_is_submitted_witness :
  letters_only "slate"
  ∧ guesses (state (run sample_isValidGuess GameJs (keys_of_word "slate")
                      {| state := createNewState "CRANE";
                         statusText := EmptyString |}))
    = <[0 := spread "SLATE"]> (guesses (createNewState "CRANE")).
Proof.
  assert (letters_only "slate") as Hletters
    by (unfold letters_only; repeat constructor).
  split; [exact Hletters|].
  refine (proj1 (typed_word_is_submitted sample_isValidGuess GameJs "slate"
                   {| state := createNewState "CRANE";
                      statusText := EmptyString |}
                   (reach_created _ _ _ _) eq_refl eq_refl eq_refl Hletters _)).
  intros _. vm_compute. discriminate.
Defined.

Lemma wrong_words_use_up_rows_witness :
  Forall (λ word, playable sample_isValidGuess GameJs word
                  ∧ toUpperCase word ≠ "CRANE")
    ["slate"; "trace"; "speed"; "erase"; "slate"; "trace"]
  ∧ status (state (run sample_isValidGuess GameJs
                     (keys_of_words
                        ["slate"; "trace"; "speed"; "erase"; "slate"; "trace"])
                     {| state := createNewState "CRANE";
                        statusText := EmptyString |})) = Lost.
Proof.
  assert (Forall (λ word, playable sample_isValidGuess GameJs word
                          ∧ toUpperCase word ≠ "CRANE")
            ["slate"; "trace"; "speed"; "erase"; "slate"; "trace"]) as Hall.
  { repeat constructor;
      first [ intros _ H; vm_compute in H; discriminate H
            | intros H; vm_compute in H; discriminate H ]. }
  split; [exact Hall|].
  pose proof (wrong_words_use_up_rows sample_isValidGuess GameJs
                ["slate"; "trace"; "speed"; "erase"; "slate"; "trace"]
                {| state := createNewState "CRANE";
                   statusText := EmptyString |}
                (reach_created _ _ _ _) eq_refl eq_refl Hall) as H.
  cbv zeta in H. destruct H as (_ & _ & H); [vm_compute; lia|].
  rewrite decide_True in H by reflexivity. exact (proj1 H).
Defined.

(** ** Saving and restoring *)

Section Restoring.
Context {Number : Type}.
Variable number_truthy : Number → bool.
Variable number_of_nat : nat → Number.
Variable JSON_parse : string → option (Persistence.JsValue Number).

(** [JSON.parse('')] throws. *)
Hypothesis parse_empty : JSON_parse EmptyString = None.

Lemma status_name_active (st : Status) :
  Persistence.is_string (Number := Number) "active"
    (Some (Persistence.JString (status_name st)))
  = bool_decide (st = Active).
Proof. by destruct st. Qed.

Lemma load_payload (s : GameState) (saved now : LocalDate) (text : string) :
  JSON_parse text = Some (payload number_of_nat s saved) →
  valid_date saved → valid_date now →
  Persistence.loadPersistedState number_truthy JSON_parse (Some text) now
  = if decide (saved = now ∧ answer s ≠ EmptyString)
    then Some (restored number_of_nat s) else None.
Proof.
  intros Hparse Hsaved Hnow.
  destruct text as [|c text]; [by rewrite parse_empty in Hparse|].
  unfold Persistence.loadPersistedState. rewrite Hparse.
  unfold payload at 1. cbv zeta.
  change (Persistence.get_property "dayKey" (payload number_of_nat s saved))
    with (Some (Persistence.JString (Number := Number)
                  (getLocalDayKey saved))).
  change (Persistence.get_property "answer" (payload number_of_nat s saved))
    with (Some (Persistence.JString (Number := Number) (answer s))).
  cbn [Persistence.is_string Persistence.truthy].
  destruct (decide (saved = now ∧ answer s ≠ EmptyString)) as [[-> Ha]|Hno].
  - rewrite bool_decide_eq_true_2 by done.
    rewrite (bool_decide_eq_false_2 (answer s = EmptyString)) by done.
    reflexivity.
  - destruct (decide (saved = now)) as [->|Hday].
    + rewrite bool_decide_eq_true_2 by done.
      rewrite (bool_decide_eq_true_2 (answer s = EmptyString)); [done|].
      destruct (decide (answer s = EmptyString)); [done|]. by destruct Hno.
    + rewrite bool_decide_eq_false_2; [done|].
      intros Hkey. apply Hday. by apply getLocalDayKey_inj.
Qed.

(** X20. What [persistState] saves on one day, [loadPersistedState] hands
    back on that day field by field (the hints object as saved, even when
    empty, and the developer mode), provided the answer is not the empty
    string; on any other day, or with an empty answer, the saved state is
    dropped and [init] keeps the new game.  A restored game is announced as
    restored or as completed according to its status. *)
Theorem saved_state_restored_on_its_day (s created : GameState)
    (saved now : LocalDate) (text : string) :
  JSON_parse text = Some (payload number_of_nat s saved) →
  valid_date saved → valid_date now →
  Persistence.init number_truthy JSON_parse (Some text) now created
  = if decide (saved = now ∧ answer s ≠ EmptyString)
    then Persistence.Restored (restored number_of_nat s)
           (if decide (status s = Active)
            then "Restored your game." else "Restored completed game.")
    else Persistence.Fresh {| state := created;
                              statusText := "Guess the Wordle in 6 tries." |}.
Proof.
  intros Hparse Hsaved Hnow. unfold Persistence.init.
  rewrite (load_payload s saved now text Hparse Hsaved Hnow).
  destruct (decide (saved = now ∧ answer s ≠ EmptyString)); [|done].
  cbn [restored Persistence.status]. rewrite status_name_active.
  by destruct (decide (status s = Active));
    [rewrite bool_decide_eq_true_2|rewrite bool_decide_eq_false_2].
Qed.

Lemma padStart2_two_digit (n : nat) :
  n ≤ 31 → padStart2 (pretty n) = two_digit n.
Proof.
  intros Hn. do 32 (destruct n as [|n]; [vm_compute; reflexivity|]). lia.
Qed.

Lemma pretty_N_char_digit (x : N) :
  (x < 10)%N → pretty_N_char x = digit (N.to_nat x).
Proof.
  intros Hx.
  assert (x = 0 ∨ x = 1 ∨ x = 2 ∨ x = 3 ∨ x = 4 ∨ x = 5 ∨ x = 6 ∨ x = 7
          ∨ x = 8 ∨ x = 9)%N as H by lia.
  repeat (destruct H as [->|H]; [reflexivity|]). by subst x.
Qed.

(** The decimal form of a number of four digits. *)
Lemma pretty_four_digit (y : Z) :
  (1000 ≤ y ≤ 9999)%Z → pretty y = four_digit (Z.to_nat y).
Proof.
  intros Hy. destruct y as [|p|p]; try lia.
  change (pretty (Z.pos p)) with (pretty (N.pos p)).
  set (x := N.pos p). assert (1000 ≤ x ≤ 9999)%N as Hx by lia.
  replace (Z.to_nat (Z.pos p)) with (N.to_nat x) by lia. clearbody x.
  unfold pretty, pretty_N. rewrite decide_False by lia.
  assert (0 < x / 10 ∧ 0 < x / 10 / 10
          ∧ 0 < x / 10 / 10 / 10
          ∧ x / 10 / 10 / 10 / 10 = 0)%N
    as (H1 & H2 & H3 & H4).
  { rewrite !N.Div0.div_div. change (10 * 10)%N with 100%N.
    change (100 * 10)%N with 1000%N. change (1000 * 10)%N with 10000%N.
    repeat split; [apply N.div_str_pos; lia..|].
    apply N.div_small. lia. }
  rewrite (pretty_N_go_step x) by lia.
  rewrite (pretty_N_go_step (x / 10)) by done.
  rewrite (pretty_N_go_step (x / 10 / 10)) by done.
  rewrite (pretty_N_go_step (x / 10 / 10 / 10)) by done.
  rewrite H4, pretty_N_go_0.
  rewrite !pretty_N_char_digit by (apply N.mod_lt; lia).
  unfold four_digit, two_digit. rewrite !N.Div0.div_div.
  change (10 * 10)%N with 100%N. change (10 * 100)%N with 1000%N.
  assert (N.to_nat ((x / 1000) mod 10) = N.to_nat x / 1000
          ∧ N.to_nat ((x / 100) mod 10) = N.to_nat x / 100 mod 10
          ∧ N.to_nat ((x / 10) mod 10) = N.to_nat x mod 100 / 10
          ∧ N.to_nat (x mod 10) = N.to_nat x mod 100 mod 10)
    as (-> & -> & -> & ->); [|done].
  rewrite !N2Nat.inj_mod, !N2Nat.inj_div.
  change (N.to_nat 10) with 10. change (N.to_nat 100) with 100.
  change (N.to_nat 1000) with 1000.
  assert (N.to_nat x < 10 * 1000) by lia.
  set (n := N.to_nat x) in *. clearbody n.
  pose proof (Nat.div_mod_eq n 1000). pose proof (Nat.div_mod_eq n 100).
  pose proof (Nat.div_mod_eq n 10).
  pose proof (Nat.div_mod_eq (n / 1000) 10).
  pose proof (Nat.div_mod_eq (n / 100) 10).
  pose proof (Nat.div_mod_eq (n / 10) 10).
  pose proof (Nat.div_mod_eq (n mod 100) 10).
  pose proof (Nat.mod_upper_bound n 1000).
  pose proof (Nat.mod_upper_bound n 100).
  pose proof (Nat.mod_upper_bound n 10).
  pose proof (Nat.mod_upper_bound (n / 1000) 10).
  pose proof (Nat.mod_upper_bound (n / 100) 10).
  pose proof (Nat.mod_upper_bound (n / 10) 10).
  pose proof (Nat.mod_upper_bound (n mod 100) 10).
  repeat split; lia.
Qed.

(** X21. The day key is the year in decimal, a hyphen, the month (counted
    from 1) on two digits, a hyphen and the day of the month on two digits;
    for a year of four digits these are ten characters, four digits of the
    year first.  On valid dates the key names one day only. *)
Theorem getLocalDayKey_names_one_day (d1 d2 : LocalDate) :
  valid_date d1 → valid_date d2 →
  getLocalDayKey d1
  = pretty (fullYear d1) +:+ "-" +:+ two_digit (monthIndex d1 + 1)
    +:+ "-" +:+ two_digit (dayOfMonth d1)
  ∧ ((1000 ≤ fullYear d1 ≤ 9999)%Z →
     getLocalDayKey d1
     = four_digit (Z.to_nat (fullYear d1)) +:+ "-"
       +:+ two_digit (monthIndex d1 + 1) +:+ "-"
       +:+ two_digit (dayOfMonth d1))
  ∧ (getLocalDayKey d1 = getLocalDayKey d2 ↔ d1 = d2).
Proof.
  intros H1 H2.
  assert (getLocalDayKey d1
          = pretty (fullYear d1) +:+ "-" +:+ two_digit (monthIndex d1 + 1)
            +:+ "-" +:+ two_digit (dayOfMonth d1)) as Hform.
  { destruct H1 as [Hm Hd]. unfold getLocalDayKey. cbv zeta.
    by rewrite !padStart2_two_digit by lia. }
  split; [exact Hform|]. split.
  - intros Hy. by rewrite Hform, pretty_four_digit.
  - split; [by apply getLocalDayKey_inj | by intros ->].
Qed.
End Restoring.

Lemma saved_state_restored_on_its_day_witness :
  sample_saved_parse "saved game"
  = Some (payload Z.of_nat (state crane_won) (mkDate 2025 2 9))
  ∧ valid_date (mkDate 2025 2 9) ∧ valid_date (mkDate 2025 2 10)
  ∧ Persistence.init sample_truthy sample_saved_parse (Some "saved game")
      (mkDate 2025 2 9) (createNewState "SLATE")
    = Persistence.Restored (restored Z.of_nat (state crane_won))
        "Restored completed game."
  ∧ Persistence.init sample_truthy sample_saved_parse (Some "saved game")
      (mkDate 2025 2 10) (createNewState "SLATE")
    = Persistence.Fresh {| state := createNewState "SLATE";
                           statusText := "Guess the Wordle in 6 tries." |}.
Proof.
  assert (valid_date (mkDate 2025 2 9)) as H9
    by (unfold valid_date; simpl; lia).
  assert (valid_date (mkDate 2025 2 10)) as H10
    by (unfold valid_date; simpl; lia).
  split; [reflexivity|]. split; [exact H9|]. split; [exact H10|]. split.
  - rewrite (saved_state_restored_on_its_day sample_truthy Z.of_nat
               sample_saved_parse eq_refl (state crane_won)
               (createNewState "SLATE") (mkDate 2025 2 9) (mkDate 2025 2 9)
               "saved game" eq_refl H9 H9).
    rewrite decide_True by (split; [reflexivity | vm_compute; discriminate]).
    rewrite decide_False by (vm_compute; discriminate). reflexivity.
  - rewrite (saved_state_restored_on_its_day sample_truthy Z.of_nat
               sample_saved_parse eq_refl (state crane_won)
               (createNewState "SLATE") (mkDate 2025 2 9) (mkDate 2025 2 10)
               "saved game" eq_refl H9 H10).
    rewrite decide_False by (intros [Heq _]; discriminate Heq). reflexivity.
Defined.

Lemma getLocalDayKey_names_one_day_witness :
  valid_date (mkDate 2025 2 9) ∧ valid_date (mkDate 2025 11 31)
  ∧ getLocalDayKey (mkDate 2025 2 9) = "2025-03-09"
  ∧ getLocalDayKey (mkDate 2025 2 9) ≠ getLocalDayKey (mkDate 2025 11 31).
Proof.
  assert (valid_date (mkDate 2025 2 9)) as H1
    by (unfold valid_date; simpl; lia).
  assert (valid_date (mkDate 2025 11 31)) as H2
    by (unfold valid_date; simpl; lia).
  split; [exact H1|]. split; [exact H2|].
  destruct (getLocalDayKey_names_one_day (mkDate 2025 2 9) (mkDate 2025 11 31)
              H1 H2) as (_ & Hfour & Hiff).
  split.
  - rewrite Hfour by (cbn [fullYear]; lia). reflexivity.
  - intros Hkey. apply Hiff in Hkey. discriminate Hkey.
Defined.

(** ** The developer command, typed *)

Lemma typed_row_0 (row : list string) :
  typed_row 0 row → row = replicate WORD_LENGTH EmptyString.
Proof.
  intros [Hlen Hcells]. apply list_eq. intros i.
  destruct (row !! i) as [cell|] eqn:Hi.
  - specialize (Hcells i cell Hi). rewrite decide_False in Hcells by lia.
    apply lookup_lt_Some in Hi. subst cell.
    symmetry. apply lookup_replicate_2. lia.
  - apply lookup_ge_None in Hi. symmetry. apply lookup_ge_None.
    rewrite length_replicate. lia.
Qed.

Section Developer.
Variable isValidGuess : string → bool.

Lemma developer_command_typed (w : World) :
  reachable isValidGuess GameJs w → status (state w) = Active →
  currentCol (state w) = 0 →
  run isValidGuess GameJs (keys_of_word "asdev") w
  = {| state := set_developerMode (negb (developerMode (state w))) (state w);
       statusText := if negb (developerMode (state w))
                     then "Welcome developer."
                     else "Developer mode disabled." |}.
Proof.
  intros Hw Hst Hcol.
  destruct (type_word isValidGuess GameJs "asdev" w Hw Hst Hcol eq_refl)
    as [Hcr Htyped]; [unfold letters_only; repeat constructor|].
  destruct (reachable_well_formed isValidGuess GameJs w Hw)
    as (Hg & He & _ & Hact & _ & _ & Hrows & _).
  specialize (Hact Hst).
  destruct (lookup_lt_is_Some_2 (guesses (state w)) (currentRow (state w)))
    as [row Hrow]; [lia|].
  specialize (Hrows _ _ Hrow). unfold evaluated in Hrows. rewrite Hst in Hrows.
  rewrite decide_False in Hrows by lia. rewrite decide_True in Hrows by done.
  rewrite Hcol in Hrows. destruct Hrows as [Hev Hblank].
  apply typed_row_0 in Hblank. subst row.
  unfold keys_of_word. rewrite (run_app isValidGuess GameJs), Htyped.
  rewrite (run_cons isValidGuess GameJs). cbn [run foldl].
  rewrite enter_submits by exact Hst.
  unfold submitGuess. cbn zeta. cbn [state].
  destruct (decide (currentCol _ < WORD_LENGTH)) as [Hlt|_];
    [cbn [set_currentCol currentCol] in Hlt; lia|].
  cbn [set_currentCol set_guesses guesses currentRow].
  rewrite list_lookup_insert_eq by done. rewrite join_spread.
  change (toUpperCase "asdev") with "ASDEV".
  rewrite !bool_decide_eq_true_2 by done. cbn [andb world_of].
  unfold toggleDeveloperMode. cbv zeta. cbn [state].
  unfold set_currentCol, set_guesses, set_evaluations, set_developerMode.
  cbn [guesses answer developerMode evaluations keyStates status currentRow
       currentCol].
  rewrite !js_set_in_range by (rewrite ?length_insert; lia).
  rewrite list_insert_insert_eq.
  rewrite (list_insert_id (guesses (state w))) by done.
  rewrite (list_insert_id (evaluations (state w))) by done.
  by rewrite <- Hcol.
Qed.

(** X22. In game.js, typing a, s, d, e, v and Enter into the empty current
    row of an active game changes nothing but the developer mode, which is
    inverted, and the message: no row is used, the grid, the evaluations and
    the keyboard hints are as before.  Done twice, it restores the state. *)
Theorem developer_command_leaves_no_trace (w : World) :
  reachable isValidGuess GameJs w → status (state w) = Active →
  currentCol (state w) = 0 →
  run isValidGuess GameJs (keys_of_word "asdev") w
  = {| state := set_developerMode (negb (developerMode (state w))) (state w);
       statusText := if negb (developerMode (state w))
                     then "Welcome developer."
                     else "Developer mode disabled." |}
  ∧ state (run isValidGuess GameJs
             (keys_of_word "asdev" ++ keys_of_word "asdev") w)
    = state w.
Proof.
  intros Hw Hst Hcol.
  pose proof (developer_command_typed w Hw Hst Hcol) as H1.
  split; [exact H1|].
  rewrite (run_app isValidGuess GameJs).
  rewrite developer_command_typed.
  - rewrite H1. cbn [state]. unfold set_developerMode.
    cbn [guesses answer developerMode evaluations keyStates status currentRow
         currentCol].
    by rewrite negb_involutive, state_eta.
  - by apply reachable_run.
  - by rewrite H1.
  - by rewrite H1.
Qed.
End Developer.

Lemma developer_command_leaves_no_trace_witness :
  reachable sample_isValidGuess GameJs
    {| state := createNewState "CRANE"; statusText := EmptyString |}
  ∧ state (run sample_isValidGuess GameJs
             (keys_of_word "asdev" ++ keys_of_word "asdev")
             {| state := createNewState "CRANE"; statusText := EmptyString |})
    = createNewState "CRANE".
Proof.
  split; [apply reach_created|].
  exact (proj2 (developer_command_leaves_no_trace sample_isValidGuess
                  {| state := createNewState "CRANE";
                     statusText := EmptyString |}
                  (reach_created _ _ _ _) eq_refl eq_refl)).
Defined.

(** ** The board *)

Section Board.
Variable isValidGuess : string → bool.
Variable v : Source.

(** X23. What [render] shows of a game: a tile of an evaluated row shows
    its evaluation, which is correct, present or absent, the one [scoreGuess]
    gives; a tile before the cursor in the current row shows as filled; every
    other tile shows as empty.  A key shows the name of its hint, which is
    never [empty], or nothing. *)
Theorem reachable_board_tiles (w : World) (r i : nat) (row : list string)
    (evalRow : list LetterEval) (letter : string) (evalState : LetterEval) :
  reachable isValidGuess v w →
  guesses (state w) !! r = Some row → row !! i = Some letter →
  evaluations (state w) !! r = Some evalRow → evalRow !! i = Some evalState →
  tile_state letter evalState
  = (if decide (r < evaluated (state w)) then eval_name evalState
     else if decide (r = currentRow (state w) ∧ i < currentCol (state w))
          then "filled" else "empty")
  ∧ (r < evaluated (state w) →
     scored evalState
     ∧ scoreGuess (join row) (answer (state w)) !! i = Some evalState)
  ∧ (∀ k, key_state (keyStates (state w) !! k)
          ∈ [EmptyString; "absent"; "present"; "correct"]).
Proof.
  intros Hw Hrow Hletter Hevals Heval.
  pose proof (reachable_well_formed isValidGuess v w Hw) as Hwf.
  pose proof Hwf as (_ & _ & _ & _ & _ & _ & Hrows & Hks).
  specialize (Hrows r row Hrow). split; [|split].
  - destruct (decide (r < evaluated (state w))) as [Hlt|Hge].
    + destruct Hrows as (_ & _ & _ & Hev & _).
      assert (evalRow = scoreGuess (join row) (answer (state w))) as ->
        by congruence.
      destruct (scoreGuess_general (join row) (answer (state w)))
        as (_ & Hsc & _).
      eapply Forall_lookup_1 in Hsc; [|exact Heval].
      unfold tile_state. by destruct Hsc as [-> | [-> | ->] ].
    + destruct Hrows as (Hev & _ & Hcells).
      assert (evalRow = replicate WORD_LENGTH Empty) as -> by congruence.
      apply lookup_replicate in Heval as [-> Hi].
      specialize (Hcells i letter Hletter). unfold tile_state.
      rewrite decide_True by done.
      destruct (decide (r = currentRow (state w))) as [->|Hne].
      * destruct (decide (i < currentCol (state w))) as [Hin|Hout].
        -- rewrite decide_False by (by apply upper_letter_cell_not_empty).
           by rewrite decide_True by done.
        -- subst letter. rewrite decide_True by done.
           rewrite decide_False; [done|]. by intros [_ ?].
      * rewrite decide_False in Hcells by lia. subst letter.
        rewrite decide_True by done.
        rewrite decide_False; [done|]. by intros [? _].
  - intros Hlt. rewrite decide_True in Hrows by done.
    destruct Hrows as (_ & _ & _ & Hev & _).
    assert (evalRow = scoreGuess (join row) (answer (state w))) as ->
      by congruence.
    destruct (scoreGuess_general (join row) (answer (state w)))
      as (_ & Hsc & _).
    eapply Forall_lookup_1 in Hsc; [|exact Heval]. done.
  - intros k.
    pose proof (reachable_keyboard_rank isValidGuess v w k Hw) as Hk.
    rewrite Hk. unfold key_state.
    destruct (best_rank k (played_pairs (state w))) as [|[|[|n]]];
      cbn [hint_of_rank eval_name]; set_solver.
Qed.
End Board.

Lemma reachable_board_tiles_witness :
  reachable sample_isValidGuess GameJs slate_then_cr
  ∧ guesses (state slate_then_cr) !! 1
    = Some ["C"; "R"; EmptyString; EmptyString; EmptyString]
  ∧ tile_state "R" Empty = "filled".
Proof.
  assert (reachable sample_isValidGuess GameJs slate_then_cr) as Hw
    by apply reachable_run, reach_created.
  split; [exact Hw|]. split; [reflexivity|].
  exact (proj1 (reachable_board_tiles sample_isValidGuess GameJs
                  slate_then_cr 1 1
                  ["C"; "R"; EmptyString; EmptyString; EmptyString]
                  (replicate WORD_LENGTH Empty) "R" Empty Hw
                  eq_refl eq_refl eq_refl eq_refl)).
Defined.

(** ** The ends of a row *)

Section RowEnds.
Variable isValidGuess : string → bool.
Variable v : Source.

Lemma full_row_ignores_letters (letters : list string) (w : World) :
  WORD_LENGTH ≤ currentCol (state w) →
  Forall (λ key, is_letter_key key = true) letters →
  run isValidGuess v letters w = w.
Proof.
  intros Hfull Hall. induction Hall as [|key letters Hkey _ IH]; [done|].
  rewrite (run_cons isValidGuess v).
  assert (handleKeyInput isValidGuess v key w = Returns w) as ->; [|exact IH].
  unfold handleKeyInput. cbn zeta. case_decide; [done|].
  rewrite Hkey. by rewrite decide_False by lia.
Qed.

(** X24. A row takes five letters: of the letters typed into the current
    row of an active game, those that no longer fit are ignored. *)
Theorem letters_beyond_the_row_are_ignored (letters : list string)
    (w : World) :
  reachable isValidGuess v w → status (state w) = Active →
  Forall (λ key, is_letter_key key = true) letters →
  run isValidGuess v letters w
  = run isValidGuess v
      (take (WORD_LENGTH - currentCol (state w)) letters) w
  ∧ currentCol (state (run isValidGuess v letters w))
    = (currentCol (state w) + length letters) `min` WORD_LENGTH.
Proof.
  intros Hw Hst Hall.
  destruct (reachable_well_formed isValidGuess v w Hw)
    as (Hg & _ & Hcol & Hact & _ & _ & Hrows & _).
  specialize (Hact Hst).
  destruct (lookup_lt_is_Some_2 (guesses (state w)) (currentRow (state w)))
    as [row Hrow]; [lia|].
  specialize (Hrows _ _ Hrow). unfold evaluated in Hrows. rewrite Hst in Hrows.
  rewrite decide_False in Hrows by lia. destruct Hrows as (_ & Hlen & _).
  set (n := WORD_LENGTH - currentCol (state w)).
  assert (Forall (λ key, is_letter_key key = true) (take n letters)) as Htake
    by (by apply Forall_take).
  assert (Forall (λ key, is_letter_key key = true) (drop n letters)) as Hdrop
    by (by apply Forall_drop).
  pose proof (type_letters isValidGuess v (take n letters) w row Hst Hrow
                Hlen Htake) as Htyped.
  rewrite length_take in Htyped. specialize (Htyped ltac:(lia)).
  rewrite <- (take_drop n letters) at 1 3.
  rewrite (run_app isValidGuess v).
  destruct (decide (length letters ≤ n)) as [Hshort|Hlong].
  - rewrite (drop_ge letters n) by lia. cbn [run foldl].
    split; [done|]. rewrite Htyped. cbn [state set_currentCol currentCol].
    lia.
  - rewrite full_row_ignores_letters; [| |done].
    + split; [done|]. rewrite Htyped. cbn [state set_currentCol currentCol].
      lia.
    + rewrite Htyped. cbn [state set_currentCol currentCol]. lia.
Qed.

(** X25. Backspace pressed at least as often as there are letters in the
    current row of an active game empties that row and puts the cursor at
    its start; what is pressed beyond that is ignored, and nothing else
    changes.  No earlier row can be reached by deleting. *)
Theorem backspaces_empty_the_row (n : nat) (w : World) :
  reachable isValidGuess v w → status (state w) = Active →
  currentCol (state w) ≤ n →
  run isValidGuess v (replicate n "backspace") w
  = {| state :=
         set_currentCol 0
           (set_guesses
              (<[currentRow (state w) := replicate WORD_LENGTH EmptyString]>
                 (guesses (state w))) (state w));
       statusText := statusText w |}.
Proof.
  revert w. induction n as [|n IH]; intros w Hw Hst Hn.
  - destruct (reachable_well_formed isValidGuess v w Hw)
      as (Hg & _ & _ & Hact & _ & _ & Hrows & _).
    specialize (Hact Hst).
    destruct (lookup_lt_is_Some_2 (guesses (state w)) (currentRow (state w)))
      as [row Hrow]; [lia|].
    specialize (Hrows _ _ Hrow). unfold evaluated in Hrows.
    rewrite Hst in Hrows.
    rewrite decide_False in Hrows by lia.
    rewrite decide_True in Hrows by done.
    assert (currentCol (state w) = 0) as Hcol by lia.
    rewrite Hcol in Hrows. destruct Hrows as [_ Hblank].
    apply typed_row_0 in Hblank. subst row.
    cbn [replicate run foldl]. rewrite list_insert_id by done.
    unfold set_currentCol, set_guesses.
    cbn [guesses answer developerMode evaluations keyStates status currentRow
         currentCol].
    by rewrite <- Hcol, state_eta, world_eta.
  - cbn [replicate]. rewrite (run_cons isValidGuess v).
    destruct (decide (0 < currentCol (state w))) as [Hpos|Hzero].
    + destruct (reachable_well_formed isValidGuess v w Hw)
        as (Hg & _ & Hcol & Hact & _ & _ & Hrows & _).
      specialize (Hact Hst).
      destruct (lookup_lt_is_Some_2 (guesses (state w)) (currentRow (state w)))
        as [row Hrow]; [lia|].
      specialize (Hrows _ _ Hrow). unfold evaluated in Hrows.
      rewrite Hst in Hrows.
      rewrite decide_False in Hrows by lia. destruct Hrows as (_ & Hlen & _).
      pose proof (reach_key isValidGuess v "backspace" w Hw) as Hw1.
      rewrite (backspace_handled isValidGuess v w row) in * by done.
      cbn [world_of] in *. rewrite IH.
      * cbn [state statusText]. unfold set_currentCol, set_guesses.
        cbn [guesses answer developerMode evaluations keyStates status
             currentRow currentCol].
        by rewrite list_insert_insert_eq.
      * exact Hw1.
      * exact Hst.
      * cbn [state set_guesses set_currentCol currentCol]. lia.
    + assert (handleKeyInput isValidGuess v "backspace" w = Returns w) as ->.
      { unfold handleKeyInput. cbn zeta. case_decide; [done|].
        change (is_letter_key "backspace") with false. cbn iota.
        rewrite decide_True by reflexivity. by rewrite decide_False by done. }
      cbn [world_of]. apply IH; [done|done|lia].
Qed.
End RowEnds.

Lemma letters_beyond_the_row_are_ignored_witness :
  reachable sample_isValidGuess GameJs slate_then_cr
  ∧ status (state slate_then_cr) = Active
  ∧ currentCol (state (run sample_isValidGuess GameJs
                         ["a"; "n"; "e"; "s"; "t"] slate_then_cr))
    = (currentCol (state slate_then_cr) + 5) `min` WORD_LENGTH.
Proof.
  assert (reachable sample_isValidGuess GameJs slate_then_cr) as Hw
    by apply reachable_run, reach_created.
  split; [exact Hw|]. split; [reflexivity|].
  refine (proj2 (letters_beyond_the_row_are_ignored sample_isValidGuess GameJs
                   ["a"; "n"; "e"; "s"; "t"] slate_then_cr Hw eq_refl _)).
  repeat constructor.
Defined.

Lemma backspaces_empty_the_row_witness :
  reachable sample_isValidGuess GameJs slate_then_cr
  ∧ currentCol (state slate_then_cr) ≤ 3
  ∧ currentCol (state (run sample_isValidGuess GameJs
                         (replicate 3 "backspace") slate_then_cr)) = 0.
Proof.
  assert (reachable sample_isValidGuess GameJs slate_then_cr) as Hw
    by apply reachable_run, reach_created.
  assert (currentCol (state slate_then_cr) ≤ 3) as Hn by (vm_compute; lia).
  split; [exact Hw|]. split; [exact Hn|].
  rewrite (backspaces_empty_the_row sample_isValidGuess GameJs 3
             slate_then_cr Hw eq_refl Hn).
  reflexivity.
Defined.
